(** * A shallow embedding of [deque.h]: Block, CircularBuffer and Deque

    The C++ source keeps a double-ended sequence of [int] in fixed-capacity
    blocks owned by a growable ring of [unique_ptr] slots.  Every quantity of
    type [size_t] is modelled as a [Z] in the range [0, 2^64) with the
    wrap-around of unsigned arithmetic written out; arrays are lists indexed
    by such a [Z]; a [unique_ptr] slot is an [option]; and an access that the
    C++ abstract machine leaves undefined (an index outside an array, a
    dereference of an empty [unique_ptr], a remainder by zero) ends the
    computation with the corresponding [fault]. *)

From Stdlib Require Import ZArith List Lia Bool.
Import ListNotations.
Local Open Scope Z_scope.

(** ** Outcomes of a call *)

Inductive fault : Type :=
| OutOfBounds   (* array subscript outside the array *)
| NullDeref     (* operator-> or operator[] on an empty unique_ptr *)
| DivByZero.    (* remainder by a zero divisor *)

Inductive res (A : Type) : Type :=
| Ok : A -> res A
| UB : fault -> res A.
Arguments Ok {A} _.
Arguments UB {A} _.

Definition bind {A B : Type} (m : res A) (k : A -> res B) : res B :=
  match m with
  | Ok a => k a
  | UB f => UB f
  end.

Notation "x <- m ;; k" := (bind m (fun x => k))
  (at level 61, m at next level, right associativity).
Notation "' pat <- m ;; k" := (bind m (fun x => match x with pat => k end))
  (at level 61, pat pattern, m at next level, right associativity).

(** ** [size_t] arithmetic and arrays *)

Definition size_max : Z := 2 ^ 64.

Definition wrap (z : Z) : Z := z mod size_max.

Fixpoint upd {A : Type} (l : list A) (n : nat) (x : A) : list A :=
  match l, n with
  | [], _ => []
  | _ :: t, O => x :: t
  | h :: t, S n' => h :: upd t n' x
  end.

Definition in_bounds {A : Type} (l : list A) (i : Z) : bool :=
  (0 <=? i) && (i <? Z.of_nat (length l)).

(** [a[i]] as an rvalue. *)
Definition aget {A : Type} (l : list A) (i : Z) : res A :=
  if in_bounds l i then
    match nth_error l (Z.to_nat i) with
    | Some x => Ok x
    | None => UB OutOfBounds
    end
  else UB OutOfBounds.

(** [a[i] = x]. *)
Definition aset {A : Type} (l : list A) (i : Z) (x : A) : res (list A) :=
  if in_bounds l i then Ok (upd l (Z.to_nat i) x) else UB OutOfBounds.

(** ** namespace deque_settings *)

Module deque_settings.
(** [512 / sizeof(int)] with the usual four-byte [int]. *)
Definition kBlockSize : Z := 512 / 4.
Definition kBufferInitMaxSize : Z := Z.shiftl 1 4.
End deque_settings.

(** ** template<size_t BlockSize> struct Block

    [Init], the copy constructor and the two move operations of [Block] are
    member functions of a class template that nothing calls: they are never
    instantiated and have no counterpart here.  A block is copied by
    [operator=(const Block &)] only. *)

Module Block.

Record t : Type := mk {
  data_ : list Z;
  size_ : Z;
  head_ : Z;
  tail_ : Z
}.

Section Ops.
Variable BlockSize : Z.

(** [std::make_unique<DataBlock>()]: a value-initialised block, every
    cell and every field zero. *)
Definition make : t :=
  {| data_ := repeat 0 (Z.to_nat BlockSize); size_ := 0; head_ := 0; tail_ := 0 |}.

(** The loop [for (i = head_; i <= tail_; ++i) data_[i] = filler] of the
    sized constructor.  [cells] counts the array cells from index [i] on:
    when none is left and the loop condition still holds, the store is
    outside the array. *)
Fixpoint fill (cells : nat) (i tail filler : Z) (data : list Z) : res (list Z) :=
  if i <=? tail then
    match cells with
    | O => UB OutOfBounds
    | S c =>
        data' <- aset data i filler ;;
        fill c (wrap (i + 1)) tail filler data'
    end
  else Ok data.

(** [Block(size_t size, int filler)].  The cells the loop does not write
    are left as they are by the constructor; they are shown as 0. *)
Definition make_filled (size filler : Z) : res t :=
  let size' := size in
  let head' := 0 in
  let tail' := wrap (size' - 1) in
  let data0 := repeat 0 (Z.to_nat BlockSize) in
  data' <- fill (length data0) head' tail' filler data0 ;;
  Ok {| data_ := data'; size_ := size'; head_ := head'; tail_ := tail' |}.

(** [Block &operator=(const Block &other)]: the three fields and a
    [memcpy] of the whole array. *)
Definition assign (this other : t) : t :=
  {| data_ := data_ other; size_ := size_ other;
     head_ := head_ other; tail_ := tail_ other |}.

Definition PushFront (value : Z) (b : t) : res t :=
  if (head_ b =? tail_ b) && (head_ b =? 0) then
    let h := wrap (BlockSize - 1) in
    data' <- aset (data_ b) h value ;;
    Ok {| data_ := data'; size_ := wrap (size_ b + 1); head_ := h; tail_ := h |}
  else
    let h := wrap (head_ b - 1) in
    data' <- aset (data_ b) h value ;;
    Ok {| data_ := data'; size_ := wrap (size_ b + 1); head_ := h; tail_ := tail_ b |}.

Definition PushBack (value : Z) (b : t) : res t :=
  if (head_ b =? tail_ b) && (tail_ b =? 0) && (size_ b =? 0) then
    data' <- aset (data_ b) (tail_ b) value ;;
    Ok {| data_ := data'; size_ := wrap (size_ b + 1);
          head_ := head_ b; tail_ := tail_ b |}
  else
    let tl := wrap (tail_ b + 1) in
    data' <- aset (data_ b) tl value ;;
    Ok {| data_ := data'; size_ := wrap (size_ b + 1); head_ := head_ b; tail_ := tl |}.

Definition PopFront (b : t) : res t :=
  data' <- aset (data_ b) (head_ b) 0 ;;
  Ok {| data_ := data'; size_ := wrap (size_ b - 1);
        head_ := wrap (head_ b + 1); tail_ := tail_ b |}.

Definition PopBack (b : t) : res t :=
  data' <- aset (data_ b) (tail_ b) 0 ;;
  Ok {| data_ := data'; size_ := wrap (size_ b - 1);
        head_ := head_ b; tail_ := wrap (tail_ b - 1) |}.

Definition Get (index : Z) (b : t) : res Z :=
  aget (data_ b) (wrap (head_ b + index)).

Definition Size (b : t) : Z := size_ b.
Definition GetHead (b : t) : Z := head_ b.
Definition GetTail (b : t) : Z := tail_ b.
Definition IsEmpty (b : t) : bool := size_ b =? 0.
Definition IsFull (b : t) : bool := size_ b =? BlockSize.
Definition IsHeadShifted (b : t) : bool := negb (head_ b =? 0).
Definition IsRightClose (b : t) : bool := wrap (head_ b + size_ b) >=? BlockSize.
End Ops.

End Block.

(** ** template<size_t BlockSize> class CircularBuffer *)

Module CircularBuffer.

(** [buffer_] is a [unique_ptr] to an array of [unique_ptr<DataBlock>]:
    [None] is the empty outer pointer, and a slot of the array is [None]
    when it owns no block. *)
Record t : Type := mk {
  size_ : Z;
  max_size_ : Z;
  head_ : Z;
  tail_ : Z;
  buffer_ : option (list (option Block.t))
}.

(** A [DataBlock *]: the null pointer, or the block owned by a ring slot. *)
Definition ptr : Type := option Z.

Definition with_buffer (r : t) (a : list (option Block.t)) : t :=
  {| size_ := size_ r; max_size_ := max_size_ r;
     head_ := head_ r; tail_ := tail_ r; buffer_ := Some a |}.

(** [new std::unique_ptr<DataBlock>[n]] *)
Definition new_array (n : Z) : list (option Block.t) := repeat None (Z.to_nat n).

Definition slots (r : t) : res (list (option Block.t)) :=
  match buffer_ r with
  | Some a => Ok a
  | None => UB NullDeref
  end.

Definition deref (p : option Block.t) : res Block.t :=
  match p with
  | Some b => Ok b
  | None => UB NullDeref
  end.

(** [buffer_[i]] *)
Definition slot (r : t) (i : Z) : res (option Block.t) :=
  a <- slots r ;; aget a i.

(** [*buffer_[i]] *)
Definition block_at (r : t) (i : Z) : res Block.t :=
  p <- slot r i ;; deref p.

(** [buffer_[i] = x] *)
Definition set_slot (r : t) (i : Z) (x : option Block.t) : res t :=
  a <- slots r ;;
  a' <- aset a i x ;;
  Ok (with_buffer r a').

(** [p->f()] for a mutating member function [f] of the block. *)
Definition at_ptr (r : t) (p : ptr) (f : Block.t -> res Block.t) : res t :=
  match p with
  | None => UB NullDeref
  | Some i =>
      b <- block_at r i ;;
      b' <- f b ;;
      set_slot r i (Some b')
  end.

(** [*p] read through a block pointer. *)
Definition read_ptr (r : t) (p : ptr) : res Block.t :=
  match p with
  | None => UB NullDeref
  | Some i => block_at r i
  end.

(** [a % b] on [size_t]. *)
Definition umod (a b : Z) : res Z :=
  if b =? 0 then UB DivByZero else Ok (a mod b).

Definition GetBlocksCount (elem_count : Z) : Z :=
  if elem_count =? 0 then 1
  else wrap (wrap (elem_count - 1) / deque_settings.kBlockSize + 1).

Section Ops.
Variable BlockSize : Z.

(** [CircularBuffer()]: slot 0 of a fresh array of [max_size_] = 16
    slots receives a new block. *)
Definition make : t :=
  let max := deque_settings.kBufferInitMaxSize in
  {| size_ := 1; max_size_ := max; head_ := 0; tail_ := 0;
     buffer_ := Some (upd (new_array max) 0 (Some (Block.make BlockSize))) |}.

(** [CircularBuffer(size_t elem_count)]; [max_size_] is at least 16, so
    slot 0 exists. *)
Definition make_sized (elem_count : Z) : t :=
  let size := GetBlocksCount elem_count in
  let max := Z.max size deque_settings.kBufferInitMaxSize in
  {| size_ := size; max_size_ := max; head_ := 0; tail_ := 0;
     buffer_ := Some (upd (new_array max) 0 (Some (Block.make BlockSize))) |}.

(** The loop of [CircularBuffer(size_t elem_count, int filler)];
    [cells] counts the slots of the array from index [i] on. *)
Fixpoint fill_blocks (cells : nat) (i size elem_count filler : Z)
         (a : list (option Block.t)) : res (list (option Block.t)) :=
  if i <? size then
    b <- (if i =? wrap (size - 1) then
            n <- umod elem_count BlockSize ;;
            Block.make_filled BlockSize n filler
          else Block.make_filled BlockSize BlockSize filler) ;;
    match cells with
    | O => UB OutOfBounds
    | S c =>
        a' <- aset a i (Some b) ;;
        fill_blocks c (wrap (i + 1)) size elem_count filler a'
    end
  else Ok a.

Definition make_filled (elem_count filler : Z) : res t :=
  let size := GetBlocksCount elem_count in
  let max := Z.max size deque_settings.kBufferInitMaxSize in
  let a0 := new_array max in
  a <- fill_blocks (length a0) 0 size elem_count filler a0 ;;
  Ok {| size_ := size; max_size_ := max; head_ := 0; tail_ := 0; buffer_ := Some a |}.

(** The state a move leaves in [other]. *)
Definition moved_from : t :=
  {| size_ := 1; max_size_ := 0; head_ := 0; tail_ := 0; buffer_ := None |}.

(** [CircularBuffer(CircularBuffer &&other)]: the new ring and [other]
    afterwards. *)
Definition move_construct (other : t) : t * t :=
  ({| size_ := size_ other; max_size_ := max_size_ other;
      head_ := head_ other; tail_ := tail_ other; buffer_ := buffer_ other |},
   moved_from).

(** [operator=(CircularBuffer &&other)] for two distinct objects:
    [*this] and [other] afterwards. *)
Definition move_assign (this other : t) : t * t :=
  ({| size_ := size_ other; max_size_ := max_size_ other;
      head_ := head_ other; tail_ := tail_ other; buffer_ := buffer_ other |},
   moved_from).

(** The loop of the copy constructor, over slots [0 .. other.size_ - 1]
    of both arrays. *)
Fixpoint copy_blocks (cells : nat) (i : Z) (other : t)
         (a : list (option Block.t)) : res (list (option Block.t)) :=
  if i <? size_ other then
    match cells with
    | O => UB OutOfBounds
    | S c =>
        a1 <- aset a i (Some (Block.make BlockSize)) ;;
        dst <- (p <- aget a1 i ;; deref p) ;;
        src <- block_at other i ;;
        a2 <- aset a1 i (Some (Block.assign dst src)) ;;
        copy_blocks c (wrap (i + 1)) other a2
    end
  else Ok a.

(** [CircularBuffer(const CircularBuffer &other)] *)
Definition copy_construct (other : t) : res t :=
  let a0 := new_array (max_size_ other) in
  a <- copy_blocks (length a0) 0 other a0 ;;
  Ok {| size_ := size_ other; max_size_ := max_size_ other;
        head_ := head_ other; tail_ := tail_ other; buffer_ := Some a |}.

Definition Swap (this other : t) : t * t := (other, this).

Definition AddTailDataBlock (r : t) : res t :=
  let tail' := if tail_ r =? wrap (max_size_ r - 1) then 0 else wrap (tail_ r + 1) in
  a <- slots r ;;
  a' <- aset a tail' (Some (Block.make BlockSize)) ;;
  Ok {| size_ := wrap (size_ r + 1); max_size_ := max_size_ r;
        head_ := head_ r; tail_ := tail'; buffer_ := Some a' |}.

Definition AddHeadDataBlock (r : t) : res t :=
  let head' := if head_ r =? 0 then wrap (max_size_ r - 1) else wrap (head_ r - 1) in
  a <- slots r ;;
  a' <- aset a head' (Some (Block.make BlockSize)) ;;
  Ok {| size_ := wrap (size_ r + 1); max_size_ := max_size_ r;
        head_ := head'; tail_ := tail_ r; buffer_ := Some a' |}.

Definition DeleteDataBlockFromTail (r : t) : res t :=
  a <- slots r ;;
  a' <- aset a (tail_ r) None ;;
  if tail_ r =? head_ r then
    Ok {| size_ := 0; max_size_ := max_size_ r; head_ := 0; tail_ := 0;
          buffer_ := Some a' |}
  else
    let tail' := if tail_ r =? 0 then wrap (max_size_ r - 1) else wrap (tail_ r - 1) in
    Ok {| size_ := wrap (size_ r - 1); max_size_ := max_size_ r;
          head_ := head_ r; tail_ := tail'; buffer_ := Some a' |}.

Definition DeleteDataBlockFromHead (r : t) : res t :=
  a <- slots r ;;
  a' <- aset a (head_ r) None ;;
  if head_ r =? tail_ r then
    Ok {| size_ := 0; max_size_ := max_size_ r; head_ := 0; tail_ := 0;
          buffer_ := Some a' |}
  else
    let head' := if head_ r =? wrap (max_size_ r - 1) then 0 else wrap (head_ r + 1) in
    Ok {| size_ := wrap (size_ r - 1); max_size_ := max_size_ r;
          head_ := head'; tail_ := tail_ r; buffer_ := Some a' |}.

Definition IsFull (r : t) : bool := size_ r =? max_size_ r.

(** [size_ == 1 and buffer_[0]->IsEmpty()]: slot 0 is only looked at
    when the first test holds. *)
Definition IsEmpty (r : t) : res bool :=
  if size_ r =? 1 then
    b <- block_at r 0 ;; Ok (Block.IsEmpty b)
  else Ok false.

Definition IsTailDataBlockFull (r : t) : res bool :=
  b <- block_at r (tail_ r) ;; Ok (Block.IsFull BlockSize b).

Definition IsHeadDataBlockFull (r : t) : res bool :=
  b <- block_at r (head_ r) ;; Ok (Block.IsFull BlockSize b).

Definition TailIsUsedHead (r : t) : res bool :=
  b <- block_at r (tail_ r) ;; Ok (Block.IsRightClose BlockSize b).

Definition IsHeadStartNotShifted (r : t) : res bool :=
  b <- block_at r (head_ r) ;; Ok (negb (Block.IsHeadShifted b)).

(** Returns the ring, in which the tail slot may have received a new
    block, and the pointer to the block of that slot. *)
Definition GetTailDataBlock (r : t) : res (t * ptr) :=
  p <- slot r (tail_ r) ;;
  match p with
  | Some _ => Ok (r, Some (tail_ r))
  | None =>
      r' <- set_slot r (tail_ r) (Some (Block.make BlockSize)) ;;
      Ok (r', Some (tail_ r))
  end.

Definition GetHeadDataBlock (r : t) : res ptr :=
  p <- slot r (head_ r) ;;
  match p with
  | Some _ => Ok (Some (head_ r))
  | None => Ok None
  end.

Definition GetElementByIndex (index : Z) (r : t) : res Z :=
  hb <- block_at r (head_ r) ;;
  let head_size := Block.Size hb in
  if index <? head_size then Block.Get index hb
  else
    let index' := wrap (index - head_size) in
    target_block_index <- umod (wrap (wrap (head_ r + index' / BlockSize) + 1))
                               (max_size_ r) ;;
    let target_elem_in_block_index := index' mod BlockSize in
    tb <- block_at r target_block_index ;;
    Block.Get target_elem_in_block_index tb.

(** The loop [for (i = head_; i != tail_; i = (i + 1) % max_size_)] of
    [ExpandBuffer]; [room] counts the slots of the new array from index
    [cnt] on.  A slot that was moved from is empty afterwards. *)
Fixpoint expand_loop (room : nat) (i cnt : Z) (r : t)
         (old new : list (option Block.t))
  : res (Z * list (option Block.t) * list (option Block.t)) :=
  if i =? tail_ r then Ok (cnt, old, new)
  else
    match room with
    | O => UB OutOfBounds
    | S rm =>
        x <- aget old i ;;
        new' <- aset new cnt x ;;
        old' <- aset old i None ;;
        i' <- umod (wrap (i + 1)) (max_size_ r) ;;
        expand_loop rm i' (wrap (cnt + 1)) r old' new'
    end.

Definition ExpandBuffer (r : t) : res t :=
  let new_size := wrap (max_size_ r * 2) in
  let new_buffer := new_array new_size in
  old <- slots r ;;
  '(cnt, old', new') <- expand_loop (length new_buffer) (head_ r) 0 r old new_buffer ;;
  x <- aget old' (tail_ r) ;;
  new'' <- aset new' cnt x ;;
  Ok {| size_ := size_ r; max_size_ := new_size; head_ := 0;
        tail_ := wrap (size_ r - 1); buffer_ := Some new'' |}.

(** The loop [for (i = 0; i < size_; ++i) buffer_[i].reset()]. *)
Fixpoint clear_loop (cells : nat) (i size : Z) (a : list (option Block.t))
  : res (list (option Block.t)) :=
  if i <? size then
    match cells with
    | O => UB OutOfBounds
    | S c =>
        a' <- aset a i None ;;
        clear_loop c (wrap (i + 1)) size a'
    end
  else Ok a.

Definition Clear (r : t) : res t :=
  a <- slots r ;;
  a1 <- clear_loop (length a) 0 (size_ r) a ;;
  a2 <- aset a1 0 (Some (Block.make BlockSize)) ;;
  Ok {| size_ := 0; max_size_ := deque_settings.kBufferInitMaxSize;
        head_ := 0; tail_ := 0; buffer_ := Some a2 |}.
End Ops.

End CircularBuffer.

(** ** class Deque *)

Module Deque.

Record t : Type := mk {
  data_proxy_ : CircularBuffer.t;
  size_ : Z
}.

Definition BS : Z := deque_settings.kBlockSize.

(** [Deque()] *)
Definition make : t :=
  {| data_proxy_ := CircularBuffer.make BS; size_ := 0 |}.

(** [Deque(size_t size)] *)
Definition make_sized (size : Z) : res t :=
  r <- CircularBuffer.make_filled BS size 0 ;;
  Ok {| data_proxy_ := r; size_ := size |}.

(** [Deque(const Deque &rhs)] *)
Definition copy_construct (rhs : t) : res t :=
  r <- CircularBuffer.copy_construct BS (data_proxy_ rhs) ;;
  Ok {| data_proxy_ := r; size_ := size_ rhs |}.

(** [Deque(Deque &&rhs)], defaulted: the ring is moved, the count is
    copied.  Returns the new deque and [rhs] afterwards. *)
Definition move_construct (rhs : t) : t * t :=
  let '(r, o) := CircularBuffer.move_construct (data_proxy_ rhs) in
  ({| data_proxy_ := r; size_ := size_ rhs |},
   {| data_proxy_ := o; size_ := size_ rhs |}).

(** The body of [operator=(Deque rhs)], [rhs] being the by-value
    parameter, which is destroyed on return. *)
Definition assign (this rhs : t) : t :=
  let '(r, _) := CircularBuffer.move_assign (data_proxy_ this) (data_proxy_ rhs) in
  {| data_proxy_ := r; size_ := size_ rhs |}.

(** [a = std::move(b)]: the parameter is move-constructed from [b]. *)
Definition move_assign (this other : t) : t * t :=
  let '(rhs, other') := move_construct other in
  (assign this rhs, other').

(** [a = b]: the parameter is copy-constructed from [b]. *)
Definition copy_assign (this other : t) : res t :=
  rhs <- copy_construct other ;;
  Ok (assign this rhs).

Definition Swap (this rhs : t) : t * t :=
  let '(r1, r2) := CircularBuffer.Swap (data_proxy_ this) (data_proxy_ rhs) in
  ({| data_proxy_ := r1; size_ := size_ rhs |},
   {| data_proxy_ := r2; size_ := size_ this |}).

Definition PushBack (value : Z) (d : t) : res t :=
  let r := data_proxy_ d in
  r1 <- (if CircularBuffer.IsFull r then
           full <- CircularBuffer.IsTailDataBlockFull BS r ;;
           if full then CircularBuffer.ExpandBuffer r else Ok r
         else Ok r) ;;
  add <- (full <- CircularBuffer.IsTailDataBlockFull BS r1 ;;
          if full then Ok true else CircularBuffer.TailIsUsedHead BS r1) ;;
  r2 <- (if add then CircularBuffer.AddTailDataBlock BS r1 else Ok r1) ;;
  '(r3, tail_data_block) <- CircularBuffer.GetTailDataBlock BS r2 ;;
  r4 <- CircularBuffer.at_ptr r3 tail_data_block (Block.PushBack value) ;;
  Ok {| data_proxy_ := r4; size_ := wrap (size_ d + 1) |}.

Definition PopBack (d : t) : res t :=
  let r := data_proxy_ d in
  '(r1, tail_data_block) <- CircularBuffer.GetTailDataBlock BS r ;;
  r2 <- CircularBuffer.at_ptr r1 tail_data_block Block.PopBack ;;
  b <- CircularBuffer.read_ptr r2 tail_data_block ;;
  r3 <- (if Block.IsEmpty b && (size_ d >? 1)
         then CircularBuffer.DeleteDataBlockFromTail r2 else Ok r2) ;;
  Ok {| data_proxy_ := r3; size_ := wrap (size_ d - 1) |}.

Definition PushFront (value : Z) (d : t) : res t :=
  let r := data_proxy_ d in
  r1 <- (if CircularBuffer.IsFull r then
           full <- CircularBuffer.IsHeadDataBlockFull BS r ;;
           if full then CircularBuffer.ExpandBuffer r else Ok r
         else Ok r) ;;
  add <- (empty <- CircularBuffer.IsEmpty r1 ;;
          if negb empty then CircularBuffer.IsHeadStartNotShifted r1 else Ok false) ;;
  r2 <- (if add then CircularBuffer.AddHeadDataBlock BS r1 else Ok r1) ;;
  head_data_block <- CircularBuffer.GetHeadDataBlock r2 ;;
  r3 <- CircularBuffer.at_ptr r2 head_data_block (Block.PushFront BS value) ;;
  Ok {| data_proxy_ := r3; size_ := wrap (size_ d + 1) |}.

Definition PopFront (d : t) : res t :=
  let r := data_proxy_ d in
  head_data_block <- CircularBuffer.GetHeadDataBlock r ;;
  r1 <- CircularBuffer.at_ptr r head_data_block Block.PopFront ;;
  b <- CircularBuffer.read_ptr r1 head_data_block ;;
  r2 <- (if Block.IsEmpty b && (size_ d >? 1)
         then CircularBuffer.DeleteDataBlockFromHead r1 else Ok r1) ;;
  Ok {| data_proxy_ := r2; size_ := wrap (size_ d - 1) |}.

(** [operator[](size_t ind) const] *)
Definition index (ind : Z) (d : t) : res Z :=
  CircularBuffer.GetElementByIndex BS ind (data_proxy_ d).

Definition Size (d : t) : Z := size_ d.

Definition Clear (d : t) : res t :=
  r <- CircularBuffer.Clear BS (data_proxy_ d) ;;
  Ok {| data_proxy_ := r; size_ := 0 |}.

(** The [for (int el : list) PushBack(el)] loop of the list constructor. *)
Fixpoint push_all (l : list Z) (d : t) : res t :=
  match l with
  | [] => Ok d
  | el :: rest => d' <- PushBack el d ;; push_all rest d'
  end.

(** [Deque(std::initializer_list<int> list)] *)
Definition make_list (l : list Z) : res t :=
  push_all l {| data_proxy_ := CircularBuffer.make_sized BS (Z.of_nat (length l));
                size_ := 0 |}.

(** The elements at indices [0 .. n-1], read one by one. *)
Fixpoint read_from (n : nat) (i : Z) (d : t) : res (list Z) :=
  match n with
  | O => Ok []
  | S n' =>
      x <- index i d ;;
      xs <- read_from n' (i + 1) d ;;
      Ok (x :: xs)
  end.

Definition contents (d : t) : res (list Z) :=
  read_from (Z.to_nat (Size d)) 0 d.

End Deque.

(** ** Operation sequences and the reference two-ended list *)

Inductive op : Type :=
| OpPushBack (v : Z)
| OpPushFront (v : Z)
| OpPopBack
| OpPopFront.

Definition step (o : op) (d : Deque.t) : res Deque.t :=
  match o with
  | OpPushBack v => Deque.PushBack v d
  | OpPushFront v => Deque.PushFront v d
  | OpPopBack => Deque.PopBack d
  | OpPopFront => Deque.PopFront d
  end.

Fixpoint run (ops : list op) (d : Deque.t) : res Deque.t :=
  match ops with
  | [] => Ok d
  | o :: rest => d' <- step o d ;; run rest d'
  end.

Definition ref_apply (o : op) (l : list Z) : list Z :=
  match o with
  | OpPushBack v => l ++ [v]
  | OpPushFront v => v :: l
  | OpPopBack => removelast l
  | OpPopFront => tl l
  end.

Fixpoint ref_run (ops : list op) (l : list Z) : list Z :=
  match ops with
  | [] => l
  | o :: rest => ref_run rest (ref_apply o l)
  end.

(** The sequence never pops more than was pushed, [n] elements being there
    at its start. *)
Fixpoint within_contract (ops : list op) (n : nat) : bool :=
  match ops with
  | [] => true
  | OpPushBack _ :: rest | OpPushFront _ :: rest => within_contract rest (S n)
  | OpPopBack :: rest | OpPopFront :: rest =>
      match n with
      | O => false
      | S n' => within_contract rest n'
      end
  end.

(** ** Observations on the ring *)

Definition is_some {A : Type} (o : option A) : bool :=
  match o with
  | Some _ => true
  | None => false
  end.

(** The slots of the ring that own a block. *)
Definition owned_slots (r : CircularBuffer.t) : list bool :=
  match CircularBuffer.buffer_ r with
  | Some a => map is_some a
  | None => []
  end.

Definition populated (r : CircularBuffer.t) : Z :=
  Z.of_nat (length (filter (fun b => b) (owned_slots r))).

Definition owns (r : CircularBuffer.t) (k : Z) : bool :=
  nth (Z.to_nat k) (owned_slots r) false.

(** [k] lies on the way from [head_] to [tail_], going up and wrapping at
    the end of the array. *)
Definition in_ring_range (r : CircularBuffer.t) (k : Z) : bool :=
  let h := CircularBuffer.head_ r in
  let t := CircularBuffer.tail_ r in
  if h <=? t then (h <=? k) && (k <=? t)
  else (h <=? k) || (k <=? t).

Definition ring_consistent (r : CircularBuffer.t) : Prop :=
  CircularBuffer.size_ r = populated r /\
  forall k, 0 <= k < Z.of_nat (length (owned_slots r)) ->
            owns r k = in_ring_range r k.

(** Every block of the ring other than the head block and the tail block
    holds [BlockSize] elements from offset 0 on. *)
Definition inner_blocks_full (BlockSize : Z) (r : CircularBuffer.t) : Prop :=
  forall a k b,
    CircularBuffer.buffer_ r = Some a ->
    0 <= k ->
    nth_error a (Z.to_nat k) = Some (Some b) ->
    k <> CircularBuffer.head_ r ->
    k <> CircularBuffer.tail_ r ->
    Block.size_ b = BlockSize /\ Block.head_ b = 0.

(** ** Representation invariants *)

(** The block holds the elements [c] in its window. *)
Definition block_rep (C : Z) (b : Block.t) (c : list Z) : Prop :=
  Z.of_nat (length (Block.data_ b)) = C /\
  Block.size_ b = Z.of_nat (length c) /\
  0 <= Block.head_ b /\
  Block.head_ b + Z.of_nat (length c) <= C /\
  forall i : nat, (i < length c)%nat ->
    nth_error (Block.data_ b) (Z.to_nat (Block.head_ b) + i) = nth_error c i.

(** [tail_] is where the window ends. *)
Definition synced (b : Block.t) : Prop :=
  Block.tail_ b = wrap (Block.head_ b + Block.size_ b - 1).

(** The state in which the default constructor leaves the three fields. *)
Definition pristine (b : Block.t) : Prop :=
  Block.head_ b = 0 /\ Block.tail_ b = 0 /\ Block.size_ b = 0.

(** What holds of a block that has a successor in the ring. *)
Definition front_ok (C : Z) (b : Block.t) : Prop :=
  Block.head_ b + Block.size_ b = C /\ Block.tail_ b = C - 1.

(** What holds of a block that has a predecessor in the ring. *)
Definition back_ok (b : Block.t) : Prop :=
  Block.head_ b = 0 /\ Block.tail_ b = wrap (Block.size_ b - 1).

Definition inner_ok (C : Z) (b : Block.t) (c : list Z) : Prop :=
  block_rep C b c /\ front_ok C b /\ back_ok b.

Inductive layout (C : Z) : list Block.t -> list (list Z) -> Prop :=
| layout_one : forall b c,
    block_rep C b c -> synced b \/ pristine b ->
    layout C [b] [c]
| layout_many : forall h ch mids cms t ct,
    block_rep C h ch -> front_ok C h ->
    Forall2 (inner_ok C) mids cms ->
    block_rep C t ct -> back_ok t ->
    layout C (h :: mids ++ [t]) (ch :: cms ++ [ct]).

(** The ring holds the blocks [bs], in order, in the slots from [head_] on. *)
Definition ring_inv (r : CircularBuffer.t) (bs : list Block.t) : Prop :=
  let M := CircularBuffer.max_size_ r in
  let h := CircularBuffer.head_ r in
  let n := Z.of_nat (length bs) in
  exists a,
    CircularBuffer.buffer_ r = Some a /\
    Z.of_nat (length a) = M /\
    M < size_max /\
    CircularBuffer.size_ r = n /\
    1 <= n <= M /\
    0 <= h < M /\
    CircularBuffer.tail_ r = (h + n - 1) mod M /\
    forall j, 0 <= j < M ->
      nth_error a (Z.to_nat ((h + j) mod M)) = Some (nth_error bs (Z.to_nat j)).

Definition deque_inv (d : Deque.t) (l : list Z) : Prop :=
  exists bs cs,
    ring_inv (Deque.data_proxy_ d) bs /\
    layout Deque.BS bs cs /\
    l = concat cs /\
    Deque.size_ d = Z.of_nat (length l) /\
    2 <= CircularBuffer.max_size_ (Deque.data_proxy_ d) <= 2 ^ 59.

(** ** Sample inputs *)

Definition iota (n : nat) : list Z := map Z.of_nat (seq 0 n).

(** The three fields of a block. *)
Definition window (b : Block.t) : Z * Z * Z :=
  (Block.head_ b, Block.tail_ b, Block.size_ b).

(** 300 values pushed at the back, 200 at the front, then one popped at
    each end: the ring then holds five blocks, in slots 14, 15, 0, 1 and 2. *)
Definition sample_ops : list op :=
  map OpPushBack (iota 300) ++ map OpPushFront (iota 200) ++ [OpPopBack; OpPopFront].

Definition sample_state : Deque.t :=
  match run sample_ops Deque.make with
  | Ok d => d
  | UB _ => Deque.make
  end.

Definition small_state : Deque.t :=
  match run [OpPushFront 7] Deque.make with
  | Ok d => d
  | UB _ => Deque.make
  end.

(** ** Further definitions *)

(** The sequence uses the back of the deque only. *)
Definition back_only (ops : list op) : bool :=
  forallb (fun o => match o with
                    | OpPushBack _ | OpPopBack => true
                    | OpPushFront _ | OpPopFront => false
                    end) ops.

(** The representation of a deque that has only been used at the back:
    every block starts at offset 0, every block before the tail block is
    full, and the tail block is empty only when it is the only block. *)
Definition stack_inv (d : Deque.t) (l : list Z) : Prop :=
  exists bs0 t cs0 ct,
    ring_inv (Deque.data_proxy_ d) (bs0 ++ [t]) /\
    layout Deque.BS (bs0 ++ [t]) (cs0 ++ [ct]) /\
    l = concat (cs0 ++ [ct]) /\
    Deque.size_ d = Z.of_nat (length l) /\
    2 <= CircularBuffer.max_size_ (Deque.data_proxy_ d) <= 2 ^ 59 /\
    Forall (fun b => Block.head_ b = 0) (bs0 ++ [t]) /\
    Forall (fun c => Z.of_nat (length c) = Deque.BS) cs0 /\
    length bs0 = length cs0 /\
    (bs0 <> [] -> ct <> []).

(** The deque with the ring's tail index put at the last of its [size_]
    slots counted from slot 0. *)
Definition retail (d : Deque.t) : Deque.t :=
  let r := Deque.data_proxy_ d in
  {| Deque.data_proxy_ :=
       {| CircularBuffer.size_ := CircularBuffer.size_ r;
          CircularBuffer.max_size_ := CircularBuffer.max_size_ r;
          CircularBuffer.head_ := CircularBuffer.head_ r;
          CircularBuffer.tail_ := CircularBuffer.size_ r - 1;
          CircularBuffer.buffer_ := CircularBuffer.buffer_ r |};
     Deque.size_ := Deque.size_ d |}.

(** ** The overloads that return [int &]

    A reference to an element is the pair of the ring slot of its block and
    of the cell of the block's array. *)

Module NonConst.

Definition ref : Type := (Z * Z)%type.

(** [int &Block::Get(size_t index)]: the cell [data_[head_ + index]]. *)
Definition Block_Get (index : Z) (b : Block.t) : res Z :=
  let k := wrap (Block.head_ b + index) in
  if in_bounds (Block.data_ b) k then Ok k else UB OutOfBounds.

(** [int &CircularBuffer::GetElementByIndex(size_t index)] *)
Definition GetElementByIndex (BlockSize : Z) (index : Z) (r : CircularBuffer.t)
  : res ref :=
  hb <- CircularBuffer.block_at r (CircularBuffer.head_ r) ;;
  let head_size := Block.Size hb in
  if index <? head_size then
    k <- Block_Get index hb ;;
    Ok (CircularBuffer.head_ r, k)
  else
    let index' := wrap (index - head_size) in
    target_block_index <-
      CircularBuffer.umod
        (wrap (wrap (CircularBuffer.head_ r + index' / BlockSize) + 1))
        (CircularBuffer.max_size_ r) ;;
    let target_elem_in_block_index := index' mod BlockSize in
    tb <- CircularBuffer.block_at r target_block_index ;;
    k <- Block_Get target_elem_in_block_index tb ;;
    Ok (target_block_index, k).

(** [int &Deque::operator[](size_t ind)] *)
Definition index (ind : Z) (d : Deque.t) : res ref :=
  GetElementByIndex Deque.BS ind (Deque.data_proxy_ d).

(** Reading through a reference. *)
Definition load (p : ref) (d : Deque.t) : res Z :=
  b <- CircularBuffer.block_at (Deque.data_proxy_ d) (fst p) ;;
  aget (Block.data_ b) (snd p).

Definition Block_store (k value : Z) (b : Block.t) : res Block.t :=
  data' <- aset (Block.data_ b) k value ;;
  Ok {| Block.data_ := data'; Block.size_ := Block.size_ b;
        Block.head_ := Block.head_ b; Block.tail_ := Block.tail_ b |}.

(** Writing through a reference. *)
Definition store (p : ref) (value : Z) (d : Deque.t) : res Deque.t :=
  r <- CircularBuffer.at_ptr (Deque.data_proxy_ d) (Some (fst p))
         (Block_store (snd p) value) ;;
  Ok {| Deque.data_proxy_ := r; Deque.size_ := Deque.size_ d |}.

(** [d[ind] = value] *)
Definition assign (ind value : Z) (d : Deque.t) : res Deque.t :=
  p <- index ind d ;;
  store p value d.

End NonConst.

(** [void Block::Init(size_t size)]: the window is set to the first [size]
    cells, which the loop zeroes. *)
Definition Block_Init (size : Z) (b : Block.t) : res Block.t :=
  let tail' := wrap (size - 1) in
  data' <- Block.fill (length (Block.data_ b)) 0 tail' 0 (Block.data_ b) ;;
  Ok {| Block.data_ := data'; Block.size_ := size; Block.head_ := 0;
        Block.tail_ := tail' |}.

(** The ring with [k] added to its block count. *)
Definition overcount (k : Z) (r : CircularBuffer.t) : CircularBuffer.t :=
  {| CircularBuffer.size_ := CircularBuffer.size_ r + k;
     CircularBuffer.max_size_ := CircularBuffer.max_size_ r;
     CircularBuffer.head_ := CircularBuffer.head_ r;
     CircularBuffer.tail_ := CircularBuffer.tail_ r;
     CircularBuffer.buffer_ := CircularBuffer.buffer_ r |}.

Definition overcounted (k : Z) (d : Deque.t) : Deque.t :=
  {| Deque.data_proxy_ := overcount k (Deque.data_proxy_ d);
     Deque.size_ := Deque.size_ d |}.

(** A ring of [M] slots of which slot 0 holds a new block. *)
Definition fresh_ring (M : Z) : CircularBuffer.t :=
  {| CircularBuffer.size_ := 1; CircularBuffer.max_size_ := M;
     CircularBuffer.head_ := 0; CircularBuffer.tail_ := 0;
     CircularBuffer.buffer_ :=
       Some (upd (CircularBuffer.new_array M) 0 (Some (Block.make Deque.BS))) |}.

(** ** More sample inputs *)

Definition state_after (ops : list op) (d : Deque.t) : Deque.t :=
  match run ops d with
  | Ok d' => d'
  | UB _ => d
  end.

Definition sized_state (n : Z) : Deque.t :=
  match Deque.make_sized n with
  | Ok d => d
  | UB _ => Deque.make
  end.

(** 300 values pushed at the back, two popped there. *)
Definition stack_ops : list op :=
  map OpPushBack (iota 300) ++ [OpPopBack; OpPopBack].

(** 1921 values pushed at the back: sixteen blocks, the ring is full. *)
Definition full_ops : list op := map OpPushBack (iota 1921).

(** * Proofs *)

(** ** Arithmetic on [size_t] and ring positions *)

Lemma size_max_val : size_max = 18446744073709551616.
Proof. reflexivity. Qed.

Lemma wrap_small (z : Z) : 0 <= z < size_max -> wrap z = z.
Proof. intros H. unfold wrap. apply Z.mod_small. exact H. Qed.

Lemma wrap_below (z : Z) : - size_max <= z < 0 -> wrap z = z + size_max.
Proof.
  intros H. unfold wrap.
  symmetry. apply Z.mod_unique with (q := -1); lia.
Qed.

Lemma wrap_above (z : Z) : size_max <= z < 2 * size_max -> wrap z = z - size_max.
Proof.
  intros H. unfold wrap.
  symmetry. apply Z.mod_unique with (q := 1); lia.
Qed.

Lemma mod_cases (a M : Z) :
  0 < M -> - M <= a < 2 * M ->
  (0 <= a < M /\ a mod M = a) \/
  (M <= a /\ a mod M = a - M) \/
  (a < 0 /\ a mod M = a + M).
Proof.
  intros HM Ha.
  destruct (Z_lt_dec a 0) as [Hneg|Hnn].
  - right. right. split; [lia|].
    symmetry. apply Z.mod_unique with (q := -1); lia.
  - destruct (Z_lt_dec a M) as [Hlt|Hge].
    + left. split; [lia|]. apply Z.mod_small. lia.
    + right. left. split; [lia|].
      symmetry. apply Z.mod_unique with (q := 1); lia.
Qed.

(** Case analysis on [e mod M] for [e] between [-M] and [2M]. *)
Ltac mod_split e M :=
  let H := fresh "Hmod" in
  destruct (mod_cases e M) as [[? H]|[[? H]|[? H]]];
  [ lia | lia | | | ]; rewrite ?H in *.

Lemma ring_pos_inj (h M j k : Z) :
  0 <= h < M -> 0 <= j < M -> 0 <= k < M ->
  (h + j) mod M = (h + k) mod M -> j = k.
Proof.
  intros Hh Hj Hk E.
  destruct (mod_cases (h + j) M) as [[? E1]|[[? E1]|[? E1]]]; try lia;
  destruct (mod_cases (h + k) M) as [[? E2]|[[? E2]|[? E2]]]; try lia.
Qed.

Lemma ring_pos_range (h M j : Z) :
  0 <= h < M -> 0 <= j < M -> 0 <= (h + j) mod M < M.
Proof. intros. apply Z.mod_pos_bound. lia. Qed.

(** Removes each [wrap] whose argument is seen to be in range. *)
Ltac unwrap :=
  repeat match goal with
         | |- context [wrap ?e] => rewrite (wrap_small e) by lia
         end.

Ltac unwrap_in H :=
  repeat match type of H with
         | context [wrap ?e] => rewrite (wrap_small e) in H by lia
         end.

(** ** Arrays *)

Lemma upd_length {A : Type} (l : list A) (n : nat) (x : A) :
  length (upd l n x) = length l.
Proof.
  revert n. induction l as [|y l IH]; intros [|n]; simpl; auto.
Qed.

Lemma nth_error_upd_same {A : Type} (l : list A) (n : nat) (x : A) :
  (n < length l)%nat -> nth_error (upd l n x) n = Some x.
Proof.
  revert n. induction l as [|y l IH]; intros [|n] H; simpl in *; try lia; auto.
  apply IH. lia.
Qed.

Lemma nth_error_upd_other {A : Type} (l : list A) (n m : nat) (x : A) :
  n <> m -> nth_error (upd l n x) m = nth_error l m.
Proof.
  revert n m. induction l as [|y l IH]; intros [|n] [|m] H; simpl; auto;
    try congruence.
Qed.

Lemma upd_snoc {A : Type} (l : list A) (y x : A) :
  upd (l ++ [y]) (length l) x = l ++ [x].
Proof. induction l as [|z l IH]; simpl; congruence. Qed.

Lemma in_bounds_true {A : Type} (l : list A) (i : Z) :
  0 <= i < Z.of_nat (length l) -> in_bounds l i = true.
Proof.
  intros H. unfold in_bounds.
  apply andb_true_intro. split; [apply Z.leb_le | apply Z.ltb_lt]; lia.
Qed.

Lemma in_bounds_false {A : Type} (l : list A) (i : Z) :
  ~ (0 <= i < Z.of_nat (length l)) -> in_bounds l i = false.
Proof.
  intros H. unfold in_bounds.
  destruct (0 <=? i) eqn:E1; simpl; auto.
  apply Z.ltb_ge. apply Z.leb_le in E1. lia.
Qed.

Lemma aset_ok {A : Type} (l : list A) (i : Z) (x : A) :
  0 <= i < Z.of_nat (length l) -> aset l i x = Ok (upd l (Z.to_nat i) x).
Proof. intros H. unfold aset. now rewrite in_bounds_true. Qed.

Lemma aset_oob {A : Type} (l : list A) (i : Z) (x : A) :
  ~ (0 <= i < Z.of_nat (length l)) -> aset l i x = UB OutOfBounds.
Proof. intros H. unfold aset. now rewrite in_bounds_false. Qed.

Lemma aget_ok {A : Type} (l : list A) (i : Z) (x : A) :
  0 <= i -> nth_error l (Z.to_nat i) = Some x -> aget l i = Ok x.
Proof.
  intros Hi H. unfold aget.
  rewrite in_bounds_true, H; auto.
  split; auto.
  assert (Z.to_nat i < length l)%nat by (apply nth_error_Some; congruence).
  lia.
Qed.

Lemma bind_ok {A B : Type} (m : res A) (k : A -> res B) (b : B) :
  bind m k = Ok b -> exists a, m = Ok a /\ k a = Ok b.
Proof. destruct m as [a|f]; simpl; intros H; [eauto | discriminate]. Qed.

(** ** Blocks *)

Section BlockFacts.
Variable C : Z.
Hypothesis C_pos : 0 < C.
Hypothesis C_small : C < 2 ^ 32.

Lemma make_rep : block_rep C (Block.make C) [] /\ pristine (Block.make C).
Proof.
  unfold block_rep, pristine, Block.make; simpl.
  rewrite repeat_length.
  repeat split; try lia.
Qed.

Lemma pristine_size (b : Block.t) (c : list Z) :
  block_rep C b c -> pristine b -> c = [].
Proof.
  intros (_ & Hs & _) (_ & _ & Hz).
  destruct c; auto. simpl in Hs. lia.
Qed.

(** [Block::PushBack] on a block whose window does not touch the right
    edge. *)
Lemma Block_PushBack_rep (b : Block.t) (c : list Z) (v : Z) :
  block_rep C b c -> synced b \/ pristine b ->
  Block.head_ b + Block.size_ b < C ->
  exists b', Block.PushBack v b = Ok b' /\
             block_rep C b' (c ++ [v]) /\ synced b' /\
             Block.head_ b' = Block.head_ b.
Proof.
  intros (Hlen & Hsz & Hh0 & Hfit & Hcells) Hshape Hroom.
  pose proof size_max_val as SM.
  unfold Block.PushBack.
  destruct ((Block.head_ b =? Block.tail_ b) && (Block.tail_ b =? 0) &&
            (Block.size_ b =? 0)) eqn:Efresh.
  - apply andb_prop in Efresh. destruct Efresh as [E12 E3].
    apply andb_prop in E12. destruct E12 as [E1 E2].
    apply Z.eqb_eq in E1, E2, E3.
    assert (c = []) by (destruct c; auto; simpl in Hsz; lia). subst c.
    rewrite aset_ok by lia. simpl.
    eexists. split; [reflexivity|].
    unfold block_rep, synced; simpl. rewrite upd_length.
    rewrite E2, E3. repeat split; try lia.
    + intros i Hi. assert (i = 0)%nat by lia. subst i.
      replace (Z.to_nat (Block.head_ b) + 0)%nat with (Z.to_nat 0) by lia.
      rewrite nth_error_upd_same; auto. lia.
    + rewrite E1, E2. unwrap. lia.
  - assert (Hsync : synced b).
    { destruct Hshape as [|(P1 & P2 & P3)]; auto.
      rewrite P1, P2, P3 in Efresh. discriminate. }
    unfold synced in Hsync.
    assert (Htl : wrap (Block.tail_ b + 1) = Block.head_ b + Block.size_ b).
    { rewrite Hsync.
      destruct (Z.eq_dec (Block.head_ b + Block.size_ b) 0) as [E|E].
      - rewrite E. rewrite (wrap_below (0 - 1)) by lia.
        rewrite wrap_above; lia.
      - rewrite (wrap_small (Block.head_ b + Block.size_ b - 1)) by lia.
        rewrite wrap_small; lia. }
    rewrite Htl.
    rewrite aset_ok by lia. simpl.
    eexists. split; [reflexivity|].
    unfold block_rep, synced; simpl. rewrite upd_length.
    rewrite length_app; simpl.
    unwrap.
    repeat split; try lia.
    intros i Hi.
    destruct (Nat.eq_dec i (length c)) as [->|Hne].
    * rewrite nth_error_app2 by lia. rewrite Nat.sub_diag. simpl.
      replace (Z.to_nat (Block.head_ b) + length c)%nat
        with (Z.to_nat (Block.head_ b + Block.size_ b)) by lia.
      apply nth_error_upd_same. lia.
    * rewrite nth_error_app1 by lia.
      rewrite nth_error_upd_other by lia.
      apply Hcells. lia.
Qed.

(** [Block::PushFront] on a block in its initial state. *)
Lemma Block_PushFront_pristine (b : Block.t) (v : Z) :
  block_rep C b [] -> pristine b ->
  exists b', Block.PushFront C v b = Ok b' /\
             block_rep C b' [v] /\ synced b' /\ front_ok C b'.
Proof.
  intros (Hlen & Hsz & Hh0 & Hfit & Hcells) (P1 & P2 & P3).
  pose proof size_max_val as SM.
  unfold Block.PushFront. rewrite P1, P2. simpl.
  rewrite (wrap_small (C - 1)) by lia.
  rewrite aset_ok by lia. simpl.
  eexists. split; [reflexivity|].
  unfold block_rep, synced, front_ok; simpl.
  rewrite upd_length, P3. unwrap.
  repeat split; try lia.
  intros i Hi. assert (i = 0)%nat by lia. subst i.
  rewrite Nat.add_0_r. simpl.
  apply nth_error_upd_same. lia.
Qed.

(** [Block::PushFront] on a block whose window starts after offset 0. *)
Lemma Block_PushFront_shifted (b : Block.t) (c : list Z) (v : Z) :
  block_rep C b c -> synced b -> 0 < Block.head_ b ->
  exists b', Block.PushFront C v b = Ok b' /\
             block_rep C b' (v :: c) /\ synced b' /\
             Block.tail_ b' = Block.tail_ b /\
             Block.head_ b' = Block.head_ b - 1.
Proof.
  intros (Hlen & Hsz & Hh0 & Hfit & Hcells) Hsync Hpos.
  pose proof size_max_val as SM.
  unfold Block.PushFront.
  replace (Block.head_ b =? 0) with false by (symmetry; apply Z.eqb_neq; lia).
  rewrite andb_false_r.
  rewrite (wrap_small (Block.head_ b - 1)) by lia.
  rewrite aset_ok by lia. simpl.
  eexists. split; [reflexivity|].
  unfold block_rep, synced in *; simpl.
  rewrite upd_length. unwrap.
  repeat split; try lia.
  - intros i Hi.
    destruct i as [|i].
    + rewrite Nat.add_0_r. simpl. apply nth_error_upd_same. lia.
    + simpl nth_error at 2.
      rewrite nth_error_upd_other by lia.
      replace (Z.to_nat (Block.head_ b - 1) + S i)%nat
        with (Z.to_nat (Block.head_ b) + i)%nat by lia.
      apply Hcells. simpl in Hi. lia.
  - unwrap_in Hsync. lia.
Qed.

(** [Block::PushFront] on an emptied block whose window start is 0:
    [head_] wraps below 0 and the store is outside the array. *)
Lemma Block_PushFront_fault (b : Block.t) (v : Z) :
  block_rep C b [] -> synced b -> Block.head_ b = 0 ->
  Block.PushFront C v b = UB OutOfBounds.
Proof.
  intros (Hlen & Hsz & Hh0 & Hfit & Hcells) Hsync Hz.
  pose proof size_max_val as SM.
  unfold synced in Hsync. simpl in Hsz. rewrite Hz, Hsz in Hsync.
  rewrite (wrap_below (0 + 0 - 1)) in Hsync by lia.
  unfold Block.PushFront. rewrite Hz, Hsync.
  replace (0 =? 0 + 0 - 1 + size_max) with false
    by (symmetry; apply Z.eqb_neq; lia).
  cbn [andb].
  rewrite (wrap_below (0 - 1)) by lia.
  rewrite aset_oob by lia. reflexivity.
Qed.

Lemma Block_PopBack_rep (b : Block.t) (c : list Z) (x : Z) :
  block_rep C b (c ++ [x]) -> synced b ->
  exists b', Block.PopBack b = Ok b' /\
             block_rep C b' c /\ synced b' /\
             Block.head_ b' = Block.head_ b.
Proof.
  intros (Hlen & Hsz & Hh0 & Hfit & Hcells) Hsync.
  pose proof size_max_val as SM.
  rewrite length_app in *; simpl in *.
  unfold synced in Hsync.
  rewrite (wrap_small (Block.head_ b + Block.size_ b - 1)) in Hsync by lia.
  unfold Block.PopBack. rewrite Hsync.
  rewrite aset_ok by lia. simpl.
  eexists. split; [reflexivity|].
  unfold block_rep, synced; simpl.
  rewrite upd_length. unwrap.
  repeat split; try lia.
  - intros i Hi.
    rewrite nth_error_upd_other by lia.
    rewrite Hcells by lia.
    apply nth_error_app1. lia.
  - destruct (Z.eq_dec (Block.head_ b + Block.size_ b - 1) 0) as [E|E].
    + replace (Block.head_ b + Block.size_ b - 1 - 1) with (0 - 1) by lia.
      replace (Block.head_ b + (Block.size_ b - 1) - 1) with (0 - 1) by lia.
      reflexivity.
    + f_equal. lia.
Qed.

(** [Block::PopBack] on an emptied block whose window start is 0. *)
Lemma Block_PopBack_fault (b : Block.t) :
  block_rep C b [] -> back_ok b ->
  Block.PopBack b = UB OutOfBounds.
Proof.
  intros (Hlen & Hsz & Hh0 & Hfit & Hcells) (Hz & Ht).
  pose proof size_max_val as SM.
  simpl in Hsz. rewrite Hsz in Ht.
  rewrite (wrap_below (0 - 1)) in Ht by lia.
  unfold Block.PopBack. rewrite Ht.
  rewrite aset_oob by lia. reflexivity.
Qed.

Lemma Block_PopFront_rep (b : Block.t) (c : list Z) (x : Z) :
  block_rep C b (x :: c) -> synced b ->
  exists b', Block.PopFront b = Ok b' /\
             block_rep C b' c /\ synced b' /\
             Block.tail_ b' = Block.tail_ b /\
             Block.head_ b' = Block.head_ b + 1.
Proof.
  intros (Hlen & Hsz & Hh0 & Hfit & Hcells) Hsync.
  pose proof size_max_val as SM.
  simpl length in *.
  unfold Block.PopFront.
  rewrite aset_ok by lia. simpl.
  eexists. split; [reflexivity|].
  unfold block_rep, synced in *; simpl.
  rewrite upd_length. unwrap.
  repeat split; try lia.
  - intros i Hi.
    rewrite nth_error_upd_other by lia.
    replace (Z.to_nat (Block.head_ b + 1) + i)%nat
      with (Z.to_nat (Block.head_ b) + S i)%nat by lia.
    rewrite Hcells by lia. reflexivity.
  - unwrap_in Hsync.
    destruct (Z.eq_dec (Block.size_ b) 1) as [E|E].
    + rewrite Hsync, E.
      replace (Block.head_ b + 1 + (1 - 1) - 1) with (Block.head_ b + 1 - 1) by lia.
      unwrap. reflexivity.
    + unwrap. lia.
Qed.

(** [Block::PopFront] on an emptied block whose window start is past the
    last cell. *)
Lemma Block_PopFront_fault (b : Block.t) :
  block_rep C b [] -> front_ok C b ->
  Block.PopFront b = UB OutOfBounds.
Proof.
  intros (Hlen & Hsz & Hh0 & Hfit & Hcells) (Hz & Ht).
  simpl in Hsz. rewrite Hsz in Hz.
  unfold Block.PopFront.
  rewrite aset_oob by lia. reflexivity.
Qed.

Lemma Block_Get_rep (b : Block.t) (c : list Z) (i : Z) :
  block_rep C b c -> 0 <= i < Z.of_nat (length c) ->
  Block.Get i b = Ok (nth (Z.to_nat i) c 0).
Proof.
  intros (Hlen & Hsz & Hh0 & Hfit & Hcells) Hi.
  pose proof size_max_val as SM.
  unfold Block.Get. rewrite wrap_small by lia.
  apply aget_ok; [lia|].
  replace (Z.to_nat (Block.head_ b + i))
    with (Z.to_nat (Block.head_ b) + Z.to_nat i)%nat by lia.
  rewrite Hcells by lia.
  apply nth_error_nth'. lia.
Qed.

Lemma front_ok_synced (b : Block.t) : front_ok C b -> synced b.
Proof.
  intros (H1 & H2). pose proof size_max_val as SM.
  unfold synced. rewrite H2.
  replace (Block.head_ b + Block.size_ b - 1) with (C - 1) by lia.
  rewrite wrap_small; lia.
Qed.

Lemma back_ok_synced (b : Block.t) : back_ok b -> synced b.
Proof.
  intros (H1 & H2). unfold synced. rewrite H2, H1. f_equal.
Qed.
End BlockFacts.

(** ** The ring *)

Lemma nth_error_snoc_other {A : Type} (l : list A) (x : A) (j : nat) :
  j <> length l -> nth_error (l ++ [x]) j = nth_error l j.
Proof.
  intros H. destruct (Nat.lt_ge_cases j (length l)) as [Hlt|Hge].
  - apply nth_error_app1. exact Hlt.
  - assert (nth_error l j = None) as -> by (apply nth_error_None; lia).
    apply nth_error_None. rewrite length_app. simpl. lia.
Qed.

Lemma nth_error_snoc_last {A : Type} (l : list A) (x : A) :
  nth_error (l ++ [x]) (length l) = Some x.
Proof.
  rewrite nth_error_app2 by lia. rewrite Nat.sub_diag. reflexivity.
Qed.

Lemma nth_error_removelast {A : Type} (l : list A) (j : nat) :
  (j < length l - 1)%nat -> nth_error (removelast l) j = nth_error l j.
Proof.
  intros H.
  destruct (exists_last (l := l)) as (l' & x & ->).
  { intros ->. simpl in H. lia. }
  rewrite removelast_last. rewrite length_app in H. simpl in H.
  symmetry. apply nth_error_app1. lia.
Qed.

Lemma length_removelast {A : Type} (l : list A) :
  length (removelast l) = (length l - 1)%nat.
Proof.
  destruct l as [|y l]; [reflexivity|].
  destruct (exists_last (l := y :: l)) as (l' & x & E); [discriminate|].
  rewrite E, removelast_last, length_app. simpl. lia.
Qed.

Ltac ring_fields :=
  cbn [CircularBuffer.size_ CircularBuffer.max_size_ CircularBuffer.head_
       CircularBuffer.tail_ CircularBuffer.buffer_ CircularBuffer.with_buffer
       bind] in *.

Section RingFacts.
Variable C : Z.

Lemma ring_block_at (r : CircularBuffer.t) (bs : list Block.t) (j : nat) (b : Block.t) :
  ring_inv r bs -> nth_error bs j = Some b ->
  CircularBuffer.block_at r
    ((CircularBuffer.head_ r + Z.of_nat j) mod CircularBuffer.max_size_ r) = Ok b.
Proof.
  intros (a & Hbuf & Hlen & HM & Hsz & Hn & Hh & Ht & Hslots) Hj.
  assert (j < length bs)%nat by (apply nth_error_Some; congruence).
  unfold CircularBuffer.block_at, CircularBuffer.slot, CircularBuffer.slots.
  rewrite Hbuf. cbn [bind].
  pose proof (ring_pos_range (CircularBuffer.head_ r) (CircularBuffer.max_size_ r)
                             (Z.of_nat j)) as Hr.
  rewrite (aget_ok _ _ (Some b)); [reflexivity | lia |].
  rewrite Hslots by lia. rewrite Nat2Z.id. now rewrite Hj.
Qed.

Lemma ring_head_pos (r : CircularBuffer.t) (bs : list Block.t) :
  ring_inv r bs ->
  (CircularBuffer.head_ r + Z.of_nat 0) mod CircularBuffer.max_size_ r
  = CircularBuffer.head_ r.
Proof.
  intros (a & Hbuf & Hlen & HM & Hsz & Hn & Hh & Ht & Hslots).
  rewrite Z.add_0_r. apply Z.mod_small. lia.
Qed.

Lemma ring_tail_pos (r : CircularBuffer.t) (bs : list Block.t) :
  ring_inv r bs ->
  (CircularBuffer.head_ r + Z.of_nat (length bs - 1)) mod CircularBuffer.max_size_ r
  = CircularBuffer.tail_ r.
Proof.
  intros (a & Hbuf & Hlen & HM & Hsz & Hn & Hh & Ht & Hslots).
  rewrite Ht. f_equal. lia.
Qed.

Lemma ring_head_block (r : CircularBuffer.t) (b : Block.t) (bs : list Block.t) :
  ring_inv r (b :: bs) ->
  CircularBuffer.block_at r (CircularBuffer.head_ r) = Ok b.
Proof.
  intros H. rewrite <- (ring_head_pos r _ H).
  apply (ring_block_at r (b :: bs)); auto.
Qed.

Lemma ring_tail_block (r : CircularBuffer.t) (bs : list Block.t) (b : Block.t) :
  ring_inv r (bs ++ [b]) ->
  CircularBuffer.block_at r (CircularBuffer.tail_ r) = Ok b.
Proof.
  intros H. rewrite <- (ring_tail_pos r _ H).
  apply (ring_block_at r (bs ++ [b])); auto.
  rewrite length_app. simpl.
  replace (length bs + 1 - 1)%nat with (length bs) by lia.
  apply nth_error_snoc_last.
Qed.

(** A member function applied through a pointer to the block at ring
    position [j]. *)
Lemma ring_at_ptr (r : CircularBuffer.t) (bs : list Block.t) (j : nat)
      (b b' : Block.t) (f : Block.t -> res Block.t) :
  ring_inv r bs -> nth_error bs j = Some b -> f b = Ok b' ->
  exists r',
    CircularBuffer.at_ptr r
      (Some ((CircularBuffer.head_ r + Z.of_nat j) mod CircularBuffer.max_size_ r)) f
    = Ok r' /\
    ring_inv r' (upd bs j b') /\
    CircularBuffer.max_size_ r' = CircularBuffer.max_size_ r /\
    CircularBuffer.head_ r' = CircularBuffer.head_ r /\
    CircularBuffer.tail_ r' = CircularBuffer.tail_ r.
Proof.
  intros Hinv Hj Hf.
  unfold CircularBuffer.at_ptr.
  rewrite (ring_block_at r bs j b Hinv Hj). cbn [bind]. rewrite Hf. cbn [bind].
  destruct Hinv as (a & Hbuf & Hlen & HM & Hsz & Hn & Hh & Ht & Hslots).
  assert (Hjn : (j < length bs)%nat) by (apply nth_error_Some; congruence).
  pose proof (ring_pos_range (CircularBuffer.head_ r) (CircularBuffer.max_size_ r)
                             (Z.of_nat j)) as Hr.
  unfold CircularBuffer.set_slot, CircularBuffer.slots. rewrite Hbuf. cbn [bind].
  rewrite aset_ok by lia. cbn [bind].
  eexists. split; [reflexivity|].
  split; [|ring_fields; auto].
  exists (upd a (Z.to_nat ((CircularBuffer.head_ r + Z.of_nat j)
                           mod CircularBuffer.max_size_ r)) (Some b')).
  ring_fields. rewrite !upd_length.
  repeat split; auto; try lia.
  intros k Hk.
  destruct (Z.eq_dec k (Z.of_nat j)) as [->|Hne].
  - rewrite nth_error_upd_same by lia.
    rewrite Nat2Z.id. rewrite nth_error_upd_same by lia. reflexivity.
  - assert ((CircularBuffer.head_ r + Z.of_nat j) mod CircularBuffer.max_size_ r
            <> (CircularBuffer.head_ r + k) mod CircularBuffer.max_size_ r).
    { intros E. apply ring_pos_inj in E; lia. }
    pose proof (ring_pos_range (CircularBuffer.head_ r) (CircularBuffer.max_size_ r) k).
    rewrite nth_error_upd_other by lia.
    rewrite Hslots by lia.
    rewrite nth_error_upd_other by lia. reflexivity.
Qed.

Lemma ring_at_ptr_fault (r : CircularBuffer.t) (bs : list Block.t) (j : nat)
      (b : Block.t) (f : Block.t -> res Block.t) (e : fault) :
  ring_inv r bs -> nth_error bs j = Some b -> f b = UB e ->
  CircularBuffer.at_ptr r
    (Some ((CircularBuffer.head_ r + Z.of_nat j) mod CircularBuffer.max_size_ r)) f
  = UB e.
Proof.
  intros Hinv Hj Hf.
  unfold CircularBuffer.at_ptr.
  rewrite (ring_block_at r bs j b Hinv Hj). cbn [bind]. rewrite Hf. reflexivity.
Qed.

Lemma ring_IsFull (r : CircularBuffer.t) (bs : list Block.t) :
  ring_inv r bs ->
  CircularBuffer.IsFull r = (Z.of_nat (length bs) =? CircularBuffer.max_size_ r).
Proof.
  intros (a & Hbuf & Hlen & HM & Hsz & Hn & Hh & Ht & Hslots).
  unfold CircularBuffer.IsFull. now rewrite Hsz.
Qed.

Lemma ring_AddTailDataBlock (r : CircularBuffer.t) (bs : list Block.t) :
  ring_inv r bs -> Z.of_nat (length bs) < CircularBuffer.max_size_ r ->
  exists r',
    CircularBuffer.AddTailDataBlock C r = Ok r' /\
    ring_inv r' (bs ++ [Block.make C]) /\
    CircularBuffer.max_size_ r' = CircularBuffer.max_size_ r.
Proof.
  intros (a & Hbuf & Hlen & HM & Hsz & Hn & Hh & Ht & Hslots) Hroom.
  set (M := CircularBuffer.max_size_ r) in *.
  set (h := CircularBuffer.head_ r) in *.
  set (n := Z.of_nat (length bs)) in *.
  pose proof size_max_val as SM.
  assert (Htail' : (if CircularBuffer.tail_ r =? wrap (M - 1) then 0
                    else wrap (CircularBuffer.tail_ r + 1)) = (h + n) mod M).
  { rewrite Ht. rewrite (wrap_small (M - 1)) by lia.
    destruct (mod_cases (h + n - 1) M) as [[? E1]|[[? E1]|[? E1]]]; try lia;
    destruct (mod_cases (h + n) M) as [[? E2]|[[? E2]|[? E2]]]; try lia;
    rewrite E1, E2;
    destruct (Z.eqb_spec (h + n - 1) (M - 1)); try lia;
    destruct (Z.eqb_spec (h + n - 1 - M) (M - 1)); try lia;
    rewrite wrap_small; lia. }
  pose proof (ring_pos_range h M n) as Hp.
  unfold CircularBuffer.AddTailDataBlock, CircularBuffer.slots.
  rewrite Hbuf. cbn [bind]. fold M. rewrite Htail'.
  rewrite aset_ok by lia. cbn [bind].
  eexists. split; [reflexivity|]. split; [|reflexivity].
  eexists. ring_fields. split; [reflexivity|].
  rewrite upd_length, length_app. cbn [length]. fold M h.
  rewrite Hsz. rewrite wrap_small by lia.
  repeat split; try lia.
  - f_equal. lia.
  - intros j Hj.
    destruct (Z.eq_dec j n) as [->|Hne].
    + rewrite nth_error_upd_same by lia.
      unfold n. rewrite Nat2Z.id. now rewrite nth_error_snoc_last.
    + assert ((h + n) mod M <> (h + j) mod M).
      { intros E. apply ring_pos_inj in E; lia. }
      pose proof (ring_pos_range h M j).
      rewrite nth_error_upd_other by lia.
      rewrite Hslots by lia.
      rewrite nth_error_snoc_other by lia. reflexivity.
Qed.

Lemma ring_AddHeadDataBlock (r : CircularBuffer.t) (bs : list Block.t) :
  ring_inv r bs -> Z.of_nat (length bs) < CircularBuffer.max_size_ r ->
  exists r',
    CircularBuffer.AddHeadDataBlock C r = Ok r' /\
    ring_inv r' (Block.make C :: bs) /\
    CircularBuffer.max_size_ r' = CircularBuffer.max_size_ r.
Proof.
  intros (a & Hbuf & Hlen & HM & Hsz & Hn & Hh & Ht & Hslots) Hroom.
  set (M := CircularBuffer.max_size_ r) in *.
  set (h := CircularBuffer.head_ r) in *.
  set (n := Z.of_nat (length bs)) in *.
  pose proof size_max_val as SM.
  set (h' := if h =? 0 then wrap (M - 1) else wrap (h - 1)).
  assert (Hh' : 0 <= h' < M /\ (h = 0 /\ h' = M - 1 \/ 0 < h /\ h' = h - 1)).
  { unfold h'. destruct (Z.eqb_spec h 0); rewrite wrap_small; lia. }
  unfold CircularBuffer.AddHeadDataBlock, CircularBuffer.slots.
  rewrite Hbuf. cbn [bind]. fold M h h'.
  rewrite aset_ok by lia. cbn [bind].
  eexists. split; [reflexivity|]. split; [|reflexivity].
  eexists. ring_fields. split; [reflexivity|].
  rewrite upd_length. cbn [length]. fold M h.
  rewrite Hsz. rewrite wrap_small by lia.
  repeat split; try lia.
  - rewrite Ht.
    destruct (mod_cases (h + n - 1) M) as [[? E1]|[[? E1]|[? E1]]]; try lia;
    destruct (mod_cases (h' + Z.of_nat (S (length bs)) - 1) M)
      as [[? E2]|[[? E2]|[? E2]]]; try lia.
  - intros j Hj.
    assert (Hpos : (h' + j) mod M = (h + (j - 1)) mod M).
    { destruct (mod_cases (h' + j) M) as [[? E1]|[[? E1]|[? E1]]]; try lia;
      destruct (mod_cases (h + (j - 1)) M) as [[? E2]|[[? E2]|[? E2]]]; try lia. }
    destruct (Z.eq_dec j 0) as [->|Hne].
    + rewrite Z.add_0_r. rewrite (Z.mod_small h') by lia.
      rewrite nth_error_upd_same by lia. reflexivity.
    + rewrite Hpos.
      pose proof (ring_pos_range h M (j - 1)).
      assert (h' <> (h + (j - 1)) mod M).
      { destruct (mod_cases (h + (j - 1)) M) as [[? E2]|[[? E2]|[? E2]]]; lia. }
      rewrite nth_error_upd_other by lia.
      rewrite Hslots by lia.
      replace (Z.to_nat j) with (S (Z.to_nat (j - 1))) by lia.
      reflexivity.
Qed.

Lemma ring_DeleteDataBlockFromTail (r : CircularBuffer.t) (bs : list Block.t) :
  ring_inv r bs -> (2 <= length bs)%nat ->
  exists r',
    CircularBuffer.DeleteDataBlockFromTail r = Ok r' /\
    ring_inv r' (removelast bs) /\
    CircularBuffer.max_size_ r' = CircularBuffer.max_size_ r.
Proof.
  intros (a & Hbuf & Hlen & HM & Hsz & Hn & Hh & Ht & Hslots) Htwo.
  set (M := CircularBuffer.max_size_ r) in *.
  set (h := CircularBuffer.head_ r) in *.
  set (n := Z.of_nat (length bs)) in *.
  assert (Hn2 : 2 <= n) by lia.
  pose proof size_max_val as SM.
  pose proof (ring_pos_range h M (n - 1)) as Hp.
  replace (h + (n - 1)) with (h + n - 1) in Hp by lia.
  unfold CircularBuffer.DeleteDataBlockFromTail, CircularBuffer.slots.
  rewrite Hbuf. cbn [bind].
  rewrite aset_ok by lia. cbn [bind]. fold M h.
  assert (Hne : CircularBuffer.tail_ r <> h).
  { rewrite Ht. destruct (mod_cases (h + n - 1) M) as [[? E1]|[[? E1]|[? E1]]]; lia. }
  destruct (Z.eqb_spec (CircularBuffer.tail_ r) h) as [|_]; [contradiction|].
  eexists. split; [reflexivity|]. split; [|reflexivity].
  eexists. ring_fields. split; [reflexivity|].
  rewrite upd_length, length_removelast. fold M h.
  rewrite Hsz. rewrite (wrap_small (n - 1)) by lia.
  repeat split; try lia.
  - rewrite Ht. rewrite (wrap_small (M - 1)) by lia.
    destruct (mod_cases (h + n - 1) M) as [[? E1]|[[? E1]|[? E1]]]; try lia;
    destruct (mod_cases (h + Z.of_nat (length bs - 1) - 1) M)
      as [[? E2]|[[? E2]|[? E2]]]; try lia;
    rewrite E1, E2;
    destruct (Z.eqb_spec (h + n - 1) 0); try lia;
    destruct (Z.eqb_spec (h + n - 1 - M) 0); try lia;
    rewrite wrap_small; lia.
  - intros j Hj. rewrite Ht.
    destruct (Z.eq_dec j (n - 1)) as [->|Hnej].
    + replace (h + (n - 1)) with (h + n - 1) by lia.
      rewrite nth_error_upd_same by lia.
      f_equal. symmetry. apply nth_error_None.
      rewrite length_removelast. lia.
    + assert ((h + (n - 1)) mod M <> (h + j) mod M).
      { intros E. apply ring_pos_inj in E; lia. }
      replace (h + n - 1) with (h + (n - 1)) by lia.
      pose proof (ring_pos_range h M j).
      pose proof (ring_pos_range h M (n - 1)).
      rewrite nth_error_upd_other by lia.
      rewrite Hslots by lia. f_equal.
      destruct (Z_lt_dec j (n - 1)).
      * symmetry. apply nth_error_removelast. lia.
      * assert (nth_error bs (Z.to_nat j) = None) as ->
          by (apply nth_error_None; lia).
        symmetry. apply nth_error_None. rewrite length_removelast. lia.
Qed.

Lemma ring_DeleteDataBlockFromHead (r : CircularBuffer.t) (bs : list Block.t) :
  ring_inv r bs -> (2 <= length bs)%nat ->
  exists r',
    CircularBuffer.DeleteDataBlockFromHead r = Ok r' /\
    ring_inv r' (tl bs) /\
    CircularBuffer.max_size_ r' = CircularBuffer.max_size_ r.
Proof.
  intros (a & Hbuf & Hlen & HM & Hsz & Hn & Hh & Ht & Hslots) Htwo.
  set (M := CircularBuffer.max_size_ r) in *.
  set (h := CircularBuffer.head_ r) in *.
  set (n := Z.of_nat (length bs)) in *.
  assert (Hn2 : 2 <= n) by lia.
  pose proof size_max_val as SM.
  unfold CircularBuffer.DeleteDataBlockFromHead, CircularBuffer.slots.
  rewrite Hbuf. cbn [bind].
  rewrite aset_ok by lia. cbn [bind]. fold M h.
  assert (Hne : h <> CircularBuffer.tail_ r).
  { rewrite Ht. destruct (mod_cases (h + n - 1) M) as [[? E1]|[[? E1]|[? E1]]]; lia. }
  destruct (Z.eqb_spec h (CircularBuffer.tail_ r)) as [|_]; [contradiction|].
  set (h' := if h =? wrap (M - 1) then 0 else wrap (h + 1)).
  assert (Hh' : 0 <= h' < M /\ (h = M - 1 /\ h' = 0 \/ h < M - 1 /\ h' = h + 1)).
  { unfold h'. rewrite (wrap_small (M - 1)) by lia.
    destruct (Z.eqb_spec h (M - 1)); [lia|]. rewrite wrap_small; lia. }
  eexists. split; [reflexivity|]. split; [|reflexivity].
  eexists. ring_fields. split; [reflexivity|].
  assert (Hltl : Z.of_nat (length (tl bs)) = n - 1).
  { unfold n. destruct bs as [|b0 bs0]; cbn [tl length] in *; lia. }
  rewrite upd_length. fold M h. rewrite Hltl.
  rewrite Hsz. rewrite (wrap_small (n - 1)) by lia.
  repeat split; try lia.
  - rewrite Ht.
    destruct (mod_cases (h + n - 1) M) as [[? E1]|[[? E1]|[? E1]]]; try lia;
    destruct (mod_cases (h' + (n - 1) - 1) M)
      as [[? E2]|[[? E2]|[? E2]]]; try lia.
  - intros j Hj.
    destruct (Z.eq_dec j (M - 1)) as [->|Hnej].
    + assert ((h' + (M - 1)) mod M = h) as ->.
      { destruct (mod_cases (h' + (M - 1)) M) as [[? E2]|[[? E2]|[? E2]]]; lia. }
      rewrite nth_error_upd_same by lia.
      f_equal. symmetry. apply nth_error_None. lia.
    + assert (Hpos : (h' + j) mod M = (h + (j + 1)) mod M).
      { destruct (mod_cases (h' + j) M) as [[? E1]|[[? E1]|[? E1]]]; try lia;
        destruct (mod_cases (h + (j + 1)) M) as [[? E2]|[[? E2]|[? E2]]]; try lia. }
      rewrite Hpos.
      pose proof (ring_pos_range h M (j + 1)).
      assert (h <> (h + (j + 1)) mod M).
      { destruct (mod_cases (h + (j + 1)) M) as [[? E2]|[[? E2]|[? E2]]]; lia. }
      rewrite nth_error_upd_other by lia.
      rewrite Hslots by lia. f_equal.
      replace (Z.to_nat (j + 1)) with (S (Z.to_nat j)) by lia.
      destruct bs as [|b0 bs0]; [simpl in Htwo; lia | reflexivity].
Qed.

(** The loop of [ExpandBuffer], entered at ring position [c] with [c]
    blocks already moved, moves the blocks up to the one before the tail. *)
Lemma expand_loop_spec (r : CircularBuffer.t) (bs : list Block.t)
      (a : list (option Block.t)) :
  let M := CircularBuffer.max_size_ r in
  let h := CircularBuffer.head_ r in
  let n := Z.of_nat (length bs) in
  0 < M -> 2 * M < size_max -> 0 <= h < M -> 1 <= n <= M ->
  CircularBuffer.tail_ r = (h + n - 1) mod M ->
  forall (m : nat) (c : Z) (old new : list (option Block.t)),
    0 <= c -> c + Z.of_nat m = n - 1 ->
    Z.of_nat (length old) = M -> Z.of_nat (length new) = 2 * M ->
    (forall j, c <= j < M ->
       nth_error old (Z.to_nat ((h + j) mod M)) = Some (nth_error bs (Z.to_nat j))) ->
    (forall k, 0 <= k < 2 * M ->
       nth_error new (Z.to_nat k)
       = Some (if k <? c then nth_error bs (Z.to_nat k) else None)) ->
    exists old' new',
      CircularBuffer.expand_loop (Z.to_nat (2 * M - c)) ((h + c) mod M) c r old new
      = Ok (n - 1, old', new') /\
      Z.of_nat (length old') = M /\ Z.of_nat (length new') = 2 * M /\
      (forall j, n - 1 <= j < M ->
         nth_error old' (Z.to_nat ((h + j) mod M)) = Some (nth_error bs (Z.to_nat j))) /\
      (forall k, 0 <= k < 2 * M ->
         nth_error new' (Z.to_nat k)
         = Some (if k <? n - 1 then nth_error bs (Z.to_nat k) else None)).
Proof.
  intros M h n HM0 HM2 Hh Hn Ht.
  pose proof size_max_val as SM.
  induction m as [|m IH]; intros c old new Hc Hcm Hlo Hln Hold Hnew.
  - assert (c = n - 1) by lia. subst c.
    exists old, new.
    destruct (Z.to_nat (2 * M - (n - 1))); cbn [CircularBuffer.expand_loop];
      fold M h; rewrite Ht;
      replace (h + (n - 1)) with (h + n - 1) by lia;
      rewrite Z.eqb_refl; auto.
  - assert (Hne : (h + c) mod M <> CircularBuffer.tail_ r).
    { rewrite Ht. replace (h + n - 1) with (h + (n - 1)) by lia.
      intros E. apply ring_pos_inj in E; lia. }
    replace (Z.to_nat (2 * M - c)) with (S (Z.to_nat (2 * M - (c + 1)))) by lia.
    cbn [CircularBuffer.expand_loop].
    destruct (Z.eqb_spec ((h + c) mod M) (CircularBuffer.tail_ r)) as [|_];
      [contradiction|].
    pose proof (ring_pos_range h M c) as Hp.
    rewrite (aget_ok old _ (nth_error bs (Z.to_nat c))); [| lia | apply Hold; lia].
    cbn [bind].
    rewrite aset_ok by lia. cbn [bind].
    rewrite aset_ok by lia. cbn [bind].
    rewrite (wrap_small ((h + c) mod M + 1)) by lia.
    unfold CircularBuffer.umod. fold M.
    destruct (Z.eqb_spec M 0) as [|_]; [lia|]. cbn [bind].
    rewrite Z.add_mod_idemp_l by lia.
    rewrite (wrap_small (c + 1)) by lia.
    replace (h + c + 1) with (h + (c + 1)) by lia.
    apply IH; try lia.
    + now rewrite upd_length.
    + now rewrite upd_length.
    + intros j Hj.
      assert ((h + c) mod M <> (h + j) mod M).
      { intros E. apply ring_pos_inj in E; lia. }
      pose proof (ring_pos_range h M j).
      rewrite nth_error_upd_other by lia.
      apply Hold. lia.
    + intros k Hk.
      destruct (Z.eq_dec k c) as [->|Hkc].
      * rewrite nth_error_upd_same by lia.
        destruct (Z.ltb_spec c (c + 1)); [reflexivity | lia].
      * rewrite nth_error_upd_other by lia.
        rewrite Hnew by lia.
        destruct (Z.ltb_spec k c); destruct (Z.ltb_spec k (c + 1)); auto; lia.
Qed.

Lemma ring_ExpandBuffer (r : CircularBuffer.t) (bs : list Block.t) :
  ring_inv r bs -> 2 * CircularBuffer.max_size_ r < size_max ->
  exists r',
    CircularBuffer.ExpandBuffer r = Ok r' /\
    ring_inv r' bs /\
    CircularBuffer.max_size_ r' = 2 * CircularBuffer.max_size_ r.
Proof.
  intros (a & Hbuf & Hlen & HM & Hsz & Hn & Hh & Ht & Hslots) H2M.
  set (M := CircularBuffer.max_size_ r) in *.
  set (h := CircularBuffer.head_ r) in *.
  set (n := Z.of_nat (length bs)) in *.
  pose proof size_max_val as SM.
  unfold CircularBuffer.ExpandBuffer, CircularBuffer.slots.
  rewrite Hbuf. cbn [bind]. fold M h.
  rewrite (wrap_small (M * 2)) by lia.
  unfold CircularBuffer.new_array. rewrite repeat_length.
  destruct (expand_loop_spec r bs a) with (m := Z.to_nat (n - 1)) (c := 0)
    (old := a) (new := repeat (@None Block.t) (Z.to_nat (M * 2)))
    as (old' & new' & Hloop & Hlo & Hln & Hold & Hnew); fold M h n; try lia.
  - rewrite repeat_length. lia.
  - intros j Hj. apply Hslots. lia.
  - intros k Hk.
    destruct (Z.ltb_spec k 0); [lia|].
    rewrite nth_error_repeat; [reflexivity | lia].
  - fold M h n in Hloop.
    rewrite Z.add_0_r in Hloop. rewrite (Z.mod_small h) in Hloop by lia.
    replace (Z.to_nat (2 * M - 0)) with (Z.to_nat (M * 2)) in Hloop by lia.
    fold M h n in Hlo, Hln, Hold, Hnew.
    rewrite Hloop. cbn [bind].
    pose proof (ring_pos_range h M (n - 1)) as Hp.
    rewrite (aget_ok old' _ (nth_error bs (Z.to_nat (n - 1)))).
    2: { rewrite Ht. replace (h + n - 1) with (h + (n - 1)) by lia. lia. }
    2: { rewrite Ht. replace (h + n - 1) with (h + (n - 1)) by lia.
         apply Hold. lia. }
    cbn [bind].
    rewrite aset_ok by lia. cbn [bind].
    eexists. split; [reflexivity|]. split; [|ring_fields; lia].
    eexists. ring_fields. split; [reflexivity|].
    rewrite upd_length. fold n.
    rewrite Hsz. rewrite (wrap_small (n - 1)) by lia.
    repeat split; try lia.
    + rewrite Z.add_0_l. symmetry. apply Z.mod_small. lia.
    + intros j Hj. rewrite Z.add_0_l. rewrite Z.mod_small by lia.
      destruct (Z.eq_dec j (n - 1)) as [->|Hne].
      * rewrite nth_error_upd_same by lia. reflexivity.
      * rewrite nth_error_upd_other by lia.
        rewrite Hnew by lia.
        destruct (Z.ltb_spec j (n - 1)); [reflexivity|].
        f_equal. symmetry. apply nth_error_None. lia.
Qed.

Lemma ring_GetTailDataBlock (r : CircularBuffer.t) (bs : list Block.t) :
  ring_inv r bs ->
  CircularBuffer.GetTailDataBlock C r = Ok (r, Some (CircularBuffer.tail_ r)).
Proof.
  intros Hinv.
  destruct (exists_last (l := bs)) as (bs' & b & ->).
  { destruct Hinv as (a & _ & _ & _ & _ & Hn & _). intros ->. simpl in Hn. lia. }
  pose proof (ring_tail_block r bs' b Hinv) as Hb.
  unfold CircularBuffer.GetTailDataBlock.
  unfold CircularBuffer.block_at in Hb.
  destruct (CircularBuffer.slot r (CircularBuffer.tail_ r)) as [[b0|]|e];
    cbn [bind CircularBuffer.deref] in *; congruence.
Qed.

Lemma ring_GetHeadDataBlock (r : CircularBuffer.t) (bs : list Block.t) :
  ring_inv r bs ->
  CircularBuffer.GetHeadDataBlock r = Ok (Some (CircularBuffer.head_ r)).
Proof.
  intros Hinv.
  destruct bs as [|b bs'].
  { destruct Hinv as (a & _ & _ & _ & _ & Hn & _). simpl in Hn. lia. }
  pose proof (ring_head_block r b bs' Hinv) as Hb.
  unfold CircularBuffer.GetHeadDataBlock.
  unfold CircularBuffer.block_at in Hb.
  destruct (CircularBuffer.slot r (CircularBuffer.head_ r)) as [[b0|]|e];
    cbn [bind CircularBuffer.deref] in *; congruence.
Qed.

(** [IsEmpty] looks at slot 0, which holds the only block of a ring of one
    block just when [head_] is 0. *)
Lemma ring_IsEmpty_one (r : CircularBuffer.t) (b : Block.t) :
  ring_inv r [b] ->
  (CircularBuffer.head_ r = 0 /\ CircularBuffer.IsEmpty r = Ok (Block.IsEmpty b)) \/
  (CircularBuffer.head_ r <> 0 /\ CircularBuffer.IsEmpty r = UB NullDeref).
Proof.
  intros Hinv.
  pose proof (ring_head_block r b [] Hinv) as Hb.
  destruct Hinv as (a & Hbuf & Hlen & HM & Hsz & Hn & Hh & Ht & Hslots).
  unfold CircularBuffer.IsEmpty. rewrite Hsz. cbn [length Z.of_nat Pos.of_succ_nat].
  cbn [Z.eqb Pos.eqb].
  destruct (Z.eq_dec (CircularBuffer.head_ r) 0) as [E|E].
  - left. split; auto. rewrite E in Hb. rewrite Hb. reflexivity.
  - right. split; auto.
    set (M := CircularBuffer.max_size_ r) in *.
    set (h := CircularBuffer.head_ r) in *.
    specialize (Hslots (M - h)).
    assert ((h + (M - h)) mod M = 0) as E0.
    { replace (h + (M - h)) with M by lia. apply Z.mod_same. lia. }
    rewrite E0 in Hslots.
    unfold CircularBuffer.block_at, CircularBuffer.slot, CircularBuffer.slots.
    rewrite Hbuf. cbn [bind].
    rewrite (aget_ok a 0 None); [reflexivity | lia |].
    rewrite Hslots by lia.
    f_equal. apply nth_error_None. simpl. lia.
Qed.

Lemma ring_IsEmpty_many (r : CircularBuffer.t) (bs : list Block.t) :
  ring_inv r bs -> (2 <= length bs)%nat ->
  CircularBuffer.IsEmpty r = Ok false.
Proof.
  intros (a & Hbuf & Hlen & HM & Hsz & Hn & Hh & Ht & Hslots) H2.
  unfold CircularBuffer.IsEmpty. rewrite Hsz.
  destruct (Z.eqb_spec (Z.of_nat (length bs)) 1); [lia | reflexivity].
Qed.
End RingFacts.

(** ** The layout of the blocks *)

Section LayoutFacts.
Variable C : Z.
Hypothesis C_pos : 0 < C.
Hypothesis C_small : C < 2 ^ 32.

Lemma layout_as_snoc (bs : list Block.t) (cs : list (list Z)) :
  layout C bs cs ->
  exists bs0 t cs0 ct, bs = bs0 ++ [t] /\ cs = cs0 ++ [ct].
Proof.
  intros H. inversion H; subst.
  - exists [], b, [], c. auto.
  - exists (h :: mids), t, (ch :: cms), ct. auto.
Qed.

Lemma layout_as_cons (bs : list Block.t) (cs : list (list Z)) :
  layout C bs cs ->
  exists h bs1 ch cs1, bs = h :: bs1 /\ cs = ch :: cs1.
Proof.
  intros H. inversion H; subst; eauto 8.
Qed.

Lemma layout_tail_cases (bs0 : list Block.t) (t : Block.t)
      (cs0 : list (list Z)) (ct : list Z) :
  layout C (bs0 ++ [t]) (cs0 ++ [ct]) ->
  (bs0 = [] /\ cs0 = [] /\ block_rep C t ct /\ (synced t \/ pristine t)) \/
  (exists h ch mids cms,
      bs0 = h :: mids /\ cs0 = ch :: cms /\
      block_rep C h ch /\ front_ok C h /\ Forall2 (inner_ok C) mids cms /\
      block_rep C t ct /\ back_ok t).
Proof.
  intros H. inversion H as [b c Hb Hs Eb Ec | h ch mids cms t0 ct0 Hh Hf Hm Ht Hk Eb Ec].
  - change [b] with ([] ++ [b]) in Eb. change [c] with ([] ++ [c]) in Ec.
    apply app_inj_tail in Eb, Ec. destruct Eb as [<- ->], Ec as [<- ->].
    left. auto.
  - change (h :: mids ++ [t0]) with ((h :: mids) ++ [t0]) in Eb.
    change (ch :: cms ++ [ct0]) with ((ch :: cms) ++ [ct0]) in Ec.
    apply app_inj_tail in Eb, Ec. destruct Eb as [<- ->], Ec as [<- ->].
    right. exists h, ch, mids, cms. auto 10.
Qed.

Lemma layout_head_cases (h : Block.t) (bs1 : list Block.t)
      (ch : list Z) (cs1 : list (list Z)) :
  layout C (h :: bs1) (ch :: cs1) ->
  (bs1 = [] /\ cs1 = [] /\ block_rep C h ch /\ (synced h \/ pristine h)) \/
  (exists mids cms t ct,
      bs1 = mids ++ [t] /\ cs1 = cms ++ [ct] /\
      block_rep C h ch /\ front_ok C h /\ Forall2 (inner_ok C) mids cms /\
      block_rep C t ct /\ back_ok t).
Proof.
  intros H. inversion H; subst.
  - left. auto.
  - right. exists mids, cms, t, ct. auto 10.
Qed.

(** The tail block is replaced by one with the same window start. *)
Lemma layout_set_tail (bs0 : list Block.t) (t t' : Block.t)
      (cs0 : list (list Z)) (ct ct' : list Z) :
  layout C (bs0 ++ [t]) (cs0 ++ [ct]) ->
  block_rep C t' ct' -> synced t' -> Block.head_ t' = Block.head_ t ->
  layout C (bs0 ++ [t']) (cs0 ++ [ct']).
Proof.
  intros H Hrep Hsync Hhead.
  apply layout_tail_cases in H.
  destruct H as [(-> & -> & _ & _) | (h & ch & mids & cms & -> & -> & Hh & Hf & Hm & _ & Hb)].
  - apply layout_one; auto.
  - apply layout_many; auto.
    destruct Hb as [Hb0 _]. unfold back_ok. unfold synced in Hsync.
    rewrite Hhead, Hb0 in *. split; auto.
Qed.

(** A new tail block comes after a tail block whose window touches the
    right edge. *)
Lemma layout_add_tail (bs0 : list Block.t) (t t' : Block.t)
      (cs0 : list (list Z)) (ct ct' : list Z) :
  layout C (bs0 ++ [t]) (cs0 ++ [ct]) ->
  C <= Block.head_ t + Block.size_ t ->
  block_rep C t' ct' -> back_ok t' ->
  layout C ((bs0 ++ [t]) ++ [t']) ((cs0 ++ [ct]) ++ [ct']).
Proof.
  intros H Hclose Hrep Hback.
  pose proof size_max_val as SM.
  apply layout_tail_cases in H.
  destruct H as [(-> & -> & Ht & Hs) | (h & ch & mids & cms & -> & -> & Hh & Hf & Hm & Ht & Hb)].
  - apply (layout_many C t ct [] [] t' ct'); auto.
    pose proof Ht as (_ & Hsz & _ & Hfit & _).
    destruct Hs as [Hs | (P1 & _ & P3)]; [|lia].
    unfold front_ok, synced in *. split; [lia|].
    rewrite Hs. replace (Block.head_ t + Block.size_ t - 1) with (C - 1) by lia.
    apply wrap_small. lia.
  - replace (((h :: mids) ++ [t]) ++ [t']) with (h :: (mids ++ [t]) ++ [t'])
      by (simpl; now rewrite <- app_assoc).
    replace (((ch :: cms) ++ [ct]) ++ [ct']) with (ch :: (cms ++ [ct]) ++ [ct'])
      by (simpl; now rewrite <- app_assoc).
    apply layout_many; auto.
    apply Forall2_app; auto.
    constructor; [|constructor].
    pose proof Ht as (_ & Hsz & _ & Hfit & _).
    destruct Hb as [Hb0 Hb1].
    unfold inner_ok, front_ok, back_ok.
    split; [exact Ht|]. split; [|split; auto].
    split; [lia|].
    rewrite Hb1. replace (Block.size_ t - 1) with (C - 1) by lia.
    apply wrap_small. lia.
Qed.

Lemma layout_drop_tail (bs0 : list Block.t) (t : Block.t)
      (cs0 : list (list Z)) (ct : list Z) :
  layout C (bs0 ++ [t]) (cs0 ++ [ct]) -> bs0 <> [] ->
  layout C bs0 cs0.
Proof.
  intros H Hne.
  apply layout_tail_cases in H.
  destruct H as [(-> & _) | (h & ch & mids & cms & -> & -> & Hh & Hf & Hm & Ht & Hb)];
    [congruence|].
  destruct (Forall2_length Hm).
  destruct mids as [|m0 mids0] using rev_ind.
  - inversion Hm; subst. apply layout_one; auto.
    left. now apply front_ok_synced with (C := C).
  - destruct cms as [|cm0 cms0] using rev_ind.
    { apply Forall2_length in Hm. rewrite length_app in Hm. simpl in Hm. lia. }
    apply Forall2_app_inv_l in Hm.
    destruct Hm as (l1 & l2 & H1 & H2 & E).
    inversion H2 as [|? cm ? ? Him Hnil]; subst. inversion Hnil; subst.
    apply app_inj_tail in E. destruct E as [<- <-].
    destruct Him as (Hr & _ & Hbk).
    apply layout_many; auto.
Qed.

(** The head block is replaced by one with the same window end. *)
Lemma layout_set_head (h h' : Block.t) (bs1 : list Block.t)
      (ch ch' : list Z) (cs1 : list (list Z)) :
  layout C (h :: bs1) (ch :: cs1) ->
  block_rep C h' ch' -> synced h' ->
  Block.tail_ h' = Block.tail_ h ->
  Block.head_ h' + Block.size_ h' = Block.head_ h + Block.size_ h ->
  layout C (h' :: bs1) (ch' :: cs1).
Proof.
  intros H Hrep Hsync Htail Hend.
  apply layout_head_cases in H.
  destruct H as [(-> & -> & _ & _) | (mids & cms & t & ct & -> & -> & Hh & Hf & Hm & Ht & Hb)].
  - apply layout_one; auto.
  - apply layout_many; auto.
    destruct Hf as [Hf0 Hf1]. unfold front_ok. split; congruence.
Qed.

(** A new head block comes before a head block whose window starts at
    offset 0. *)
Lemma layout_add_head (h h' : Block.t) (bs1 : list Block.t)
      (ch ch' : list Z) (cs1 : list (list Z)) :
  layout C (h :: bs1) (ch :: cs1) ->
  Block.head_ h = 0 -> synced h ->
  block_rep C h' ch' -> front_ok C h' ->
  layout C (h' :: h :: bs1) (ch' :: ch :: cs1).
Proof.
  intros H Hzero Hsync Hrep Hfront.
  pose proof size_max_val as SM.
  apply layout_head_cases in H.
  destruct H as [(-> & -> & Hh & _) | (mids & cms & t & ct & -> & -> & Hh & Hf & Hm & Ht & Hb)].
  - apply (layout_many C h' ch' [] [] h ch); auto.
    unfold back_ok. split; auto.
    unfold synced in Hsync. rewrite Hsync, Hzero. f_equal.
  - change (h' :: h :: mids ++ [t]) with (h' :: (h :: mids) ++ [t]).
    change (ch' :: ch :: cms ++ [ct]) with (ch' :: (ch :: cms) ++ [ct]).
    apply layout_many; auto.
    constructor; auto.
    unfold inner_ok, back_ok.
    split; [exact Hh|]. split; [exact Hf|]. split; [exact Hzero|].
    destruct Hf as [Hf0 Hf1].
    rewrite Hf1. replace (Block.size_ h - 1) with (C - 1) by lia.
    symmetry. apply wrap_small. lia.
Qed.

Lemma layout_drop_head (h : Block.t) (bs1 : list Block.t)
      (ch : list Z) (cs1 : list (list Z)) :
  layout C (h :: bs1) (ch :: cs1) -> bs1 <> [] ->
  layout C bs1 cs1.
Proof.
  intros H Hne.
  apply layout_head_cases in H.
  destruct H as [(-> & _) | (mids & cms & t & ct & -> & -> & Hh & Hf & Hm & Ht & Hb)];
    [congruence|].
  inversion Hm as [|m cm mids' cms' (Hr & Hfr & _) Hrest]; subst.
  - apply layout_one; auto. left. now apply back_ok_synced.
  - apply layout_many; auto.
Qed.

Lemma inner_length (mids : list Block.t) (cms : list (list Z)) :
  Forall2 (inner_ok C) mids cms ->
  Z.of_nat (length (concat cms)) = C * Z.of_nat (length mids).
Proof.
  induction 1 as [|m cm mids cms (Hr & Hf & Hb) _ IH]; [simpl; lia|].
  destruct Hr as (_ & Hsz & _). destruct Hf as [Hf _]. destruct Hb as [Hb _].
  cbn [concat length]. rewrite length_app. lia.
Qed.

(** The blocks needed for the elements held. *)
Lemma layout_count (bs : list Block.t) (cs : list (list Z)) :
  layout C bs cs ->
  C * (Z.of_nat (length bs) - 2) <= Z.of_nat (length (concat cs)).
Proof.
  intros H. inversion H; subst.
  - simpl. nia.
  - cbn [concat length]. rewrite concat_app, !length_app.
    pose proof (inner_length _ _ H2).
    cbn [length]. nia.
Qed.
End LayoutFacts.

(** ** Block operations through the ring *)

Lemma ring_at_tail (r : CircularBuffer.t) (bs : list Block.t) (b b' : Block.t)
      (f : Block.t -> res Block.t) :
  ring_inv r (bs ++ [b]) -> f b = Ok b' ->
  exists r',
    CircularBuffer.at_ptr r (Some (CircularBuffer.tail_ r)) f = Ok r' /\
    ring_inv r' (bs ++ [b']) /\
    CircularBuffer.max_size_ r' = CircularBuffer.max_size_ r /\
    CircularBuffer.tail_ r' = CircularBuffer.tail_ r.
Proof.
  intros Hinv Hf.
  pose proof (ring_tail_pos r _ Hinv) as Hpos.
  rewrite length_app in Hpos. cbn [length] in Hpos.
  replace (length bs + 1 - 1)%nat with (length bs) in Hpos by lia.
  destruct (ring_at_ptr r (bs ++ [b]) (length bs) b b' f Hinv)
    as (r' & E & Hr' & HM & _ & Htl);
    auto using nth_error_snoc_last.
  rewrite Hpos in E.
  exists r'. rewrite upd_snoc in Hr'. auto.
Qed.

Lemma ring_at_tail_fault (r : CircularBuffer.t) (bs : list Block.t) (b : Block.t)
      (f : Block.t -> res Block.t) (e : fault) :
  ring_inv r (bs ++ [b]) -> f b = UB e ->
  CircularBuffer.at_ptr r (Some (CircularBuffer.tail_ r)) f = UB e.
Proof.
  intros Hinv Hf.
  rewrite <- (ring_tail_pos r _ Hinv).
  rewrite length_app. cbn [length].
  replace (length bs + 1 - 1)%nat with (length bs) by lia.
  apply (ring_at_ptr_fault r (bs ++ [b]) (length bs) b f e Hinv);
    auto using nth_error_snoc_last.
Qed.

Lemma ring_at_head (r : CircularBuffer.t) (bs : list Block.t) (b b' : Block.t)
      (f : Block.t -> res Block.t) :
  ring_inv r (b :: bs) -> f b = Ok b' ->
  exists r',
    CircularBuffer.at_ptr r (Some (CircularBuffer.head_ r)) f = Ok r' /\
    ring_inv r' (b' :: bs) /\
    CircularBuffer.max_size_ r' = CircularBuffer.max_size_ r /\
    CircularBuffer.head_ r' = CircularBuffer.head_ r.
Proof.
  intros Hinv Hf.
  destruct (ring_at_ptr r (b :: bs) 0 b b' f Hinv)
    as (r' & E & Hr' & HM & Hhd & _); auto.
  rewrite (ring_head_pos r _ Hinv) in E.
  exists r'. auto.
Qed.

Lemma ring_at_head_fault (r : CircularBuffer.t) (bs : list Block.t) (b : Block.t)
      (f : Block.t -> res Block.t) (e : fault) :
  ring_inv r (b :: bs) -> f b = UB e ->
  CircularBuffer.at_ptr r (Some (CircularBuffer.head_ r)) f = UB e.
Proof.
  intros Hinv Hf.
  rewrite <- (ring_head_pos r _ Hinv).
  apply (ring_at_ptr_fault r (b :: bs) 0 b f e Hinv); auto.
Qed.

Lemma ring_length (r : CircularBuffer.t) (bs : list Block.t) :
  ring_inv r bs ->
  1 <= Z.of_nat (length bs) <= CircularBuffer.max_size_ r.
Proof. intros (a & _ & _ & _ & _ & Hn & _). exact Hn. Qed.

(** ** Predicates of a block in terms of its contents *)

Section BlockPredicates.
Variable C : Z.
Hypothesis C_pos : 0 < C.
Hypothesis C_small : C < 2 ^ 32.

Lemma IsFull_rep (b : Block.t) (c : list Z) :
  block_rep C b c -> Block.IsFull C b = (Z.of_nat (length c) =? C).
Proof. intros (_ & Hsz & _). unfold Block.IsFull. now rewrite Hsz. Qed.

Lemma IsEmpty_rep (b : Block.t) (c : list Z) :
  block_rep C b c -> Block.IsEmpty b = (Z.of_nat (length c) =? 0).
Proof. intros (_ & Hsz & _). unfold Block.IsEmpty. now rewrite Hsz. Qed.

Lemma IsRightClose_rep (b : Block.t) (c : list Z) :
  block_rep C b c ->
  Block.IsRightClose C b = (C <=? Block.head_ b + Z.of_nat (length c)).
Proof.
  intros (_ & Hsz & Hh & Hfit & _). pose proof size_max_val as SM.
  unfold Block.IsRightClose. rewrite Hsz.
  rewrite wrap_small by lia. apply Z.geb_leb.
Qed.

Lemma layout_tail_block (bs0 : list Block.t) (t : Block.t)
      (cs0 : list (list Z)) (ct : list Z) :
  layout C (bs0 ++ [t]) (cs0 ++ [ct]) ->
  block_rep C t ct /\ (synced t \/ pristine t) /\
  (bs0 <> [] -> back_ok t) /\ (bs0 = [] -> cs0 = []).
Proof.
  intros H. apply layout_tail_cases in H.
  destruct H as [(-> & -> & Ht & Hs) | (h & ch & mids & cms & -> & -> & _ & _ & _ & Ht & Hb)].
  - split; [exact Ht|]. split; [exact Hs|]. split; [congruence | reflexivity].
  - split; [exact Ht|]. split; [left; now apply back_ok_synced|].
    split; [auto | discriminate].
Qed.

Lemma layout_head_block (h : Block.t) (bs1 : list Block.t)
      (ch : list Z) (cs1 : list (list Z)) :
  layout C (h :: bs1) (ch :: cs1) ->
  block_rep C h ch /\ (synced h \/ pristine h) /\
  (bs1 <> [] -> front_ok C h) /\ (bs1 = [] -> cs1 = []).
Proof.
  intros H. apply layout_head_cases in H.
  destruct H as [(-> & -> & Ht & Hs) | (mids & cms & t & ct & -> & -> & Hh & Hf & _)].
  - split; [exact Ht|]. split; [exact Hs|]. split; [congruence | reflexivity].
  - split; [exact Hh|]. split; [left; now apply front_ok_synced with (C := C)|].
    split; [auto|]. intros E. destruct mids; discriminate.
Qed.
End BlockPredicates.

(** ** The four operations preserve the representation *)

Lemma BS_val : Deque.BS = 128.
Proof. reflexivity. Qed.

Lemma BS_pos : 0 < Deque.BS.
Proof. reflexivity. Qed.

Lemma BS_small : Deque.BS < 2 ^ 32.
Proof. reflexivity. Qed.

Lemma concat_snoc_app (cs : list (list Z)) (c : list Z) (x : Z) :
  concat (cs ++ [c ++ [x]]) = concat (cs ++ [c]) ++ [x].
Proof.
  rewrite !concat_app. simpl. rewrite !app_nil_r. apply app_assoc.
Qed.

Lemma concat_snoc_new (cs : list (list Z)) (x : Z) :
  concat (cs ++ [[x]]) = concat cs ++ [x].
Proof. rewrite concat_app. simpl. reflexivity. Qed.

Lemma concat_snoc_nil (cs : list (list Z)) :
  concat (cs ++ [[]]) = concat cs.
Proof. rewrite concat_app. simpl. apply app_nil_r. Qed.

(** The first step of [PushBack] and of [PushFront]: the ring is doubled
    when it is full and the end block is full. *)
Lemma grow_step (d : Deque.t) (bs : list Block.t) (cs : list (list Z))
      (full : res bool) (e : Block.t) :
  let r := Deque.data_proxy_ d in
  ring_inv r bs -> layout Deque.BS bs cs ->
  Z.of_nat (length (concat cs)) < size_max ->
  2 <= CircularBuffer.max_size_ r <= 2 ^ 59 ->
  full = Ok (Block.IsFull Deque.BS e) ->
  exists r1,
    (if CircularBuffer.IsFull r then
       f <- full ;; if f then CircularBuffer.ExpandBuffer r else Ok r
     else Ok r) = Ok r1 /\
    ring_inv r1 bs /\
    2 <= CircularBuffer.max_size_ r1 <= 2 ^ 59 /\
    (Block.IsFull Deque.BS e = true ->
     Z.of_nat (length bs) < CircularBuffer.max_size_ r1).
Proof.
  intros r Hring Hlay Hcount HM Hfull.
  pose proof size_max_val as SM.
  pose proof (layout_count _ BS_pos _ _ Hlay) as Hcnt. rewrite BS_val in Hcnt.
  pose proof (ring_length _ _ Hring) as Hn.
  rewrite (ring_IsFull r bs Hring).
  destruct (Z.eqb_spec (Z.of_nat (length bs)) (CircularBuffer.max_size_ r)) as [E|E].
  - rewrite Hfull. cbn [bind].
    destruct (Block.IsFull Deque.BS e) eqn:Ee.
    + destruct (ring_ExpandBuffer r bs Hring) as (r1 & E1 & Hr1 & HM1); [lia|].
      exists r1. rewrite HM1. repeat split; auto; lia.
    + exists r. repeat split; auto; try lia; try discriminate.
  - exists r. repeat split; auto; lia.
Qed.

Lemma PushBack_inv (d d' : Deque.t) (l : list Z) (v : Z) :
  deque_inv d l -> Z.of_nat (length l) + 1 < size_max ->
  Deque.PushBack v d = Ok d' ->
  deque_inv d' (l ++ [v]).
Proof.
  intros (bs & cs & Hring & Hlay & Hl & Hsz & HM) Hbound Hrun.
  pose proof size_max_val as SM.
  pose proof BS_pos as HC0. pose proof BS_small as HC1.
  destruct (layout_as_snoc _ _ _ Hlay) as (bs0 & t & cs0 & ct & -> & ->).
  destruct (layout_tail_block _ _ _ _ _ Hlay) as (Ht & Hshape & Hback & Hnil).
  assert (Hcount : Z.of_nat (length (concat (cs0 ++ [ct]))) < size_max)
    by (rewrite <- Hl; lia).
  unfold Deque.PushBack in Hrun.
  destruct (grow_step d _ _ (CircularBuffer.IsTailDataBlockFull Deque.BS (Deque.data_proxy_ d)) t
                      Hring Hlay Hcount HM) as (r1 & E1 & Hr1 & HM1 & Hroom).
  { unfold CircularBuffer.IsTailDataBlockFull.
    now rewrite (ring_tail_block _ _ _ Hring). }
  rewrite E1 in Hrun. cbn [bind] in Hrun. clear E1.
  unfold CircularBuffer.IsTailDataBlockFull, CircularBuffer.TailIsUsedHead in Hrun.
  rewrite (ring_tail_block _ _ _ Hr1) in Hrun. cbn [bind] in Hrun.
  rewrite (IsFull_rep _ _ _ Ht) in Hrun, Hroom.
  rewrite (IsRightClose_rep _ HC1 _ _ Ht) in Hrun.
  pose proof Ht as (_ & Hsize & Hh0 & Hfit & _).
  assert (Hadd : exists add,
             (if Z.of_nat (length ct) =? Deque.BS then Ok true
              else Ok (Deque.BS <=? Block.head_ t + Z.of_nat (length ct)))
             = @Ok bool add /\
             (add = true <-> Deque.BS <= Block.head_ t + Block.size_ t)).
  { destruct (Z.eqb_spec (Z.of_nat (length ct)) Deque.BS).
    - exists true. split; auto. split; auto. lia.
    - eexists. split; [reflexivity|]. rewrite Hsize. apply Z.leb_le. }
  destruct Hadd as (add & Eadd & Hadd). rewrite Eadd in Hrun. cbn [bind] in Hrun.
  clear Eadd.
  destruct add.
  - (* a block is added after the tail block *)
    assert (Hclose : Deque.BS <= Block.head_ t + Block.size_ t) by now apply Hadd.
    assert (Hlt : Z.of_nat (length (bs0 ++ [t])) < CircularBuffer.max_size_ r1).
    { destruct (Z.eqb_spec (Z.of_nat (length ct)) Deque.BS) as [E|E]; [auto|].
      destruct bs0 as [|b0 bs0'].
      - simpl. lia.
      - destruct Hback as [Hb0 _]; [discriminate|]. lia. }
    destruct (ring_AddTailDataBlock Deque.BS r1 _ Hr1 Hlt) as (r2 & E2 & Hr2 & HM2).
    rewrite E2 in Hrun. cbn [bind] in Hrun.
    rewrite (ring_GetTailDataBlock Deque.BS r2 _ Hr2) in Hrun. cbn [bind] in Hrun.
    destruct (make_rep Deque.BS HC0) as [Hfresh Hprist].
    destruct (Block_PushBack_rep Deque.BS HC0 HC1 (Block.make Deque.BS) [] v Hfresh)
      as (b' & Eb & Hb' & Hsync' & Hhead'); auto.
    destruct (ring_at_tail r2 _ _ b' _ Hr2 Eb) as (r4 & E4 & Hr4 & HM4 & _).
    rewrite E4 in Hrun. cbn [bind] in Hrun.
    injection Hrun as <-.
    exists ((bs0 ++ [t]) ++ [b']), ((cs0 ++ [ct]) ++ [[v]]).
    cbn [Deque.data_proxy_ Deque.size_].
    split; [exact Hr4|]. split.
    { apply layout_add_tail; auto.
      unfold back_ok. unfold synced in Hsync'.
      destruct Hb' as (_ & Hs' & _).
      rewrite Hhead' in *. simpl Block.head_ in *. split; auto. }
    split; [now rewrite concat_snoc_new, Hl|].
    split; [|lia].
    rewrite Hsz, length_app. simpl length. rewrite wrap_small; lia.
  - (* the value goes to the tail block *)
    assert (Hopen : Block.head_ t + Block.size_ t < Deque.BS).
    { destruct (Z_lt_dec (Block.head_ t + Block.size_ t) Deque.BS); auto.
      assert (false = true) by (apply Hadd; lia). discriminate. }
    cbn [bind] in Hrun.
    rewrite (ring_GetTailDataBlock Deque.BS r1 _ Hr1) in Hrun. cbn [bind] in Hrun.
    destruct (Block_PushBack_rep Deque.BS HC0 HC1 t ct v Ht Hshape Hopen)
      as (b' & Eb & Hb' & Hsync' & Hhead').
    destruct (ring_at_tail r1 _ _ b' _ Hr1 Eb) as (r4 & E4 & Hr4 & HM4 & _).
    rewrite E4 in Hrun. cbn [bind] in Hrun.
    injection Hrun as <-.
    exists (bs0 ++ [b']), (cs0 ++ [ct ++ [v]]).
    cbn [Deque.data_proxy_ Deque.size_].
    split; [exact Hr4|]. split.
    { apply (layout_set_tail Deque.BS bs0 t b' cs0 ct); auto. }
    split; [now rewrite concat_snoc_app, Hl|].
    split; [|lia].
    rewrite Hsz, length_app. simpl length. rewrite wrap_small; lia.
Qed.

Lemma PopBack_inv (d d' : Deque.t) (l : list Z) :
  deque_inv d l -> l <> [] -> Z.of_nat (length l) < size_max ->
  Deque.PopBack d = Ok d' ->
  deque_inv d' (removelast l).
Proof.
  intros (bs & cs & Hring & Hlay & Hl & Hsz & HM) Hne Hbound Hrun.
  pose proof size_max_val as SM.
  pose proof BS_pos as HC0. pose proof BS_small as HC1.
  destruct (layout_as_snoc _ _ _ Hlay) as (bs0 & t & cs0 & ct & -> & ->).
  destruct (layout_tail_block _ _ _ _ _ Hlay) as (Ht & Hshape & Hback & Hnil).
  unfold Deque.PopBack in Hrun.
  rewrite (ring_GetTailDataBlock Deque.BS _ _ Hring) in Hrun. cbn [bind] in Hrun.
  destruct ct as [|x0 ct0] using rev_ind.
  { (* the tail block is empty *)
    destruct bs0 as [|b0 bs0'].
    - rewrite Hnil in Hl by reflexivity. simpl in Hl. congruence.
    - rewrite (ring_at_tail_fault _ _ _ _ OutOfBounds Hring) in Hrun.
      + discriminate.
      + apply (Block_PopBack_fault Deque.BS); auto. apply Hback. discriminate. }
  clear IHct0.
  assert (Hsync : synced t).
  { destruct Hshape as [|Hp]; auto.
    apply (pristine_size _ _ _ Ht) in Hp. destruct ct0; discriminate. }
  destruct (Block_PopBack_rep Deque.BS HC1 t ct0 x0 Ht Hsync)
    as (b' & Eb & Hb' & Hsync' & Hhead').
  destruct (ring_at_tail _ _ _ b' _ Hring Eb) as (r2 & E2 & Hr2 & HM2 & Htl2).
  rewrite E2 in Hrun. cbn [bind] in Hrun.
  unfold CircularBuffer.read_ptr in Hrun.
  rewrite <- Htl2 in Hrun.
  rewrite (ring_tail_block _ _ _ Hr2) in Hrun. cbn [bind] in Hrun.
  rewrite (IsEmpty_rep _ _ _ Hb') in Hrun.
  assert (Hlen : Z.of_nat (length l) = Z.of_nat (length (concat cs0))
                                        + Z.of_nat (length ct0) + 1).
  { rewrite Hl, concat_app. cbn [concat]. rewrite app_nil_r, !length_app.
    cbn [length]. lia. }
  assert (Hrl : removelast l = concat (cs0 ++ [ct0])).
  { rewrite Hl, concat_snoc_app. apply removelast_last. }
  assert (Hsz' : wrap (Deque.size_ d - 1) = Z.of_nat (length (removelast l))).
  { rewrite Hrl, Hsz, Hlen, concat_app, length_app. simpl. rewrite app_nil_r.
    rewrite wrap_small; lia. }
  destruct ((Z.of_nat (length ct0) =? 0) && (Deque.size_ d >? 1)) eqn:Edel.
  - (* the emptied tail block is deleted *)
    apply andb_prop in Edel. destruct Edel as [Ez Eg].
    apply Z.eqb_eq in Ez. rewrite Z.gtb_ltb in Eg. apply Z.ltb_lt in Eg.
    assert (ct0 = []) by (destruct ct0; [auto | simpl in Ez; lia]). subst ct0.
    assert (Hbs0 : bs0 <> []).
    { intros ->. rewrite Hnil in Hlen by reflexivity. simpl in Hlen. lia. }
    destruct (ring_DeleteDataBlockFromTail r2 _ Hr2) as (r3 & E3 & Hr3 & HM3).
    { rewrite length_app. simpl. destruct bs0; [congruence | simpl; lia]. }
    rewrite E3 in Hrun. cbn [bind] in Hrun.
    injection Hrun as <-.
    rewrite removelast_last in Hr3.
    exists bs0, cs0. cbn [Deque.data_proxy_ Deque.size_].
    split; [exact Hr3|]. split.
    { apply (layout_drop_tail Deque.BS HC0 HC1 bs0 t cs0 ([] ++ [x0])); auto. }
    split; [now rewrite Hrl, concat_snoc_nil|].
    split; [exact Hsz' | lia].
  - cbn [bind] in Hrun. injection Hrun as <-.
    exists (bs0 ++ [b']), (cs0 ++ [ct0]). cbn [Deque.data_proxy_ Deque.size_].
    split; [exact Hr2|]. split.
    { apply (layout_set_tail Deque.BS bs0 t b' cs0 (ct0 ++ [x0])); auto. }
    split; [exact Hrl|].
    split; [exact Hsz' | lia].
Qed.

Lemma PopFront_inv (d d' : Deque.t) (l : list Z) :
  deque_inv d l -> l <> [] -> Z.of_nat (length l) < size_max ->
  Deque.PopFront d = Ok d' ->
  deque_inv d' (tl l).
Proof.
  intros (bs & cs & Hring & Hlay & Hl & Hsz & HM) Hne Hbound Hrun.
  pose proof size_max_val as SM.
  pose proof BS_pos as HC0. pose proof BS_small as HC1.
  destruct (layout_as_cons _ _ _ Hlay) as (h & bs1 & ch & cs1 & -> & ->).
  destruct (layout_head_block _ HC0 HC1 _ _ _ _ Hlay) as (Hh & Hshape & Hfront & Hnil).
  unfold Deque.PopFront in Hrun.
  rewrite (ring_GetHeadDataBlock _ _ Hring) in Hrun. cbn [bind] in Hrun.
  destruct ch as [|x0 ch0].
  { (* the head block is empty *)
    destruct bs1 as [|b1 bs1'].
    - rewrite Hnil in Hl by reflexivity. simpl in Hl. congruence.
    - rewrite (ring_at_head_fault _ _ _ _ OutOfBounds Hring) in Hrun.
      + discriminate.
      + apply (Block_PopFront_fault Deque.BS); auto. apply Hfront. discriminate. }
  assert (Hsync : synced h).
  { destruct Hshape as [|Hp]; auto.
    apply (pristine_size _ _ _ Hh) in Hp. discriminate. }
  destruct (Block_PopFront_rep Deque.BS HC1 h ch0 x0 Hh Hsync)
    as (b' & Eb & Hb' & Hsync' & Htail' & Hhead').
  destruct (ring_at_head _ _ _ b' _ Hring Eb) as (r2 & E2 & Hr2 & HM2 & Hhd2).
  rewrite E2 in Hrun. cbn [bind] in Hrun.
  unfold CircularBuffer.read_ptr in Hrun.
  rewrite <- Hhd2 in Hrun.
  rewrite (ring_head_block _ _ _ Hr2) in Hrun. cbn [bind] in Hrun.
  rewrite (IsEmpty_rep _ _ _ Hb') in Hrun.
  assert (Hlen : Z.of_nat (length l) = Z.of_nat (length ch0)
                                        + Z.of_nat (length (concat cs1)) + 1).
  { rewrite Hl. cbn [concat]. rewrite length_app. simpl. lia. }
  assert (Hrl : tl l = concat (ch0 :: cs1)).
  { rewrite Hl. reflexivity. }
  assert (Hsz' : wrap (Deque.size_ d - 1) = Z.of_nat (length (tl l))).
  { rewrite Hrl, Hsz, Hlen. cbn [concat]. rewrite length_app.
    rewrite wrap_small; lia. }
  pose proof Hh as (_ & Hhsz & _). pose proof Hb' as (_ & Hbsz & _).
  simpl length in Hhsz.
  destruct ((Z.of_nat (length ch0) =? 0) && (Deque.size_ d >? 1)) eqn:Edel.
  - (* the emptied head block is deleted *)
    apply andb_prop in Edel. destruct Edel as [Ez Eg].
    apply Z.eqb_eq in Ez. rewrite Z.gtb_ltb in Eg. apply Z.ltb_lt in Eg.
    assert (ch0 = []) by (destruct ch0; [auto | simpl in Ez; lia]). subst ch0.
    assert (Hbs1 : bs1 <> []).
    { intros ->. rewrite Hnil in Hlen by reflexivity. simpl in Hlen. lia. }
    destruct (ring_DeleteDataBlockFromHead r2 _ Hr2) as (r3 & E3 & Hr3 & HM3).
    { simpl. destruct bs1; [congruence | simpl; lia]. }
    rewrite E3 in Hrun. cbn [bind] in Hrun.
    injection Hrun as <-.
    cbn [tl] in Hr3.
    exists bs1, cs1. cbn [Deque.data_proxy_ Deque.size_].
    split; [exact Hr3|]. split.
    { apply (layout_drop_head Deque.BS h bs1 [x0] cs1); auto. }
    split; [now rewrite Hrl|].
    split; [exact Hsz' | lia].
  - cbn [bind] in Hrun. injection Hrun as <-.
    exists (b' :: bs1), (ch0 :: cs1). cbn [Deque.data_proxy_ Deque.size_].
    split; [exact Hr2|]. split.
    { apply (layout_set_head Deque.BS h b' bs1 (x0 :: ch0)); auto. lia. }
    split; [exact Hrl|].
    split; [exact Hsz' | lia].
Qed.

Lemma PushFront_inv (d d' : Deque.t) (l : list Z) (v : Z) :
  deque_inv d l -> Z.of_nat (length l) + 1 < size_max ->
  Deque.PushFront v d = Ok d' ->
  deque_inv d' (v :: l).
Proof.
  intros (bs & cs & Hring & Hlay & Hl & Hsz & HM) Hbound Hrun.
  pose proof size_max_val as SM.
  pose proof BS_pos as HC0. pose proof BS_small as HC1.
  destruct (layout_as_cons _ _ _ Hlay) as (h & bs1 & ch & cs1 & -> & ->).
  destruct (layout_head_block _ HC0 HC1 _ _ _ _ Hlay) as (Hh & Hshape & Hfront & Hnil).
  assert (Hcount : Z.of_nat (length (concat (ch :: cs1))) < size_max)
    by (rewrite <- Hl; lia).
  unfold Deque.PushFront in Hrun.
  destruct (grow_step d _ _ (CircularBuffer.IsHeadDataBlockFull Deque.BS (Deque.data_proxy_ d)) h
                      Hring Hlay Hcount HM) as (r1 & E1 & Hr1 & HM1 & Hroom).
  { unfold CircularBuffer.IsHeadDataBlockFull.
    now rewrite (ring_head_block _ _ _ Hring). }
  rewrite E1 in Hrun. cbn [bind] in Hrun. clear E1.
  rewrite (IsFull_rep _ _ _ Hh) in Hroom.
  pose proof Hh as (_ & Hsize & Hh0 & Hfit & _).
  assert (Hsz' : wrap (Deque.size_ d + 1) = Z.of_nat (length (v :: l))).
  { rewrite Hsz. simpl length. rewrite wrap_small; lia. }
  (* whether a block is added before the head block *)
  assert (Hadd : exists add,
             (empty <- CircularBuffer.IsEmpty r1 ;;
              if negb empty then CircularBuffer.IsHeadStartNotShifted r1 else Ok false)
             = Ok add /\
             (add = true -> Block.head_ h = 0 /\ synced h) /\
             (add = false -> (0 < Block.head_ h /\ synced h) \/ (bs1 = [] /\ ch = []))).
  { unfold CircularBuffer.IsHeadStartNotShifted.
    rewrite (ring_head_block _ _ _ Hr1).
    assert (Hcase : 0 < Block.head_ h \/ Block.head_ h = 0) by lia.
    destruct bs1 as [|b1 bs1'].
    - destruct (ring_IsEmpty_one r1 h Hr1) as [[_ Ee]|[_ Ee]]; rewrite Ee in *;
        cbn [bind] in *; [|discriminate].
      rewrite (IsEmpty_rep _ _ _ Hh).
      destruct (Z.eqb_spec (Z.of_nat (length ch)) 0) as [Ez|Ez]; cbn [negb bind].
      + exists false. split; auto. split; [discriminate|].
        intros _. right. split; auto. destruct ch; [auto | simpl in Ez; lia].
      + assert (Hs : synced h).
        { destruct Hshape as [|Hp]; auto.
          apply (pristine_size _ _ _ Hh) in Hp. subst ch. simpl in Ez. lia. }
        unfold Block.IsHeadShifted. rewrite negb_involutive.
        eexists. split; [reflexivity|].
        destruct (Z.eqb_spec (Block.head_ h) 0); split; auto; try discriminate.
        intros _. left. split; auto. lia.
    - rewrite (ring_IsEmpty_many r1 _ Hr1) by (simpl; lia). cbn [negb bind].
      assert (Hs : synced h).
      { apply front_ok_synced with (C := Deque.BS); auto. apply Hfront. discriminate. }
      unfold Block.IsHeadShifted. rewrite negb_involutive.
      eexists. split; [reflexivity|].
      destruct (Z.eqb_spec (Block.head_ h) 0); split; auto; try discriminate.
      intros _. left. split; auto. lia. }
  destruct Hadd as (add & Eadd & Hyes & Hno). rewrite Eadd in Hrun. cbn [bind] in Hrun.
  clear Eadd.
  destruct add.
  - (* a block is added before the head block *)
    destruct Hyes as [Hzero Hsync]; auto.
    assert (Hlt : Z.of_nat (length (h :: bs1)) < CircularBuffer.max_size_ r1).
    { destruct (Z.eqb_spec (Z.of_nat (length ch)) Deque.BS) as [E|E]; [auto|].
      destruct bs1 as [|b1 bs1'].
      - simpl. lia.
      - destruct Hfront as [Hf0 _]; [discriminate|]. lia. }
    destruct (ring_AddHeadDataBlock Deque.BS r1 _ Hr1 Hlt) as (r2 & E2 & Hr2 & HM2).
    rewrite E2 in Hrun. cbn [bind] in Hrun.
    rewrite (ring_GetHeadDataBlock r2 _ Hr2) in Hrun. cbn [bind] in Hrun.
    destruct (make_rep Deque.BS HC0) as [Hfresh Hprist].
    destruct (Block_PushFront_pristine Deque.BS HC0 HC1 (Block.make Deque.BS) v Hfresh Hprist)
      as (b' & Eb & Hb' & Hsync' & Hfront').
    destruct (ring_at_head r2 _ _ b' _ Hr2 Eb) as (r4 & E4 & Hr4 & HM4 & _).
    rewrite E4 in Hrun. cbn [bind] in Hrun.
    injection Hrun as <-.
    exists (b' :: h :: bs1), ([v] :: ch :: cs1).
    cbn [Deque.data_proxy_ Deque.size_].
    split; [exact Hr4|]. split.
    { apply layout_add_head; auto. }
    split; [now rewrite Hl|].
    split; [exact Hsz' | lia].
  - (* the value goes to the head block *)
    cbn [bind] in Hrun.
    rewrite (ring_GetHeadDataBlock r1 _ Hr1) in Hrun. cbn [bind] in Hrun.
    assert (Hdone : forall b' ch',
               Block.PushFront Deque.BS v h = Ok b' ->
               block_rep Deque.BS b' ch' -> synced b' ->
               concat (ch' :: cs1) = v :: l ->
               layout Deque.BS (b' :: bs1) (ch' :: cs1) ->
               deque_inv d' (v :: l)).
    { intros b' ch' Eb Hb' Hsync' Hcat Hlay'.
      destruct (ring_at_head r1 _ _ b' _ Hr1 Eb) as (r4 & E4 & Hr4 & HM4 & _).
      rewrite E4 in Hrun. cbn [bind] in Hrun.
      injection Hrun as <-.
      exists (b' :: bs1), (ch' :: cs1).
      cbn [Deque.data_proxy_ Deque.size_].
      split; [exact Hr4|]. split; [exact Hlay'|].
      split; [now rewrite Hcat|].
      split; [exact Hsz' | lia]. }
    destruct Hno as [[Hpos Hsync] | [-> ->]]; auto.
    + destruct (Block_PushFront_shifted Deque.BS HC0 HC1 h ch v Hh Hsync Hpos)
        as (b' & Eb & Hb' & Hsync' & Htail' & Hhead').
      apply (Hdone b' (v :: ch)); auto.
      * now rewrite Hl.
      * apply (layout_set_head Deque.BS h b' bs1 ch); auto.
        destruct Hb' as (_ & Hs' & _). simpl length in Hs'. lia.
    + rewrite Hnil in * by reflexivity.
      destruct Hshape as [Hsync | Hprist].
      * assert (Hcase : 0 < Block.head_ h \/ Block.head_ h = 0) by lia.
        destruct Hcase as [Hpos | Hzero].
        -- destruct (Block_PushFront_shifted Deque.BS HC0 HC1 h [] v Hh Hsync Hpos)
             as (b' & Eb & Hb' & Hsync' & Htail' & Hhead').
           apply (Hdone b' [v]); auto.
           ++ now rewrite Hl.
           ++ apply layout_one; auto.
        -- rewrite (ring_at_head_fault _ _ _ _ OutOfBounds Hr1) in Hrun.
           ++ discriminate.
           ++ apply (Block_PushFront_fault Deque.BS); auto.
      * destruct (Block_PushFront_pristine Deque.BS HC0 HC1 h v Hh Hprist)
          as (b' & Eb & Hb' & Hsync' & Hfront').
        apply (Hdone b' [v]); auto.
        -- now rewrite Hl.
        -- apply layout_one; auto.
Qed.

Lemma make_inv : deque_inv Deque.make [].
Proof.
  pose proof size_max_val as SM.
  exists [Block.make Deque.BS], [[]].
  split; [|split; [|split; [reflexivity | split; [reflexivity |]]]].
  3: { unfold Deque.make, CircularBuffer.make.
       cbn [Deque.data_proxy_ CircularBuffer.max_size_].
       change deque_settings.kBufferInitMaxSize with 16. lia. }
  - exists (upd (CircularBuffer.new_array deque_settings.kBufferInitMaxSize) 0
                (Some (Block.make Deque.BS))).
    unfold Deque.make, CircularBuffer.make.
    cbn [Deque.data_proxy_]. ring_fields.
    change deque_settings.kBufferInitMaxSize with 16.
    unfold CircularBuffer.new_array.
    rewrite upd_length, repeat_length.
    repeat split; try (simpl; lia).
    intros j Hj. rewrite Z.add_0_l, Z.mod_small by lia.
    destruct (Z.eq_dec j 0) as [->|Hne].
    + reflexivity.
    + rewrite nth_error_upd_other by lia.
      rewrite nth_error_repeat by lia.
      f_equal. symmetry. apply nth_error_None. simpl. lia.
  - apply layout_one.
    + apply make_rep. exact BS_pos.
    + right. apply (make_rep Deque.BS BS_pos).
Qed.

Lemma within_contract_pop (ops : list op) (l : list Z) :
  match length l with
  | O => false
  | S n' => within_contract ops n'
  end = true ->
  l <> [] /\ within_contract ops (length (removelast l)) = true /\
  within_contract ops (length (tl l)) = true /\
  (length (removelast l) < length l)%nat /\ (length (tl l) < length l)%nat.
Proof.
  intros H. destruct l as [|x l]; [discriminate|].
  rewrite length_removelast. cbn [length tl] in *.
  replace (S (length l) - 1)%nat with (length l) by lia.
  repeat split; auto. discriminate.
Qed.

(** A run within the contract that returns keeps the representation. *)
Lemma run_inv (ops : list op) :
  forall (d d' : Deque.t) (l : list Z),
    deque_inv d l ->
    within_contract ops (length l) = true ->
    Z.of_nat (length l) + Z.of_nat (length ops) < size_max ->
    run ops d = Ok d' ->
    deque_inv d' (ref_run ops l).
Proof.
  induction ops as [|o ops IH]; intros d d' l Hinv Hc Hb Hrun.
  - simpl in Hrun. injection Hrun as <-. exact Hinv.
  - cbn [run] in Hrun. apply bind_ok in Hrun. destruct Hrun as (d1 & Hstep & Hrest).
    cbn [length] in Hb. cbn [ref_run].
    destruct o as [v|v| |]; cbn [step ref_apply within_contract] in *.
    + apply (IH d1 d'); auto.
      * apply (PushBack_inv d); auto. lia.
      * rewrite length_app. simpl. now rewrite Nat.add_1_r.
      * rewrite length_app. simpl. lia.
    + apply (IH d1 d'); auto.
      * apply (PushFront_inv d); auto. lia.
      * cbn [length]. lia.
    + apply within_contract_pop in Hc. destruct Hc as (Hne & Hc & _ & Hlt & _).
      apply (IH d1 d'); auto.
      * apply (PopBack_inv d); auto. lia.
      * lia.
    + apply within_contract_pop in Hc. destruct Hc as (Hne & _ & Hc & _ & Hlt).
      apply (IH d1 d'); auto.
      * apply (PopFront_inv d); auto. lia.
      * lia.
Qed.

Lemma ref_run_length (ops : list op) :
  forall l : list Z, (length (ref_run ops l) <= length l + length ops)%nat.
Proof.
  induction ops as [|o ops IH]; intros l; simpl; [lia|].
  specialize (IH (ref_apply o l)).
  assert (length (ref_apply o l) <= S (length l))%nat.
  { destruct o; simpl.
    - rewrite length_app. simpl. lia.
    - lia.
    - rewrite length_removelast. lia.
    - destruct l; simpl; lia. }
  lia.
Qed.

(** ** Reading by index *)

Section Lookup.
Variable C : Z.
Hypothesis C_pos : 0 < C.
Hypothesis C_small : C < 2 ^ 32.

(** The element at offset [i] after the head block: the blocks in between
    are addressed in strides of [C]. *)
Lemma stride_lookup (mids : list Block.t) (cms : list (list Z))
      (t : Block.t) (ct : list Z) :
  Forall2 (inner_ok C) mids cms -> block_rep C t ct ->
  forall i, 0 <= i < Z.of_nat (length (concat (cms ++ [ct]))) ->
    exists tb c,
      nth_error (mids ++ [t]) (Z.to_nat (i / C)) = Some tb /\
      block_rep C tb c /\
      0 <= i mod C < Z.of_nat (length c) /\
      nth (Z.to_nat (i mod C)) c 0 = nth (Z.to_nat i) (concat (cms ++ [ct])) 0.
Proof.
  intros Hm Ht.
  induction Hm as [|m cm mids cms (Hr & Hf & Hb) _ IH]; intros i Hi.
  - simpl in Hi. rewrite app_nil_r in Hi. simpl. rewrite app_nil_r.
    pose proof Ht as (_ & _ & Hh0 & Hfit & _).
    rewrite Z.div_small, Z.mod_small by lia.
    exists t, ct.
    split; [reflexivity|]. split; [exact Ht|]. split; [lia | reflexivity].
  - pose proof Hr as (_ & Hsz & _).
    destruct Hf as [Hf _]. destruct Hb as [Hb _].
    assert (Hcm : Z.of_nat (length cm) = C) by lia.
    cbn [app concat] in *. rewrite length_app in Hi.
    destruct (Z_lt_dec i C) as [Hlt|Hge].
    + rewrite Z.div_small, Z.mod_small by lia.
      exists m, cm.
      split; [reflexivity|]. split; [exact Hr|]. split; [lia|].
      symmetry. apply app_nth1. lia.
    + destruct (IH (i - C)) as (tb & c & Hnth & Hrep & Hmod & Hval); [lia|].
      assert (Hq : i / C = (i - C) / C + 1).
      { rewrite <- Z.div_add by lia. f_equal. lia. }
      assert (Hr' : i mod C = (i - C) mod C).
      { rewrite <- (Z.mod_add (i - C) 1 C) by lia. f_equal. lia. }
      assert (0 <= (i - C) / C) by (apply Z.div_pos; lia).
      exists tb, c. rewrite Hq, Hr'.
      replace (Z.to_nat ((i - C) / C + 1)) with (S (Z.to_nat ((i - C) / C))) by lia.
      split; [exact Hnth|]. split; [exact Hrep|]. split; [lia|].
      rewrite Hval. rewrite app_nth2 by lia. f_equal. lia.
Qed.
End Lookup.

Lemma index_inv (d : Deque.t) (l : list Z) (i : Z) :
  deque_inv d l -> Z.of_nat (length l) < size_max ->
  0 <= i < Z.of_nat (length l) ->
  Deque.index i d = Ok (nth (Z.to_nat i) l 0).
Proof.
  intros (bs & cs & Hring & Hlay & Hl & Hsz & HM) Hbound Hi.
  pose proof size_max_val as SM.
  pose proof BS_pos as HC0. pose proof BS_small as HC1.
  destruct (layout_as_cons _ _ _ Hlay) as (h & bs1 & ch & cs1 & -> & ->).
  pose proof (ring_length _ _ Hring) as Hn.
  unfold Deque.index, CircularBuffer.GetElementByIndex.
  rewrite (ring_head_block _ _ _ Hring). cbn [bind].
  apply layout_head_cases in Hlay.
  cbn [concat] in Hl.
  assert (Hhead : block_rep Deque.BS h ch).
  { destruct Hlay as [(_ & _ & H & _) | (? & ? & ? & ? & _ & _ & H & _)]; exact H. }
  pose proof Hhead as (_ & Hsize & _).
  unfold Block.Size. rewrite Hsize.
  destruct (Z.ltb_spec i (Z.of_nat (length ch))) as [Hlt|Hge].
  - rewrite (Block_Get_rep Deque.BS HC1 h ch i Hhead) by lia.
    rewrite Hl. f_equal. symmetry. apply app_nth1. lia.
  - destruct Hlay as [(-> & -> & _) | (mids & cms & t & ct & -> & -> & _ & _ & Hm & Ht & _)].
    { rewrite Hl in Hi. simpl in Hi. rewrite app_nil_r in Hi. lia. }
    assert (Hll : Z.of_nat (length l)
                  = Z.of_nat (length ch) + Z.of_nat (length (concat (cms ++ [ct]))))
      by (rewrite Hl, length_app; lia).
    rewrite (wrap_small (i - Z.of_nat (length ch))) by lia.
    destruct (stride_lookup Deque.BS HC0 mids cms t ct Hm Ht (i - Z.of_nat (length ch)))
      as (tb & c & Hnth & Hrep & Hmod & Hval); [lia|].
    set (q := (i - Z.of_nat (length ch)) / Deque.BS) in *.
    assert (Hq0 : 0 <= q) by (apply Z.div_pos; lia).
    assert (Hq1 : (Z.to_nat q < length (mids ++ [t]))%nat)
      by (apply nth_error_Some; congruence).
    cbn [length] in Hn.
    rewrite length_app in Hq1, Hn. cbn [length] in Hq1, Hn.
    pose proof Hring as (a & Hbuf & Hlen & HMs & Hrs & _ & Hh & _).
    rewrite (wrap_small (CircularBuffer.head_ (Deque.data_proxy_ d) + q)) by lia.
    rewrite wrap_small by lia.
    unfold CircularBuffer.umod.
    destruct (Z.eqb_spec (CircularBuffer.max_size_ (Deque.data_proxy_ d)) 0); [lia|].
    cbn [bind].
    replace (CircularBuffer.head_ (Deque.data_proxy_ d) + q + 1)
      with (CircularBuffer.head_ (Deque.data_proxy_ d) + Z.of_nat (S (Z.to_nat q)))
      by lia.
    rewrite (ring_block_at _ _ (S (Z.to_nat q)) tb Hring) by exact Hnth.
    cbn [bind].
    rewrite (Block_Get_rep Deque.BS HC1 tb c _ Hrep) by lia.
    rewrite Hval, Hl. f_equal.
    rewrite app_nth2 by lia. f_equal. lia.
Qed.

(** ** Consequences for the slots of the ring *)

Lemma ring_pos_back (h M k : Z) :
  0 <= h < M -> 0 <= k < M ->
  0 <= (k - h) mod M < M /\ (h + (k - h) mod M) mod M = k.
Proof.
  intros Hh Hk.
  destruct (mod_cases (k - h) M) as [[? E1]|[[? E1]|[? E1]]]; try lia; rewrite E1;
    (split; [lia|]).
  - replace (h + (k - h)) with k by lia. apply Z.mod_small. lia.
  - replace (h + (k - h + M)) with (k + 1 * M) by lia.
    rewrite Z.mod_add by lia. apply Z.mod_small. lia.
Qed.

Lemma inner_in (C : Z) (mids : list Block.t) (cms : list (list Z)) (b : Block.t) :
  Forall2 (inner_ok C) mids cms -> In b mids ->
  Block.size_ b = C /\ Block.head_ b = 0.
Proof.
  induction 1 as [|m cm mids cms (Hr & Hf & Hb) _ IH]; intros Hin.
  - destruct Hin.
  - destruct Hin as [<-|Hin]; auto.
    destruct Hf as [Hf _]. destruct Hb as [Hb _]. lia.
Qed.

Lemma inner_blocks_full_inv (d : Deque.t) (l : list Z) :
  deque_inv d l -> inner_blocks_full Deque.BS (Deque.data_proxy_ d).
Proof.
  intros (bs & cs & Hring & Hlay & _) a k b Hbuf Hk0 Hnth Hnh Hnt.
  pose proof (ring_tail_pos _ _ Hring) as Htail.
  destruct Hring as (a' & Hbuf' & Hlen & HM & Hsz & Hn & Hh & Ht & Hslots).
  rewrite Hbuf in Hbuf'. injection Hbuf' as <-.
  set (M := CircularBuffer.max_size_ (Deque.data_proxy_ d)) in *.
  set (h := CircularBuffer.head_ (Deque.data_proxy_ d)) in *.
  assert (Hk : 0 <= k < M).
  { assert (Z.to_nat k < length a)%nat by (apply nth_error_Some; congruence). lia. }
  destruct (ring_pos_back h M k Hh Hk) as [Hj Hback].
  set (j := (k - h) mod M) in *.
  specialize (Hslots j Hj). rewrite Hback, Hnth in Hslots.
  injection Hslots as Hb. symmetry in Hb.
  assert (Hjn : (Z.to_nat j < length bs)%nat) by (apply nth_error_Some; congruence).
  assert (Hj0 : j <> 0).
  { intros E. rewrite E, Z.add_0_r, Z.mod_small in Hback by lia. congruence. }
  assert (Hj1 : j <> Z.of_nat (length bs - 1)).
  { intros E. rewrite E in Hback. congruence. }
  inversion Hlay as [b0 c0 _ _ Eb Ec | h0 ch mids cms t ct _ _ Hm _ _ Eb Ec];
    subst bs.
  - simpl in Hjn. lia.
  - cbn [length] in Hjn, Hj1. rewrite length_app in Hjn, Hj1.
    cbn [length] in Hjn, Hj1.
    replace (Z.to_nat j) with (S (Z.to_nat (j - 1))) in Hb by lia.
    cbn [nth_error] in Hb.
    rewrite nth_error_app1 in Hb by lia.
    apply nth_error_In in Hb.
    apply (inner_in Deque.BS mids cms b Hm Hb).
Qed.

(** Clearing one owned slot takes one from the number of owned slots. *)
Lemma count_upd_false (o : list bool) (p : nat) :
  nth p o false = true ->
  length (filter (fun b => b) o) = S (length (filter (fun b => b) (upd o p false))).
Proof.
  revert p. induction o as [|x o IH]; intros [|p] H; simpl in *; try discriminate.
  - subst x. reflexivity.
  - destruct x; simpl; rewrite (IH p H); reflexivity.
Qed.

Lemma count_none (o : list bool) :
  (forall k, (k < length o)%nat -> nth k o false = false) ->
  length (filter (fun b => b) o) = 0%nat.
Proof.
  induction o as [|x o IH]; intros H; [reflexivity|].
  pose proof (H 0%nat) as H0. simpl in H0. rewrite H0 by lia. simpl.
  apply IH. intros k Hk. apply (H (S k)). simpl. lia.
Qed.

Lemma nth_upd_same (o : list bool) (p : nat) (x : bool) :
  (p < length o)%nat -> nth p (upd o p x) false = x.
Proof.
  revert p. induction o as [|y o IH]; intros [|p] H; simpl in *; try lia; auto.
  apply IH. lia.
Qed.

Lemma nth_upd_other (o : list bool) (p q : nat) (x : bool) :
  p <> q -> nth q (upd o p x) false = nth q o false.
Proof.
  revert p q. induction o as [|y o IH]; intros [|p] [|q] H; simpl; auto;
    try congruence.
Qed.

(** The slots owned are the first [n] positions of the ring: there are [n]
    of them. *)
Lemma count_ring (h M : Z) (n : nat) :
  0 <= h < M -> Z.of_nat n <= M ->
  forall o : list bool,
    Z.of_nat (length o) = M ->
    (forall j, 0 <= j < M ->
       nth (Z.to_nat ((h + j) mod M)) o false = (j <? Z.of_nat n)) ->
    length (filter (fun b => b) o) = n.
Proof.
  intros Hh. induction n as [|n IH]; intros Hn o Hlen Hown.
  - apply count_none. intros k Hk.
    destruct (ring_pos_back h M (Z.of_nat k)) as [Hj Hback]; try lia.
    specialize (Hown _ Hj). rewrite Hback, Nat2Z.id in Hown.
    rewrite Hown. apply Z.ltb_ge. lia.
  - pose proof (ring_pos_range h M (Z.of_nat n)) as Hp.
    rewrite (count_upd_false o (Z.to_nat ((h + Z.of_nat n) mod M))).
    + f_equal. apply IH; try lia.
      * rewrite upd_length. exact Hlen.
      * intros j Hj.
        destruct (Z.eq_dec j (Z.of_nat n)) as [->|Hne].
        -- rewrite nth_upd_same by lia. symmetry. apply Z.ltb_ge. lia.
        -- assert ((h + Z.of_nat n) mod M <> (h + j) mod M).
           { intros E. apply ring_pos_inj in E; lia. }
           pose proof (ring_pos_range h M j).
           rewrite nth_upd_other by lia.
           rewrite Hown by lia.
           destruct (Z.ltb_spec j (Z.of_nat (S n))); destruct (Z.ltb_spec j (Z.of_nat n));
             auto; lia.
    + rewrite Hown by lia. apply Z.ltb_lt. lia.
Qed.

Lemma ring_consistent_inv (r : CircularBuffer.t) (bs : list Block.t) :
  ring_inv r bs -> ring_consistent r.
Proof.
  intros (a & Hbuf & Hlen & HM & Hsz & Hn & Hh & Ht & Hslots).
  set (M := CircularBuffer.max_size_ r) in *.
  set (h := CircularBuffer.head_ r) in *.
  assert (Hown : forall j, 0 <= j < M ->
            nth (Z.to_nat ((h + j) mod M)) (map is_some a) false
            = (j <? Z.of_nat (length bs))).
  { intros j Hj.
    pose proof (ring_pos_range h M j).
    rewrite (nth_indep _ false (is_some (@None Block.t))) by (rewrite length_map; lia).
    rewrite map_nth.
    rewrite (nth_error_nth _ _ _ (Hslots j Hj)).
    destruct (Z.ltb_spec j (Z.of_nat (length bs))).
    - destruct (nth_error bs (Z.to_nat j)) eqn:E; [reflexivity|].
      apply nth_error_None in E. lia.
    - assert (nth_error bs (Z.to_nat j) = None) as -> by (apply nth_error_None; lia).
      reflexivity. }
  unfold ring_consistent, populated, owns, in_ring_range, owned_slots.
  rewrite Hbuf. fold h. split.
  - rewrite Hsz. f_equal. symmetry.
    apply (count_ring h M); auto; try lia.
    rewrite length_map. exact Hlen.
  - rewrite length_map. intros k Hk.
    destruct (ring_pos_back h M k) as [Hj Hback]; try lia.
    specialize (Hown _ Hj). rewrite Hback in Hown. rewrite Hown, Ht.
    destruct (mod_cases (k - h) M) as [[? E1]|[[? E1]|[? E1]]]; try lia;
    destruct (mod_cases (h + Z.of_nat (length bs) - 1) M)
      as [[? E2]|[[? E2]|[? E2]]]; try lia;
    rewrite E1, E2;
    repeat match goal with
           | |- context [?x <? ?y] => destruct (Z.ltb_spec x y)
           | |- context [?x <=? ?y] => destruct (Z.leb_spec x y)
           end; cbn [andb orb]; try reflexivity; lia.
Qed.

(** ** Copying *)

Lemma ring_slot_at (r : CircularBuffer.t) (bs : list Block.t)
      (a : list (option Block.t)) (k : Z) :
  ring_inv r bs -> CircularBuffer.buffer_ r = Some a ->
  0 <= k < CircularBuffer.max_size_ r ->
  nth_error a (Z.to_nat k)
  = Some (nth_error bs (Z.to_nat ((k - CircularBuffer.head_ r)
                                  mod CircularBuffer.max_size_ r))).
Proof.
  intros (a' & Hbuf & Hlen & HM & Hsz & Hn & Hh & Ht & Hslots) Ha Hk.
  rewrite Hbuf in Ha. injection Ha as <-.
  destruct (ring_pos_back _ _ k Hh Hk) as [Hj Hback].
  rewrite <- Hback at 1. apply Hslots. exact Hj.
Qed.

Lemma upd_upd {A : Type} (l : list A) (n : nat) (x y : A) :
  upd (upd l n x) n y = upd l n y.
Proof.
  revert n. induction l as [|z l IH]; intros [|n]; simpl; auto. now rewrite IH.
Qed.

Lemma upd_same {A : Type} (l : list A) (n : nat) (x : A) :
  nth_error l n = Some x -> upd l n x = l.
Proof.
  revert n. induction l as [|z l IH]; intros [|n] H; simpl in *; try discriminate.
  - now injection H as ->.
  - now rewrite IH.
Qed.

Lemma assign_other (dst src : Block.t) : Block.assign dst src = src.
Proof. destruct src. reflexivity. Qed.

(** The loop of the copy constructor when the slots it visits all own a
    block: each of them is copied. *)
Lemma copy_blocks_ok (other : CircularBuffer.t) (src : list (option Block.t)) (M : Z) :
  CircularBuffer.buffer_ other = Some src ->
  Z.of_nat (length src) = M -> M < size_max ->
  0 <= CircularBuffer.size_ other <= M ->
  (forall j : nat, Z.of_nat j < CircularBuffer.size_ other ->
                   exists b, nth_error src j = Some (Some b)) ->
  forall (m : nat) (i : Z) (cells : nat) (a : list (option Block.t)),
    0 <= i -> i + Z.of_nat m = CircularBuffer.size_ other ->
    i + Z.of_nat cells = M -> Z.of_nat (length a) = M ->
    exists a',
      CircularBuffer.copy_blocks Deque.BS cells i other a = Ok a' /\
      Z.of_nat (length a') = M /\
      forall j : nat,
        nth_error a' j
        = if (i <=? Z.of_nat j) && (Z.of_nat j <? CircularBuffer.size_ other)
          then nth_error src j else nth_error a j.
Proof.
  intros Hbuf Hlen HM Hsz Hown. pose proof size_max_val as SM.
  induction m as [|m IH]; intros i cells a Hi Hm Hc Hla.
  - exists a.
    destruct cells; cbn [CircularBuffer.copy_blocks];
      (destruct (Z.ltb_spec i (CircularBuffer.size_ other)); [lia|]);
      (split; [reflexivity|]); (split; [exact Hla|]);
      intros j; destruct (Z.leb_spec i (Z.of_nat j)); cbn [andb]; auto;
      destruct (Z.ltb_spec (Z.of_nat j) (CircularBuffer.size_ other)); auto; lia.
  - destruct cells as [|cells]; [lia|].
    cbn [CircularBuffer.copy_blocks].
    destruct (Z.ltb_spec i (CircularBuffer.size_ other)) as [_|]; [|lia].
    rewrite aset_ok by lia. cbn [bind].
    rewrite (aget_ok _ i (Some (Block.make Deque.BS)));
      [| lia | apply nth_error_upd_same; lia].
    cbn [bind CircularBuffer.deref].
    destruct (Hown (Z.to_nat i)) as (b & Hb); [lia|].
    unfold CircularBuffer.block_at, CircularBuffer.slot, CircularBuffer.slots.
    rewrite Hbuf. cbn [bind].
    rewrite (aget_ok src i (Some b)) by (auto; lia).
    cbn [bind CircularBuffer.deref].
    rewrite aset_ok by (rewrite upd_length; lia). cbn [bind].
    rewrite upd_upd, assign_other.
    rewrite (wrap_small (i + 1)) by lia.
    destruct (IH (i + 1) cells (upd a (Z.to_nat i) (Some b)))
      as (a' & E & Hl' & Hslots); try lia; [now rewrite upd_length|].
    exists a'. split; [exact E|]. split; [exact Hl'|].
    intros j. rewrite Hslots.
    destruct (Z.eq_dec (Z.of_nat j) i) as [Ej|Ej].
    + replace j with (Z.to_nat i) by lia.
      rewrite nth_error_upd_same by lia. rewrite Z2Nat.id by lia.
      destruct (Z.leb_spec (i + 1) i); [lia|].
      destruct (Z.leb_spec i i); [|lia].
      destruct (Z.ltb_spec i (CircularBuffer.size_ other)); [|lia].
      cbn [andb]. now rewrite Hb.
    + rewrite nth_error_upd_other by lia.
      destruct (Z.leb_spec (i + 1) (Z.of_nat j));
        destruct (Z.leb_spec i (Z.of_nat j)); try lia; reflexivity.
Qed.

(** The loop of the copy constructor when one of the slots it is to visit
    owns no block: the block of that slot, or of an earlier one, is read
    through an empty pointer. *)
Lemma copy_blocks_fault (other : CircularBuffer.t) (src : list (option Block.t))
      (M i0 : Z) :
  CircularBuffer.buffer_ other = Some src ->
  Z.of_nat (length src) = M -> M < size_max ->
  0 <= i0 < CircularBuffer.size_ other -> CircularBuffer.size_ other <= M ->
  nth_error src (Z.to_nat i0) = Some None ->
  forall (m : nat) (i : Z) (cells : nat) (a : list (option Block.t)),
    0 <= i -> i + Z.of_nat m = i0 ->
    i + Z.of_nat cells = M -> Z.of_nat (length a) = M ->
    CircularBuffer.copy_blocks Deque.BS cells i other a = UB NullDeref.
Proof.
  intros Hbuf Hlen HM Hi0 Hsz Hnone. pose proof size_max_val as SM.
  induction m as [|m IH]; intros i cells a Hi Hm Hc Hla;
    (destruct cells as [|cells]; [lia|]);
    cbn [CircularBuffer.copy_blocks];
    (destruct (Z.ltb_spec i (CircularBuffer.size_ other)) as [_|]; [|lia]);
    rewrite aset_ok by lia; cbn [bind];
    (rewrite (aget_ok _ i (Some (Block.make Deque.BS)));
      [| lia | apply nth_error_upd_same; lia]);
    cbn [bind CircularBuffer.deref];
    unfold CircularBuffer.block_at, CircularBuffer.slot, CircularBuffer.slots;
    rewrite Hbuf; cbn [bind].
  - assert (i = i0) by lia. subst i.
    rewrite (aget_ok src i0 None) by (auto; lia). reflexivity.
  - destruct (nth_error src (Z.to_nat i)) as [[b|]|] eqn:Eb.
    + rewrite (aget_ok src i (Some b)) by (auto; lia).
      cbn [bind CircularBuffer.deref].
      rewrite aset_ok by (rewrite upd_length; lia). cbn [bind].
      rewrite (wrap_small (i + 1)) by lia.
      apply IH; try lia. now rewrite !upd_length.
    + rewrite (aget_ok src i None) by (auto; lia). reflexivity.
    + apply nth_error_None in Eb. lia.
Qed.

Lemma copy_construct_inv (d : Deque.t) (l : list Z) :
  deque_inv d l ->
  let r := Deque.data_proxy_ d in
  (CircularBuffer.head_ r = 0 \/ CircularBuffer.size_ r = CircularBuffer.max_size_ r ->
   Deque.copy_construct d = Ok d) /\
  (CircularBuffer.head_ r <> 0 -> CircularBuffer.size_ r < CircularBuffer.max_size_ r ->
   Deque.copy_construct d = UB NullDeref).
Proof.
  intros (bs & cs & Hring & _) r. fold r in Hring.
  pose proof Hring as (a & Hbuf & Hlen & HM & Hsz & Hn & Hh & Ht & Hslots).
  pose proof size_max_val as SM.
  set (M := CircularBuffer.max_size_ r) in *.
  set (h := CircularBuffer.head_ r) in *.
  set (n := Z.of_nat (length bs)) in *.
  assert (Hslot : forall k, 0 <= k < M ->
            nth_error a (Z.to_nat k) = Some (nth_error bs (Z.to_nat ((k - h) mod M))))
    by (intros k Hk; apply (ring_slot_at r bs a k Hring Hbuf Hk)).
  unfold Deque.copy_construct, CircularBuffer.copy_construct. fold r M.
  split.
  - intros Hcase.
    assert (Hown : forall j : nat, Z.of_nat j < CircularBuffer.size_ r ->
                     exists b, nth_error a j = Some (Some b)).
    { intros j Hj. rewrite Hsz in Hj. fold n in Hj.
      specialize (Hslot (Z.of_nat j) ltac:(lia)). rewrite Nat2Z.id in Hslot.
      rewrite Hslot.
      destruct (ring_pos_back h M (Z.of_nat j)) as [Hb _]; try lia.
      destruct (nth_error bs (Z.to_nat ((Z.of_nat j - h) mod M))) as [b|] eqn:E;
        [eauto|].
      apply nth_error_None in E.
      destruct Hcase as [Hz|Hfull].
      - fold h in Hz. rewrite Hz, Z.sub_0_r, Z.mod_small in E by lia. lia.
      - fold M in Hfull. lia. }
    destruct (copy_blocks_ok r a M Hbuf Hlen HM ltac:(lia) Hown)
      with (m := Z.to_nat n) (i := 0)
           (cells := length (CircularBuffer.new_array M))
           (a := CircularBuffer.new_array M)
      as (a' & E & Hl' & Hcopy); try lia;
      try (unfold CircularBuffer.new_array; rewrite repeat_length; lia).
    rewrite E. cbn [bind].
    assert (a' = a).
    { apply nth_error_ext. intros j. rewrite Hcopy.
      destruct (Z.leb_spec 0 (Z.of_nat j)); [|lia]. cbn [andb].
      destruct (Z.ltb_spec (Z.of_nat j) (CircularBuffer.size_ r)); [reflexivity|].
      destruct (Z_lt_dec (Z.of_nat j) M) as [Hlt|Hge].
      - unfold CircularBuffer.new_array. rewrite nth_error_repeat by lia.
        specialize (Hslot (Z.of_nat j) ltac:(lia)). rewrite Nat2Z.id in Hslot.
        rewrite Hslot. f_equal. symmetry. apply nth_error_None.
        destruct Hcase as [Hz|Hfull].
        + fold h in Hz. rewrite Hz, Z.sub_0_r, Z.mod_small by lia. lia.
        + fold M in Hfull. lia.
      - assert (nth_error a j = None) as -> by (apply nth_error_None; lia).
        apply nth_error_None. unfold CircularBuffer.new_array.
        rewrite repeat_length. lia. }
    subst a'. rewrite <- Hbuf.
    unfold r, M. destruct d as [[s m0 h0 t0 b0] c0]. reflexivity.
  - intros Hnz Hroom. fold h in Hnz. rewrite Hsz in Hroom. fold n in Hroom.
    (* a slot below [size_] that owns no block *)
    assert (Hgap : exists i0, 0 <= i0 < n /\ nth_error a (Z.to_nat i0) = Some None).
    { destruct (Z_le_dec (h + n) M) as [Hfit|Hwrap].
      - exists 0. split; [lia|]. rewrite Hslot by lia.
        f_equal. apply nth_error_None.
        destruct (mod_cases (0 - h) M) as [[? E]|[[? E]|[? E]]]; try lia.
      - exists (h + n - M). split; [lia|]. rewrite Hslot by lia.
        f_equal. apply nth_error_None.
        destruct (mod_cases (h + n - M - h) M) as [[? E]|[[? E]|[? E]]]; try lia. }
    destruct Hgap as (i0 & Hi0 & Hnone).
    rewrite (copy_blocks_fault r a M i0 Hbuf Hlen HM) with (m := Z.to_nat i0);
      try lia; auto;
      try (unfold CircularBuffer.new_array; rewrite repeat_length; lia).
Qed.

(** A copy that returns has a ring whose size field counts the owned slots,
    and so has the destination of a copy assignment. *)
Lemma copy_keeps_consistent (s this c : Deque.t) (l : list Z) :
  deque_inv s l ->
  (Deque.copy_construct s = Ok c -> ring_consistent (Deque.data_proxy_ c)) /\
  (Deque.copy_assign this s = Ok c -> ring_consistent (Deque.data_proxy_ c)).
Proof.
  intros Hinv.
  pose proof Hinv as (bs & cs & Hring & _).
  pose proof (ring_length _ _ Hring) as Hn.
  pose proof Hring as (a & _ & _ & _ & Hsz & _).
  destruct (copy_construct_inv s l Hinv) as [Hok Hub].
  assert (Hcopy : forall c0, Deque.copy_construct s = Ok c0 -> c0 = s).
  { intros c0 E.
    destruct (Z.eq_dec (CircularBuffer.head_ (Deque.data_proxy_ s)) 0) as [Hz|Hnz].
    - rewrite (Hok (or_introl Hz)) in E. now injection E.
    - destruct (Z.eq_dec (CircularBuffer.size_ (Deque.data_proxy_ s))
                         (CircularBuffer.max_size_ (Deque.data_proxy_ s))) as [Hf|Hnf].
      + rewrite (Hok (or_intror Hf)) in E. now injection E.
      + rewrite (Hub Hnz) in E by lia. discriminate. }
  split.
  - intros E. rewrite (Hcopy c E). exact (ring_consistent_inv _ _ Hring).
  - unfold Deque.copy_assign. intros E.
    apply bind_ok in E as (rhs & Er & E).
    rewrite (Hcopy rhs Er) in E. injection E as <-.
    destruct s as [[sz m h t b] n]. exact (ring_consistent_inv _ _ Hring).
Qed.

(** * The claims *)

(** C1 (fails on the code).  A run that never pops more than was pushed is
    expected to read back as the reference list.  After [PushBack(1)] and
    [PopBack()] the only block is left with [head_ = 0] and [tail_] wrapped
    to [2^64 - 1]; [PushFront(2)] then decrements [head_] below 0 and stores
    outside the array, where the reference list is [[2]].  Likewise
    [PushFront(1)], [PopFront()], [PushBack(2)] leaves an emptied head block
    whose [head_] is [BlockSize], and the next [PopFront()] stores outside
    its array. *)
Theorem C1_pop_to_empty_then_push_faults :
  within_contract [OpPushBack 1; OpPopBack; OpPushFront 2] 0 = true /\
  ref_run [OpPushBack 1; OpPopBack; OpPushFront 2] [] = [2] /\
  run [OpPushBack 1; OpPopBack; OpPushFront 2] Deque.make = UB OutOfBounds /\
  within_contract [OpPushFront 1; OpPopFront; OpPushBack 2; OpPopFront] 0 = true /\
  ref_run [OpPushFront 1; OpPopFront; OpPushBack 2; OpPopFront] [] = [] /\
  run [OpPushFront 1; OpPopFront; OpPushBack 2; OpPopFront] Deque.make = UB OutOfBounds.
Proof. repeat split; vm_compute; reflexivity. Qed.

(** C2 (fails on the code).  A block whose size has come back to 0 is
    expected to have [head_] and [tail_] back at 0.  [PopBack] and
    [PopFront] only move one index: after [PushBack(1)], [PopBack()] the
    fields are [head_ = 0], [tail_ = 2^64 - 1], and a [PushFront] stores
    outside the array instead of at [BlockSize - 1]; after [PushBack(1)],
    [PopFront()] they are [head_ = 1], [tail_ = 0], and a [PushBack] sets the
    window to [1, 1] instead of [0, 0]. *)
Theorem C2_pop_does_not_reset_the_window :
  (b <- (b1 <- Block.PushBack 1 (Block.make Deque.BS) ;; Block.PopBack b1) ;;
   Ok (window b)) = Ok (0, 2 ^ 64 - 1, 0) /\
  (b <- (b1 <- Block.PushBack 1 (Block.make Deque.BS) ;; Block.PopBack b1) ;;
   Block.PushFront Deque.BS 2 b) = UB OutOfBounds /\
  (b <- (b1 <- Block.PushBack 1 (Block.make Deque.BS) ;; Block.PopFront b1) ;;
   Ok (window b)) = Ok (1, 0, 0) /\
  (b <- (b1 <- Block.PushBack 1 (Block.make Deque.BS) ;; Block.PopFront b1) ;;
   b' <- Block.PushBack 2 b ;; Ok (window b')) = Ok (1, 1, 1).
Proof. repeat split; vm_compute; reflexivity. Qed.

(** C3 (fails on the code).  A deque built from a literal list is expected
    to read back as that list.  [CircularBuffer(size_t)] sets the ring's
    [size_] to the number of blocks the list will need while it allocates one
    block, so the count runs ahead of the blocks: for a list of 1025 elements
    [size_] reaches [max_size_] = 16 with eight blocks in place,
    [ExpandBuffer] sets [tail_ = size_ - 1 = 15], and the next test
    dereferences the empty slot 15.  A list of 1024 elements still reads
    back. *)
Theorem C3_list_of_1025_elements_faults :
  Deque.make_list (iota 1025) = UB NullDeref /\
  (d <- Deque.make_list (iota 1024) ;; Deque.contents d) = Ok (iota 1024) /\
  (d <- Deque.make_list (iota 1024) ;;
   Ok (Deque.Size d, CircularBuffer.size_ (Deque.data_proxy_ d),
       populated (Deque.data_proxy_ d))) = Ok (1024, 15, 8).
Proof. repeat split; vm_compute; reflexivity. Qed.

(** C4 (fails on the code).  [Deque(n)] is expected to hold [n] default
    values for every [n] and to accept a [PushBack] after them.  The last
    block is built with [elem_count % BlockSize] elements, which is 0 for
    [n = 0] and for a multiple of the block size: [Block(0, filler)] sets
    [tail_ = 2^64 - 1] and its loop stores past the array.  The ring's
    [tail_] is left at 0, so for [n = 130] the first [PushBack(7)] replaces
    the second block: index 128 then reads 7 and index 130 reads 0. *)
Theorem C4_sized_constructor_faults :
  Deque.make_sized 0 = UB OutOfBounds /\
  Deque.make_sized 128 = UB OutOfBounds /\
  (d <- Deque.make_sized 130 ;;
   d' <- Deque.PushBack 7 d ;;
   x <- Deque.index 130 d' ;;
   y <- Deque.index 128 d' ;;
   Ok (Deque.Size d', x, y)) = Ok (131, 0, 7).
Proof. repeat split; vm_compute; reflexivity. Qed.

(** C5 (fails on the code).  Copy construction is expected to copy every
    owned block also when the ring's head is not slot 0.  The copy loop
    walks slots [0 .. size_ - 1]: after [PushBack(1)], [PushFront(2)] the
    blocks are in slots 15 and 0, and the loop dereferences the empty
    slot 1. *)
Theorem C5_copy_of_wrapped_ring_faults :
  (d <- run [OpPushBack 1; OpPushFront 2] Deque.make ;;
   Ok (CircularBuffer.head_ (Deque.data_proxy_ d),
       CircularBuffer.tail_ (Deque.data_proxy_ d),
       CircularBuffer.size_ (Deque.data_proxy_ d),
       owns (Deque.data_proxy_ d) 1)) = Ok (15, 0, 2, false) /\
  (d <- run [OpPushBack 1; OpPushFront 2] Deque.make ;;
   Deque.copy_construct d) = UB NullDeref.
Proof. repeat split; vm_compute; reflexivity. Qed.

(** C6, as stated, fails: the source of a move is not left in the state of
    a default-constructed deque. *)
Lemma C6_moved_from_is_not_the_initial_state :
  snd (Deque.move_construct Deque.make) <> Deque.make /\
  snd (Deque.move_assign Deque.make Deque.make) <> Deque.make /\
  populated (Deque.data_proxy_ (snd (Deque.move_construct Deque.make))) = 0 /\
  CircularBuffer.max_size_ (Deque.data_proxy_ (snd (Deque.move_construct Deque.make))) = 0.
Proof.
  repeat split; try reflexivity; intros H; apply (f_equal Deque.data_proxy_) in H;
    apply (f_equal CircularBuffer.max_size_) in H; vm_compute in H; discriminate.
Qed.

(** C6 (amended).  After move construction or move assignment the
    destination holds the ring and the element count the source had, and the
    source is left with ring size 1, head 0, tail 0, ring capacity 0 and no
    slot array, hence no block; its element count is left as it was. *)
Theorem C6_move_hands_over_the_ring (this d : Deque.t) :
  let hollow :=
    {| Deque.data_proxy_ :=
         {| CircularBuffer.size_ := 1; CircularBuffer.max_size_ := 0;
            CircularBuffer.head_ := 0; CircularBuffer.tail_ := 0;
            CircularBuffer.buffer_ := None |};
       Deque.size_ := Deque.size_ d |} in
  Deque.move_construct d = (d, hollow) /\
  Deque.move_assign this d = (d, hollow).
Proof.
  destruct d as [[s m h t b] n]. split; reflexivity.
Qed.

(** C7 (fails on the code).  [Clear()] is expected to leave the state of a
    default-constructed deque.  It sets the ring's [size_] to 0 where the
    default constructor has 1, with one block in slot 0 in both.  With the
    count one short [IsEmpty] answers for slot 0 instead of the head block:
    after [Clear()], 129 calls of [PushFront] end in a store outside a block,
    where a new deque takes them.  The loop of [Clear] resets slots
    [0 .. size_ - 1] only: a block in slot 15 stays. *)
Theorem C7_clear_leaves_ring_size_zero :
  (d <- Deque.Clear Deque.make ;;
   Ok (CircularBuffer.size_ (Deque.data_proxy_ d),
       populated (Deque.data_proxy_ d))) = Ok (0, 1) /\
  CircularBuffer.size_ (Deque.data_proxy_ Deque.make) = 1 /\
  (d <- Deque.Clear Deque.make ;;
   d' <- run (map OpPushFront (iota 129)) d ;; Ok (Deque.Size d')) = UB OutOfBounds /\
  (d' <- run (map OpPushFront (iota 129)) Deque.make ;; Ok (Deque.Size d')) = Ok 129 /\
  (d <- run [OpPushBack 1; OpPushFront 2] Deque.make ;;
   d' <- Deque.Clear d ;;
   Ok (owns (Deque.data_proxy_ d') 15, populated (Deque.data_proxy_ d'))) = Ok (true, 2).
Proof. repeat split; vm_compute; reflexivity. Qed.

(** C8.  In every state reached from the empty deque by pushes and pops
    that stay within the contract (no pop on an empty deque, fewer than
    [2^64] operations) and return, every block of the ring other than the
    head block and the tail block holds [BlockSize] elements from offset 0
    on, [Size()] is the length of the reference list, and the index
    translation returns, at every valid index, the element the reference list
    has there. *)
Theorem C8_inner_blocks_full_and_index_correct (ops : list op) (d : Deque.t) :
  within_contract ops 0 = true ->
  Z.of_nat (length ops) < size_max ->
  run ops Deque.make = Ok d ->
  inner_blocks_full Deque.BS (Deque.data_proxy_ d) /\
  Deque.Size d = Z.of_nat (length (ref_run ops [])) /\
  forall i, 0 <= i < Deque.Size d ->
            Deque.index i d = Ok (nth (Z.to_nat i) (ref_run ops []) 0).
Proof.
  intros Hc Hb Hrun.
  assert (Hinv : deque_inv d (ref_run ops [])).
  { apply (run_inv ops Deque.make d []); auto using make_inv. }
  pose proof (ref_run_length ops []) as Hlen. simpl in Hlen.
  assert (Hsz : Deque.Size d = Z.of_nat (length (ref_run ops []))).
  { destruct Hinv as (bs & cs & _ & _ & _ & Hsz & _). exact Hsz. }
  split; [exact (inner_blocks_full_inv d _ Hinv)|].
  split; [exact Hsz|].
  intros i Hi. apply index_inv; auto; lia.
Qed.

Lemma C8_inner_blocks_full_and_index_correct_witness :
  within_contract sample_ops 0 = true /\
  Z.of_nat (length sample_ops) < size_max /\
  run sample_ops Deque.make = Ok sample_state /\
  (inner_blocks_full Deque.BS (Deque.data_proxy_ sample_state) /\
   Deque.Size sample_state = Z.of_nat (length (ref_run sample_ops [])) /\
   forall i, 0 <= i < Deque.Size sample_state ->
             Deque.index i sample_state
             = Ok (nth (Z.to_nat i) (ref_run sample_ops []) 0)).
Proof.
  assert (H1 : within_contract sample_ops 0 = true) by (vm_compute; reflexivity).
  assert (H2 : Z.of_nat (length sample_ops) < size_max) by (vm_compute; reflexivity).
  assert (H3 : run sample_ops Deque.make = Ok sample_state) by (vm_compute; reflexivity).
  split; [exact H1|]. split; [exact H2|]. split; [exact H3|].
  apply (C8_inner_blocks_full_and_index_correct sample_ops sample_state H1 H2 H3).
Defined.

(** C9, as stated, fails: a move leaves its source with ring size 1 and no
    slot array, hence no slot that owns a block. *)
Lemma C9_size_field_differs_from_owned_slots :
  ~ ring_consistent (Deque.data_proxy_ (snd (Deque.move_construct Deque.make))) /\
  CircularBuffer.size_ (Deque.data_proxy_ (snd (Deque.move_construct Deque.make))) = 1 /\
  populated (Deque.data_proxy_ (snd (Deque.move_construct Deque.make))) = 0.
Proof.
  split; [|split; vm_compute; reflexivity].
  intros [H _]. vm_compute in H. discriminate.
Qed.

(** C9 (amended).  After the default constructor and after every push and
    pop of a run from the empty deque that stays within the contract and
    returns, the ring's size field is the number of slots that own a block,
    and these slots are exactly those on the way from the ring's head index
    up to its tail index, wrapping at the end of the array.  The same holds
    of every copy of such a deque that the copy constructor returns and of
    the destination of every copy assignment from it that returns.  [Swap]
    exchanges the rings of two such deques and a move hands the ring of one
    over to the destination, so that the deques they leave have the property
    too, the source of the move apart. *)
Theorem C9_ring_size_counts_owned_slots (ops ops' : list op) (d d' : Deque.t) :
  within_contract ops 0 = true ->
  Z.of_nat (length ops) < size_max ->
  run ops Deque.make = Ok d ->
  within_contract ops' 0 = true ->
  Z.of_nat (length ops') < size_max ->
  run ops' Deque.make = Ok d' ->
  ring_consistent (Deque.data_proxy_ Deque.make) /\
  ring_consistent (Deque.data_proxy_ d) /\
  ring_consistent (Deque.data_proxy_ (fst (Deque.Swap d d'))) /\
  ring_consistent (Deque.data_proxy_ (snd (Deque.Swap d d'))) /\
  ring_consistent (Deque.data_proxy_ (fst (Deque.move_construct d))) /\
  ring_consistent (Deque.data_proxy_ (fst (Deque.move_assign d' d))) /\
  (forall c, Deque.copy_construct d = Ok c -> ring_consistent (Deque.data_proxy_ c)) /\
  (forall c, Deque.copy_construct d' = Ok c -> ring_consistent (Deque.data_proxy_ c)) /\
  (forall c, Deque.copy_assign d' d = Ok c -> ring_consistent (Deque.data_proxy_ c)) /\
  (forall c, Deque.copy_assign d d' = Ok c -> ring_consistent (Deque.data_proxy_ c)).
Proof.
  intros Hc Hb Hrun Hc' Hb' Hrun'.
  assert (Hinv : deque_inv d (ref_run ops []))
    by (apply (run_inv ops Deque.make d []); auto using make_inv).
  assert (Hinv' : deque_inv d' (ref_run ops' []))
    by (apply (run_inv ops' Deque.make d' []); auto using make_inv).
  assert (Hreach : forall s l, deque_inv s l -> ring_consistent (Deque.data_proxy_ s)).
  { intros s l (bs & cs & Hring & _). exact (ring_consistent_inv _ _ Hring). }
  pose proof (Hreach d _ Hinv) as Hd.
  pose proof (Hreach d' _ Hinv') as Hd'.
  split; [exact (Hreach Deque.make [] make_inv)|].
  split; [exact Hd|].
  split; [destruct d as [[s m h t b] n], d' as [[s' m' h' t' b'] n']; exact Hd'|].
  split; [destruct d as [[s m h t b] n], d' as [[s' m' h' t' b'] n']; exact Hd|].
  split; [destruct d as [[s m h t b] n]; exact Hd|].
  split; [destruct d as [[s m h t b] n], d' as [[s' m' h' t' b'] n']; exact Hd|].
  split; [intros c; apply (proj1 (copy_keeps_consistent d d c _ Hinv))|].
  split; [intros c; apply (proj1 (copy_keeps_consistent d' d' c _ Hinv'))|].
  split; [intros c; apply (proj2 (copy_keeps_consistent d d' c _ Hinv))|].
  intros c; apply (proj2 (copy_keeps_consistent d' d c _ Hinv')).
Qed.

Lemma C9_ring_size_counts_owned_slots_witness :
  within_contract sample_ops 0 = true /\
  Z.of_nat (length sample_ops) < size_max /\
  run sample_ops Deque.make = Ok sample_state /\
  within_contract [OpPushFront 7] 0 = true /\
  Z.of_nat (length [OpPushFront 7]) < size_max /\
  run [OpPushFront 7] Deque.make = Ok small_state /\
  (ring_consistent (Deque.data_proxy_ Deque.make) /\
   ring_consistent (Deque.data_proxy_ sample_state) /\
   ring_consistent (Deque.data_proxy_ (fst (Deque.Swap sample_state small_state))) /\
   ring_consistent (Deque.data_proxy_ (snd (Deque.Swap sample_state small_state))) /\
   ring_consistent (Deque.data_proxy_ (fst (Deque.move_construct sample_state))) /\
   ring_consistent (Deque.data_proxy_ (fst (Deque.move_assign small_state sample_state))) /\
   (forall c, Deque.copy_construct sample_state = Ok c ->
              ring_consistent (Deque.data_proxy_ c)) /\
   (forall c, Deque.copy_construct small_state = Ok c ->
              ring_consistent (Deque.data_proxy_ c)) /\
   (forall c, Deque.copy_assign small_state sample_state = Ok c ->
              ring_consistent (Deque.data_proxy_ c)) /\
   (forall c, Deque.copy_assign sample_state small_state = Ok c ->
              ring_consistent (Deque.data_proxy_ c))).
Proof.
  assert (H1 : within_contract sample_ops 0 = true) by (vm_compute; reflexivity).
  assert (H2 : Z.of_nat (length sample_ops) < size_max) by (vm_compute; reflexivity).
  assert (H3 : run sample_ops Deque.make = Ok sample_state) by (vm_compute; reflexivity).
  assert (H4 : within_contract [OpPushFront 7] 0 = true) by (vm_compute; reflexivity).
  assert (H5 : Z.of_nat (length [OpPushFront 7]) < size_max) by (vm_compute; reflexivity).
  assert (H6 : run [OpPushFront 7] Deque.make = Ok small_state) by (vm_compute; reflexivity).
  split; [exact H1|]. split; [exact H2|]. split; [exact H3|].
  split; [exact H4|]. split; [exact H5|]. split; [exact H6|].
  apply (C9_ring_size_counts_owned_slots sample_ops [OpPushFront 7]
           sample_state small_state H1 H2 H3 H4 H5 H6).
Defined.

(** C10 (fails on the code).  The [IsEmpty] test of [PushFront] is expected
    to look at a slot that owns a block.  It looks at slot 0 whenever the
    ring's [size_] is 1.  After [PushFront(1)], [PushBack(2)], [PopFront()]
    the block of slot 0 has been deleted and the only block is in slot 1:
    [IsEmpty], and with it the next [PushFront], dereferences the empty
    slot 0. *)
Theorem C10_IsEmpty_reads_the_vacated_slot_0 :
  (d <- run [OpPushFront 1; OpPushBack 2; OpPopFront] Deque.make ;;
   Ok (CircularBuffer.size_ (Deque.data_proxy_ d),
       CircularBuffer.head_ (Deque.data_proxy_ d),
       owns (Deque.data_proxy_ d) 0,
       owns (Deque.data_proxy_ d) 1)) = Ok (1, 1, false, true) /\
  (d <- run [OpPushFront 1; OpPushBack 2; OpPopFront] Deque.make ;;
   CircularBuffer.IsEmpty (Deque.data_proxy_ d)) = UB NullDeref /\
  run [OpPushFront 1; OpPushBack 2; OpPopFront; OpPushFront 3] Deque.make
  = UB NullDeref.
Proof. repeat split; vm_compute; reflexivity. Qed.

(** * Further properties *)

(** ** Calls that always return *)

(** [PushBack] on a deque that satisfies the representation returns, and
    either extends the tail block or starts a new one after it. *)
Lemma PushBack_fwd (d : Deque.t) (bs0 : list Block.t) (t : Block.t)
      (cs0 : list (list Z)) (ct : list Z) (v : Z) :
  let r := Deque.data_proxy_ d in
  ring_inv r (bs0 ++ [t]) ->
  layout Deque.BS (bs0 ++ [t]) (cs0 ++ [ct]) ->
  Deque.size_ d = Z.of_nat (length (concat (cs0 ++ [ct]))) ->
  Deque.size_ d + 1 < size_max ->
  2 <= CircularBuffer.max_size_ r <= 2 ^ 59 ->
  exists d' t',
    Deque.PushBack v d = Ok d' /\
    Deque.size_ d' = Deque.size_ d + 1 /\
    2 <= CircularBuffer.max_size_ (Deque.data_proxy_ d') <= 2 ^ 59 /\
    (Z.of_nat (length (bs0 ++ [t])) < CircularBuffer.max_size_ r ->
     CircularBuffer.max_size_ (Deque.data_proxy_ d') = CircularBuffer.max_size_ r) /\
    ((Block.head_ t + Block.size_ t < Deque.BS /\
      ring_inv (Deque.data_proxy_ d') (bs0 ++ [t']) /\
      layout Deque.BS (bs0 ++ [t']) (cs0 ++ [ct ++ [v]]) /\
      Block.head_ t' = Block.head_ t) \/
     (Deque.BS <= Block.head_ t + Block.size_ t /\
      ring_inv (Deque.data_proxy_ d') ((bs0 ++ [t]) ++ [t']) /\
      layout Deque.BS ((bs0 ++ [t]) ++ [t']) ((cs0 ++ [ct]) ++ [[v]]) /\
      Block.head_ t' = 0)).
Proof.
  intros r Hring Hlay Hsz Hbound HM.
  pose proof size_max_val as SM.
  pose proof BS_pos as HC0. pose proof BS_small as HC1.
  destruct (layout_tail_block _ _ _ _ _ Hlay) as (Ht & Hshape & Hback & Hnil).
  assert (Hcount : Z.of_nat (length (concat (cs0 ++ [ct]))) < size_max) by lia.
  unfold Deque.PushBack. fold r.
  destruct (grow_step d _ _ (CircularBuffer.IsTailDataBlockFull Deque.BS r) t
                      Hring Hlay Hcount HM) as (r1 & E1 & Hr1 & HM1 & Hroom).
  { unfold CircularBuffer.IsTailDataBlockFull.
    now rewrite (ring_tail_block _ _ _ Hring). }
  assert (Hsame : Z.of_nat (length (bs0 ++ [t])) < CircularBuffer.max_size_ r ->
                  r1 = r).
  { intros Hlt. fold r in E1.
    rewrite (ring_IsFull r _ Hring) in E1.
    destruct (Z.eqb_spec (Z.of_nat (length (bs0 ++ [t]))) (CircularBuffer.max_size_ r));
      [lia|]. now injection E1. }
  fold r in E1. rewrite E1. cbn [bind]. clear E1.
  unfold CircularBuffer.IsTailDataBlockFull, CircularBuffer.TailIsUsedHead.
  rewrite (ring_tail_block _ _ _ Hr1). cbn [bind].
  rewrite (IsFull_rep _ _ _ Ht). rewrite (IsFull_rep _ _ _ Ht) in Hroom.
  rewrite (IsRightClose_rep _ HC1 _ _ Ht).
  pose proof Ht as (_ & Hsize & Hh0 & Hfit & _).
  assert (Hadd : exists add,
             (if Z.of_nat (length ct) =? Deque.BS then Ok true
              else Ok (Deque.BS <=? Block.head_ t + Z.of_nat (length ct)))
             = @Ok bool add /\
             (add = true <-> Deque.BS <= Block.head_ t + Block.size_ t)).
  { destruct (Z.eqb_spec (Z.of_nat (length ct)) Deque.BS).
    - exists true. split; auto. split; auto. lia.
    - eexists. split; [reflexivity|]. rewrite Hsize. apply Z.leb_le. }
  destruct Hadd as (add & Eadd & Hadd). rewrite Eadd. cbn [bind]. clear Eadd.
  destruct add.
  - assert (Hclose : Deque.BS <= Block.head_ t + Block.size_ t) by now apply Hadd.
    assert (Hlt : Z.of_nat (length (bs0 ++ [t])) < CircularBuffer.max_size_ r1).
    { destruct (Z.eqb_spec (Z.of_nat (length ct)) Deque.BS) as [E|E]; [auto|].
      destruct bs0 as [|b0 bs0'].
      - simpl. lia.
      - destruct Hback as [Hb0 _]; [discriminate|]. lia. }
    destruct (ring_AddTailDataBlock Deque.BS r1 _ Hr1 Hlt) as (r2 & E2 & Hr2 & HM2).
    rewrite E2. cbn [bind].
    rewrite (ring_GetTailDataBlock Deque.BS r2 _ Hr2). cbn [bind].
    destruct (make_rep Deque.BS HC0) as [Hfresh Hprist].
    destruct (Block_PushBack_rep Deque.BS HC0 HC1 (Block.make Deque.BS) [] v Hfresh)
      as (b' & Eb & Hb' & Hsync' & Hhead'); auto.
    destruct (ring_at_tail r2 _ _ b' _ Hr2 Eb) as (r4 & E4 & Hr4 & HM4 & _).
    rewrite E4. cbn [bind].
    eexists. exists b'. split; [reflexivity|].
    cbn [Deque.data_proxy_ Deque.size_].
    split; [rewrite wrap_small; lia|]. split; [lia|].
    split; [intros Hl; rewrite (Hsame Hl) in *; lia|].
    right. split; [exact Hclose|]. split; [exact Hr4|].
    split; [|exact Hhead'].
    apply layout_add_tail; auto.
    unfold back_ok. unfold synced in Hsync'.
    destruct Hb' as (_ & Hs' & _).
    rewrite Hhead' in *. simpl Block.head_ in *. split; auto.
  - assert (Hopen : Block.head_ t + Block.size_ t < Deque.BS).
    { destruct (Z_lt_dec (Block.head_ t + Block.size_ t) Deque.BS); auto.
      assert (false = true) by (apply Hadd; lia). discriminate. }
    cbn [bind].
    rewrite (ring_GetTailDataBlock Deque.BS r1 _ Hr1). cbn [bind].
    destruct (Block_PushBack_rep Deque.BS HC0 HC1 t ct v Ht Hshape Hopen)
      as (b' & Eb & Hb' & Hsync' & Hhead').
    destruct (ring_at_tail r1 _ _ b' _ Hr1 Eb) as (r4 & E4 & Hr4 & HM4 & _).
    rewrite E4. cbn [bind].
    eexists. exists b'. split; [reflexivity|].
    cbn [Deque.data_proxy_ Deque.size_].
    split; [rewrite wrap_small; lia|]. split; [lia|].
    split; [intros Hl; rewrite (Hsame Hl) in *; lia|].
    left. split; [exact Hopen|]. split; [exact Hr4|].
    split; [|exact Hhead'].
    apply (layout_set_tail Deque.BS bs0 t b' cs0 ct); auto.
Qed.

(** [PushBack] never faults on a deque that satisfies the representation. *)
Lemma PushBack_returns (d : Deque.t) (l : list Z) (v : Z) :
  deque_inv d l -> Z.of_nat (length l) + 1 < size_max ->
  exists d', Deque.PushBack v d = Ok d' /\ deque_inv d' (l ++ [v]).
Proof.
  intros Hinv Hbound.
  pose proof Hinv as (bs & cs & Hring & Hlay & Hl & Hsz & HM).
  destruct (layout_as_snoc _ _ _ Hlay) as (bs0 & t & cs0 & ct & -> & ->).
  destruct (PushBack_fwd d bs0 t cs0 ct v Hring Hlay) as (d' & t' & E & _);
    try lia; try (rewrite <- Hl; lia).
  exists d'. split; [exact E|].
  apply (PushBack_inv d d' l v); auto.
Qed.

(** [PopBack] returns when the tail block holds an element, and either
    shortens the tail block or, when it becomes empty and other elements
    remain, deletes it. *)
Lemma PopBack_fwd (d : Deque.t) (bs0 : list Block.t) (t : Block.t)
      (cs0 : list (list Z)) (ct : list Z) (x : Z) :
  let r := Deque.data_proxy_ d in
  ring_inv r (bs0 ++ [t]) ->
  layout Deque.BS (bs0 ++ [t]) (cs0 ++ [ct ++ [x]]) ->
  Deque.size_ d = Z.of_nat (length (concat (cs0 ++ [ct ++ [x]]))) ->
  Deque.size_ d < size_max ->
  exists d',
    Deque.PopBack d = Ok d' /\
    Deque.size_ d' = Deque.size_ d - 1 /\
    CircularBuffer.max_size_ (Deque.data_proxy_ d') = CircularBuffer.max_size_ r /\
    ((ct = [] /\ bs0 <> [] /\
      ring_inv (Deque.data_proxy_ d') bs0 /\ layout Deque.BS bs0 cs0) \/
     ((ct <> [] \/ Deque.size_ d <= 1) /\
      exists t', ring_inv (Deque.data_proxy_ d') (bs0 ++ [t']) /\
                 layout Deque.BS (bs0 ++ [t']) (cs0 ++ [ct]) /\
                 Block.head_ t' = Block.head_ t)).
Proof.
  intros r Hring Hlay Hsz Hbound.
  pose proof size_max_val as SM.
  pose proof BS_pos as HC0. pose proof BS_small as HC1.
  destruct (layout_tail_block _ _ _ _ _ Hlay) as (Ht & Hshape & Hback & Hnil).
  unfold Deque.PopBack. fold r.
  rewrite (ring_GetTailDataBlock Deque.BS _ _ Hring). cbn [bind].
  assert (Hsync : synced t).
  { destruct Hshape as [|Hp]; auto.
    apply (pristine_size _ _ _ Ht) in Hp. destruct ct; discriminate. }
  destruct (Block_PopBack_rep Deque.BS HC1 t ct x Ht Hsync)
    as (b' & Eb & Hb' & Hsync' & Hhead').
  destruct (ring_at_tail _ _ _ b' _ Hring Eb) as (r2 & E2 & Hr2 & HM2 & Htl2).
  rewrite E2. cbn [bind].
  unfold CircularBuffer.read_ptr.
  rewrite <- Htl2.
  rewrite (ring_tail_block _ _ _ Hr2). cbn [bind].
  rewrite (IsEmpty_rep _ _ _ Hb').
  assert (Hlen : Deque.size_ d = Z.of_nat (length (concat cs0))
                                 + Z.of_nat (length ct) + 1).
  { rewrite Hsz, concat_app. cbn [concat]. rewrite app_nil_r, !length_app.
    cbn [length]. lia. }
  destruct ((Z.of_nat (length ct) =? 0) && (Deque.size_ d >? 1)) eqn:Edel.
  - apply andb_prop in Edel. destruct Edel as [Ez Eg].
    apply Z.eqb_eq in Ez. rewrite Z.gtb_ltb in Eg. apply Z.ltb_lt in Eg.
    assert (ct = []) by (destruct ct; [auto | simpl in Ez; lia]). subst ct.
    assert (Hbs0 : bs0 <> []).
    { intros ->. rewrite Hnil in Hlen by reflexivity. simpl in Hlen. lia. }
    destruct (ring_DeleteDataBlockFromTail r2 _ Hr2) as (r3 & E3 & Hr3 & HM3).
    { rewrite length_app. simpl. destruct bs0; [congruence | simpl; lia]. }
    rewrite E3. cbn [bind].
    rewrite removelast_last in Hr3.
    eexists. split; [reflexivity|].
    cbn [Deque.data_proxy_ Deque.size_].
    split; [rewrite wrap_small; lia|]. split; [congruence|].
    left. split; auto. split; auto. split; [exact Hr3|].
    apply (layout_drop_tail Deque.BS HC0 HC1 bs0 t cs0 ([] ++ [x])); auto.
  - cbn [bind].
    eexists. split; [reflexivity|].
    cbn [Deque.data_proxy_ Deque.size_].
    split; [rewrite wrap_small; lia|]. split; [congruence|].
    right. split.
    + apply andb_false_iff in Edel. destruct Edel as [Ez|Eg].
      * left. intros ->. simpl in Ez. discriminate.
      * right. rewrite Z.gtb_ltb in Eg. apply Z.ltb_ge in Eg. exact Eg.
    + exists b'. split; [exact Hr2|]. split; [|exact Hhead'].
      apply (layout_set_tail Deque.BS bs0 t b' cs0 (ct ++ [x])); auto.
Qed.

Lemma layout_lengths (C : Z) (bs : list Block.t) (cs : list (list Z)) :
  layout C bs cs -> length bs = length cs.
Proof.
  intros H. inversion H as [|h ch mids cms t ct _ _ Hm _ _]; subst; [reflexivity|].
  apply Forall2_length in Hm. cbn [length]. rewrite !length_app. cbn [length]. lia.
Qed.

Lemma stack_inv_deque_inv (d : Deque.t) (l : list Z) :
  stack_inv d l -> deque_inv d l.
Proof.
  intros (bs0 & t & cs0 & ct & Hring & Hlay & Hl & Hsz & HM & _).
  exists (bs0 ++ [t]), (cs0 ++ [ct]). auto.
Qed.

Lemma make_stack_inv : stack_inv Deque.make [].
Proof.
  destruct make_inv as (bs & cs & Hring & Hlay & Hl & Hsz & HM).
  assert (Hone : bs = [Block.make Deque.BS] /\ cs = [[]]).
  { pose proof (ring_head_block (Deque.data_proxy_ Deque.make)) as Hhb.
    destruct (layout_as_cons _ _ _ Hlay) as (h & bs1 & ch & cs1 & -> & ->).
    specialize (Hhb h bs1 Hring).
    assert (Hn : Z.of_nat (length (h :: bs1)) = 1).
    { destruct Hring as (a & _ & _ & _ & Hs & _). rewrite <- Hs. reflexivity. }
    destruct bs1; [|cbn [length] in Hn; lia].
    apply layout_head_cases in Hlay.
    destruct Hlay as [(_ & -> & Hr & _) | (mids & ? & ? & ? & E & _)];
      [|destruct mids; discriminate].
    assert (ch = []) by (destruct ch; [reflexivity | discriminate]). subst ch.
    vm_compute in Hhb. injection Hhb as <-. split; reflexivity. }
  destruct Hone as [-> ->].
  exists [], (Block.make Deque.BS), [], [].
  split; [exact Hring|]. split; [exact Hlay|]. split; [reflexivity|].
  split; [exact Hsz|]. split; [exact HM|].
  split; [constructor; [reflexivity | constructor]|].
  split; [constructor|]. split; [reflexivity | congruence].
Qed.

Lemma stack_PushBack (d : Deque.t) (l : list Z) (v : Z) :
  stack_inv d l -> Z.of_nat (length l) + 1 < size_max ->
  exists d',
    Deque.PushBack v d = Ok d' /\ stack_inv d' (l ++ [v]) /\
    (CircularBuffer.size_ (Deque.data_proxy_ d)
     < CircularBuffer.max_size_ (Deque.data_proxy_ d) ->
     CircularBuffer.max_size_ (Deque.data_proxy_ d')
     = CircularBuffer.max_size_ (Deque.data_proxy_ d)).
Proof.
  intros (bs0 & t & cs0 & ct & Hring & Hlay & Hl & Hsz & HM & Hheads & Hfull & Hlens & Hne)
         Hbound.
  pose proof BS_pos as HC0.
  destruct (PushBack_fwd d bs0 t cs0 ct v Hring Hlay)
    as (d' & t' & E & Hsz' & HM' & Hkeep & Hcase); try lia; try (rewrite <- Hl; lia).
  exists d'. split; [exact E|].
  split;
    [| intros Hlt; apply Hkeep; destruct Hring as (a & _ & _ & _ & Hs & _);
       rewrite <- Hs; exact Hlt].
  apply Forall_app in Hheads. destruct Hheads as [Hh0 Ht0].
  pose proof (Forall_inv Ht0) as Htz. cbn beta in Htz.
  assert (Hsize' : Deque.size_ d' = Z.of_nat (length (l ++ [v]))).
  { rewrite length_app. cbn [length]. lia. }
  destruct Hcase as [(Hopen & Hr' & Hlay' & Hhd) | (Hclose & Hr' & Hlay' & Hhd)].
  - exists bs0, t', cs0, (ct ++ [v]).
    split; [exact Hr'|]. split; [exact Hlay'|].
    split; [now rewrite concat_snoc_app, Hl|].
    split; [exact Hsize'|]. split; [exact HM'|].
    split; [apply Forall_app; split; auto; constructor; [congruence | constructor]|].
    split; [exact Hfull|]. split; [exact Hlens|].
    intros _. destruct ct; discriminate.
  - exists (bs0 ++ [t]), t', (cs0 ++ [ct]), [v].
    split; [exact Hr'|]. split; [exact Hlay'|].
    split; [now rewrite concat_snoc_new, Hl|].
    split; [exact Hsize'|]. split; [exact HM'|].
    split.
    { apply Forall_app; split; [apply Forall_app; split; auto|];
        constructor; auto. }
    split.
    { apply Forall_app; split; auto. constructor; [|constructor].
      destruct (layout_tail_block _ _ _ _ _ Hlay) as ((_ & Hs & _ & Hfit & _) & _).
      lia. }
    split; [rewrite !length_app; cbn [length]; lia|].
    intros _. discriminate.
Qed.

Lemma stack_PopBack (d : Deque.t) (l : list Z) :
  stack_inv d l -> l <> [] -> Z.of_nat (length l) < size_max ->
  exists d', Deque.PopBack d = Ok d' /\ stack_inv d' (removelast l).
Proof.
  intros (bs0 & t & cs0 & ct & Hring & Hlay & Hl & Hsz & HM & Hheads & Hfull & Hlens & Hne)
         Hnil Hbound.
  pose proof BS_pos as HC0.
  assert (Hct : ct <> []).
  { destruct bs0 as [|b0 bs0']; [|apply Hne; discriminate].
    destruct cs0; [|discriminate].
    intros ->. apply Hnil. rewrite Hl. reflexivity. }
  destruct (exists_last Hct) as (ct' & x & ->).
  subst l.
  destruct (PopBack_fwd d bs0 t cs0 ct' x Hring Hlay)
    as (d' & E & Hsz' & HM' & Hcase); try lia.
  exists d'. split; [exact E|].
  apply Forall_app in Hheads. destruct Hheads as [Hh0 Ht0].
  pose proof (Forall_inv Ht0) as Htz. cbn beta in Htz.
  assert (Hrl : removelast (concat (cs0 ++ [ct' ++ [x]])) = concat (cs0 ++ [ct'])).
  { rewrite concat_snoc_app. apply removelast_last. }
  assert (Hsize' : Deque.size_ d' = Z.of_nat (length (concat (cs0 ++ [ct'])))).
  { rewrite Hsz', Hsz, concat_snoc_app, length_app. cbn [length]. lia. }
  rewrite Hrl.
  destruct Hcase as [(-> & Hbs0 & Hr' & Hlay') | (Hkeep & t' & Hr' & Hlay' & Hhd)].
  - (* the tail block was deleted: the block before it is the tail block *)
    destruct (exists_last Hbs0) as (bs00 & t0 & ->).
    assert (Hcs0 : cs0 <> []) by (destruct cs0; [rewrite length_app in Hlens; simpl in Hlens; lia | discriminate]).
    destruct (exists_last Hcs0) as (cs00 & ct0 & ->).
    apply Forall_app in Hfull. destruct Hfull as [Hf00 Hf0].
    pose proof (Forall_inv Hf0) as Hlen0. cbn beta in Hlen0.
    exists bs00, t0, cs00, ct0.
    split; [exact Hr'|]. split; [exact Hlay'|].
    split; [now rewrite concat_snoc_nil|].
    split; [now rewrite Hsize', concat_snoc_nil|].
    split; [rewrite HM'; exact HM|].
    split; [exact Hh0|]. split; [exact Hf00|].
    split; [rewrite !length_app in Hlens; cbn [length] in Hlens; lia|].
    intros _ ->. simpl in Hlen0. lia.
  - exists bs0, t', cs0, ct'.
    split; [exact Hr'|]. split; [exact Hlay'|].
    split; [reflexivity|].
    split; [exact Hsize'|]. split; [rewrite HM'; exact HM|].
    split; [apply Forall_app; split; auto; constructor; [congruence | constructor]|].
    split; [exact Hfull|]. split; [exact Hlens|].
    intros Hb0 ->.
    destruct Hkeep as [Hk|Hk]; [congruence|].
    (* a full block before the tail block holds more than one element *)
    destruct cs0 as [|c0 cs0']; [destruct bs0; [congruence | discriminate]|].
    pose proof (Forall_inv Hfull) as Hlen0. cbn beta in Hlen0.
    rewrite Hsz in Hk. cbn [concat app] in Hk. rewrite length_app in Hk.
    pose proof BS_val. lia.
Qed.

Lemma back_only_run (ops : list op) :
  forall (d : Deque.t) (l : list Z),
    stack_inv d l ->
    back_only ops = true ->
    within_contract ops (length l) = true ->
    Z.of_nat (length l) + Z.of_nat (length ops) < size_max ->
    exists d', run ops d = Ok d' /\ stack_inv d' (ref_run ops l).
Proof.
  induction ops as [|o ops IH]; intros d l Hinv Hb Hc Hbound.
  - exists d. split; [reflexivity | exact Hinv].
  - cbn [back_only forallb] in Hb. apply andb_prop in Hb. destruct Hb as [Ho Hb].
    cbn [length] in Hbound. cbn [run ref_run].
    destruct o as [v|v| |]; try discriminate;
      cbn [step ref_apply within_contract] in *.
    + destruct (stack_PushBack d l v Hinv) as (d1 & E1 & Hinv1 & _); [lia|].
      rewrite E1. cbn [bind].
      apply IH; auto.
      * rewrite length_app. cbn [length]. now rewrite Nat.add_1_r.
      * rewrite length_app. cbn [length]. lia.
    + apply within_contract_pop in Hc. destruct Hc as (Hne & Hc & _ & Hlt & _).
      destruct (stack_PopBack d l Hinv Hne) as (d1 & E1 & Hinv1); [lia|].
      rewrite E1. cbn [bind].
      apply IH; auto. lia.
Qed.

(** ** Reading the whole deque *)

Lemma skipn_nth_cons (l : list Z) (i : nat) :
  (i < length l)%nat -> skipn i l = nth i l 0 :: skipn (S i) l.
Proof.
  revert i. induction l as [|x l IH]; intros [|i] H; simpl in *; try lia; auto.
  apply IH. lia.
Qed.

Lemma read_from_inv (d : Deque.t) (l : list Z) :
  deque_inv d l -> Z.of_nat (length l) < size_max ->
  forall (n : nat) (i : Z),
    0 <= i -> i + Z.of_nat n <= Z.of_nat (length l) ->
    Deque.read_from n i d = Ok (firstn n (skipn (Z.to_nat i) l)).
Proof.
  intros Hinv Hbound. induction n as [|n IH]; intros i Hi Hn; [reflexivity|].
  cbn [Deque.read_from].
  rewrite (index_inv d l i Hinv Hbound) by lia. cbn [bind].
  rewrite IH by lia. cbn [bind].
  rewrite (skipn_nth_cons l (Z.to_nat i)) by lia.
  cbn [firstn]. repeat f_equal. lia.
Qed.

Lemma contents_inv (d : Deque.t) (l : list Z) :
  deque_inv d l -> Z.of_nat (length l) < size_max ->
  Deque.contents d = Ok l.
Proof.
  intros Hinv Hbound.
  pose proof Hinv as (_ & _ & _ & _ & _ & Hsz & _).
  unfold Deque.contents, Deque.Size. rewrite Hsz, Nat2Z.id.
  rewrite (read_from_inv d l Hinv Hbound) by lia.
  cbn [Z.to_nat skipn]. now rewrite firstn_all.
Qed.

(** ** The sized constructors *)

Section Filling.
Variable C : Z.
Hypothesis C_pos : 0 < C.
Hypothesis C_small : C < 2 ^ 32.

(** The fill loop of [Block(size_t, int)]: it returns exactly when the
    last index to fill lies inside the array. *)
Lemma fill_spec (tail filler : Z) :
  0 <= tail < size_max ->
  forall (cells : nat) (i : Z) (data : list Z),
    Z.of_nat (length data) = C -> 0 <= i -> i + Z.of_nat cells = C ->
    i <= tail + 1 ->
    (tail < C ->
     exists data',
       Block.fill cells i tail filler data = Ok data' /\
       Z.of_nat (length data') = C /\
       forall k : nat,
         nth_error data' k
         = if (i <=? Z.of_nat k) && (Z.of_nat k <=? tail)
           then (if Z.of_nat k <? C then Some filler else None)
           else nth_error data k) /\
    (C <= tail -> Block.fill cells i tail filler data = UB OutOfBounds).
Proof.
  intros Htail. pose proof size_max_val as SM.
  induction cells as [|cells IH]; intros i data Hlen Hi Hsum Hle.
  - cbn [Block.fill]. split.
    + intros Hlt. destruct (Z.leb_spec i tail); [lia|].
      exists data. split; [reflexivity|]. split; [exact Hlen|].
      intros k. destruct (Z.leb_spec i (Z.of_nat k)); cbn [andb]; auto.
      destruct (Z.leb_spec (Z.of_nat k) tail); auto. lia.
    + intros Hge. destruct (Z.leb_spec i tail); [reflexivity | lia].
  - cbn [Block.fill].
    destruct (Z.leb_spec i tail) as [Hin|Hout].
    + rewrite aset_ok by lia. cbn [bind].
      rewrite (wrap_small (i + 1)) by lia.
      destruct (IH (i + 1) (upd data (Z.to_nat i) filler)) as [IHok IHub];
        try lia; [now rewrite upd_length|].
      split.
      * intros Hlt. destruct (IHok Hlt) as (data' & E & Hl' & Hcells).
        exists data'. split; [exact E|]. split; [exact Hl'|].
        intros k. rewrite Hcells.
        destruct (Z.eq_dec (Z.of_nat k) i) as [Ek|Ek].
        -- replace k with (Z.to_nat i) by lia.
           rewrite nth_error_upd_same by lia.
           rewrite Z2Nat.id by lia.
           destruct (Z.leb_spec (i + 1) i); [lia|].
           destruct (Z.leb_spec i i); [|lia].
           destruct (Z.leb_spec i tail); [|lia]. cbn [andb].
           destruct (Z.ltb_spec i C); [reflexivity | lia].
        -- rewrite nth_error_upd_other by lia.
           destruct (Z.leb_spec (i + 1) (Z.of_nat k));
             destruct (Z.leb_spec i (Z.of_nat k)); try lia; reflexivity.
      * exact IHub.
    + split.
      * intros _. exists data. split; [reflexivity|]. split; [exact Hlen|].
        intros k. destruct (Z.leb_spec i (Z.of_nat k)); cbn [andb]; auto.
        destruct (Z.leb_spec (Z.of_nat k) tail); auto. lia.
      * intros Hge. lia.
Qed.

(** [Block(size, filler)] with a size from 1 to the capacity holds that
    many copies of the filler from offset 0 on. *)
Lemma Block_make_filled_ok (s filler : Z) :
  1 <= s <= C ->
  exists b,
    Block.make_filled C s filler = Ok b /\
    block_rep C b (repeat filler (Z.to_nat s)) /\
    Block.head_ b = 0 /\ Block.tail_ b = s - 1 /\ Block.size_ b = s.
Proof.
  intros Hs. pose proof size_max_val as SM.
  unfold Block.make_filled.
  rewrite (wrap_small (s - 1)) by lia.
  destruct (fill_spec (s - 1) filler) with
    (cells := length (repeat 0 (Z.to_nat C))) (i := 0)
    (data := repeat 0 (Z.to_nat C)) as [Hok _];
    try (rewrite repeat_length; lia); try lia.
  destruct Hok as (data' & E & Hl' & Hcells); [lia|].
  rewrite E. cbn [bind].
  eexists. split; [reflexivity|].
  split; [|cbn; auto].
  unfold block_rep. cbn [Block.data_ Block.size_ Block.head_].
  rewrite repeat_length.
  split; [exact Hl'|]. split; [lia|]. split; [lia|]. split; [lia|].
  intros i Hi. cbn [Z.to_nat Nat.add]. rewrite Hcells.
  destruct (Z.leb_spec 0 (Z.of_nat i)); [|lia].
  destruct (Z.leb_spec (Z.of_nat i) (s - 1)); [|lia]. cbn [andb].
  destruct (Z.ltb_spec (Z.of_nat i) C); [|lia].
  symmetry. rewrite nth_error_repeat by lia. reflexivity.
Qed.

(** With size 0, or a size above the capacity, the fill loop of
    [Block(size, filler)] runs past the array. *)
Lemma Block_make_filled_fault (s filler : Z) :
  0 <= s < size_max -> s = 0 \/ C < s ->
  Block.make_filled C s filler = UB OutOfBounds.
Proof.
  intros Hs Hbad. pose proof size_max_val as SM.
  unfold Block.make_filled.
  assert (Ht : 0 <= wrap (s - 1) < size_max /\ C <= wrap (s - 1)).
  { destruct Hbad as [->|Hgt].
    - rewrite (wrap_below (0 - 1)) by lia. lia.
    - rewrite wrap_small by lia. lia. }
  destruct (fill_spec (wrap (s - 1)) filler) with
    (cells := length (repeat 0 (Z.to_nat C))) (i := 0)
    (data := repeat 0 (Z.to_nat C)) as [_ Hub];
    try (rewrite repeat_length; lia); try lia.
  rewrite Hub by lia. reflexivity.
Qed.
End Filling.

Lemma GetBlocksCount_spec (n : Z) :
  0 <= n < size_max ->
  let k := CircularBuffer.GetBlocksCount n in
  1 <= k <= 2 ^ 57 /\
  (n mod Deque.BS = 0 -> 0 < n -> n = Deque.BS * k) /\
  (n mod Deque.BS <> 0 -> n = Deque.BS * (k - 1) + n mod Deque.BS).
Proof.
  intros Hn k. pose proof size_max_val as SM.
  unfold k, CircularBuffer.GetBlocksCount.
  change deque_settings.kBlockSize with 128. rewrite BS_val.
  destruct (Z.eqb_spec n 0) as [->|Hne].
  - cbn. repeat split; try lia; discriminate.
  - rewrite (wrap_small (n - 1)) by lia.
    assert (0 <= (n - 1) / 128 < 2 ^ 57).
    { split; [apply Z.div_pos; lia|].
      apply Z.div_lt_upper_bound; lia. }
    rewrite wrap_small by lia.
    pose proof (Z.div_mod (n - 1) 128 ltac:(lia)) as E1.
    pose proof (Z.mod_pos_bound (n - 1) 128 ltac:(lia)) as B1.
    pose proof (Z.div_mod n 128 ltac:(lia)) as E2.
    pose proof (Z.mod_pos_bound n 128 ltac:(lia)) as B2.
    repeat split; try lia.
Qed.

Lemma repeat_inner (C : Z) (b : Block.t) (c : list Z) (m : nat) :
  inner_ok C b c -> Forall2 (inner_ok C) (repeat b m) (repeat c m).
Proof. intros H. induction m; simpl; constructor; auto. Qed.

Lemma concat_repeat_all (c : list Z) (x : Z) (m : nat) :
  Forall (eq x) c -> Forall (eq x) (concat (repeat c m)).
Proof.
  intros H. induction m as [|m IH]; simpl; [constructor|].
  apply Forall_app. auto.
Qed.

Lemma concat_repeat_length (c : list Z) (m : nat) :
  length (concat (repeat c m)) = (m * length c)%nat.
Proof. induction m as [|m IH]; simpl; [reflexivity|]. rewrite length_app. lia. Qed.

Lemma repeat_all (x : Z) (m : nat) : Forall (eq x) (repeat x m).
Proof. induction m; simpl; constructor; auto. Qed.

(** The loop of [CircularBuffer(size_t, int)]: full blocks in the slots
    before the last one, and in the last one whatever the constructor of the
    last block gives. *)
Lemma fill_blocks_spec (k n filler M : Z) (b_full : Block.t) :
  1 <= k <= M -> M < size_max ->
  Block.make_filled Deque.BS Deque.BS filler = Ok b_full ->
  forall (m : nat) (i : Z) (cells : nat) (a : list (option Block.t)),
    0 <= i -> i + Z.of_nat m = k -> i + Z.of_nat cells = M ->
    Z.of_nat (length a) = M ->
    (forall b_last,
        Block.make_filled Deque.BS (n mod Deque.BS) filler = Ok b_last ->
        exists a',
          CircularBuffer.fill_blocks Deque.BS cells i k n filler a = Ok a' /\
          Z.of_nat (length a') = M /\
          forall j : nat,
            nth_error a' j
            = if (i <=? Z.of_nat j) && (Z.of_nat j <? k)
              then Some (Some (if Z.of_nat j =? k - 1 then b_last else b_full))
              else nth_error a j) /\
    (forall e,
        Block.make_filled Deque.BS (n mod Deque.BS) filler = UB e ->
        (1 <= m)%nat ->
        CircularBuffer.fill_blocks Deque.BS cells i k n filler a = UB e).
Proof.
  intros Hk HM Hfull. pose proof size_max_val as SM.
  pose proof BS_pos as HC0.
  induction m as [|m IH]; intros i cells a Hi Hm Hc Hlen.
  - assert (i = k) by lia. subst i.
    split.
    + intros b_last _. exists a.
      destruct cells; cbn [CircularBuffer.fill_blocks]; rewrite Z.ltb_irrefl;
        (split; [reflexivity|]); (split; [exact Hlen|]);
        intros j; destruct (Z.leb_spec k (Z.of_nat j)); cbn [andb]; auto;
        destruct (Z.ltb_spec (Z.of_nat j) k); auto; lia.
    + intros e _ H. lia.
  - destruct cells as [|cells]; [lia|].
    cbn [CircularBuffer.fill_blocks].
    destruct (Z.ltb_spec i k) as [_|]; [|lia].
    rewrite (wrap_small (k - 1)) by lia.
    rewrite (wrap_small (i + 1)) by lia.
    unfold CircularBuffer.umod.
    destruct (Z.eqb_spec Deque.BS 0) as [|_]; [lia|]. cbn [bind].
    destruct (IH (i + 1) cells (upd a (Z.to_nat i) (Some b_full)))
      as [IHok IHub]; try lia; [now rewrite upd_length|].
    destruct (Z.eqb_spec i (k - 1)) as [Elast|Enot].
    + (* the last block *)
      assert (m = 0%nat) by lia. subst m.
      split.
      * intros b_last Hlast. rewrite Hlast. cbn [bind].
        rewrite aset_ok by lia. cbn [bind].
        destruct (IH (i + 1) cells (upd a (Z.to_nat i) (Some b_last)))
          as [IHok' _]; try lia; [now rewrite upd_length|].
        destruct (IHok' b_last Hlast) as (a' & E & Hl' & Hslots).
        exists a'. split; [exact E|]. split; [exact Hl'|].
        intros j. rewrite Hslots.
        destruct (Z.eq_dec (Z.of_nat j) i) as [Ej|Ej].
        -- replace j with (Z.to_nat i) by lia.
           rewrite nth_error_upd_same by lia. rewrite Z2Nat.id by lia.
           destruct (Z.leb_spec (i + 1) i); [lia|].
           destruct (Z.leb_spec i i); [|lia].
           destruct (Z.ltb_spec i k); [|lia]. cbn [andb].
           destruct (Z.eqb_spec i (k - 1)); [reflexivity | lia].
        -- rewrite nth_error_upd_other by lia.
           destruct (Z.leb_spec (i + 1) (Z.of_nat j));
             destruct (Z.leb_spec i (Z.of_nat j)); try lia; reflexivity.
      * intros e Hlast _. rewrite Hlast. reflexivity.
    + rewrite Hfull. cbn [bind].
      rewrite aset_ok by lia. cbn [bind].
      split.
      * intros b_last Hlast.
        destruct (IHok b_last Hlast) as (a' & E & Hl' & Hslots).
        exists a'. split; [exact E|]. split; [exact Hl'|].
        intros j. rewrite Hslots.
        destruct (Z.eq_dec (Z.of_nat j) i) as [Ej|Ej].
        -- replace j with (Z.to_nat i) by lia.
           rewrite nth_error_upd_same by lia. rewrite Z2Nat.id by lia.
           destruct (Z.leb_spec (i + 1) i); [lia|].
           destruct (Z.leb_spec i i); [|lia].
           destruct (Z.ltb_spec i k); [|lia]. cbn [andb].
           destruct (Z.eqb_spec i (k - 1)); [lia | reflexivity].
        -- rewrite nth_error_upd_other by lia.
           destruct (Z.leb_spec (i + 1) (Z.of_nat j));
             destruct (Z.leb_spec i (Z.of_nat j)); try lia; reflexivity.
      * intros e Hlast _. apply IHub; auto. lia.
Qed.

(** [Deque(n)] stores past the end of a block whenever [n] is a multiple of
    the block size, 0 included. *)
Lemma make_sized_fault (n : Z) :
  0 <= n < size_max -> n mod Deque.BS = 0 ->
  Deque.make_sized n = UB OutOfBounds.
Proof.
  intros Hn Hmod. pose proof size_max_val as SM.
  pose proof BS_pos as HC0. pose proof BS_small as HC1.
  destruct (GetBlocksCount_spec n Hn) as (Hk & _ & _).
  unfold Deque.make_sized, CircularBuffer.make_filled.
  set (k := CircularBuffer.GetBlocksCount n) in *.
  change deque_settings.kBufferInitMaxSize with 16.
  destruct (Block_make_filled_ok Deque.BS HC0 HC1 Deque.BS 0) as (b_full & Ef & _);
    [lia|].
  destruct (fill_blocks_spec k n 0 (Z.max k 16) b_full) with
    (m := Z.to_nat k) (i := 0) (cells := length (CircularBuffer.new_array (Z.max k 16)))
    (a := CircularBuffer.new_array (Z.max k 16)) as [_ Hub];
    try lia; auto;
    try (unfold CircularBuffer.new_array; rewrite repeat_length; lia).
  rewrite (Hub OutOfBounds); [reflexivity | | lia].
  rewrite Hmod. apply Block_make_filled_fault; auto; lia.
Qed.

(** Reading by index does not look at the ring's tail index. *)
Lemma index_retail (d : Deque.t) (i : Z) :
  Deque.index i (retail d) = Deque.index i d.
Proof. reflexivity. Qed.

(** [Deque(n)] for an [n] that is no multiple of the block size: the
    blocks are in slots [0 .. size_ - 1] and hold [n] zeros, with the ring's
    tail index left at 0. *)
Lemma make_sized_rep (n : Z) :
  0 < n < size_max -> n mod Deque.BS <> 0 ->
  exists d l,
    Deque.make_sized n = Ok d /\
    Deque.size_ d = n /\
    CircularBuffer.size_ (Deque.data_proxy_ d) = CircularBuffer.GetBlocksCount n /\
    CircularBuffer.tail_ (Deque.data_proxy_ d) = 0 /\
    Z.of_nat (length l) = n /\ Forall (eq 0) l /\
    (n < Deque.BS -> l = repeat 0 (Z.to_nat n) ++ []) /\
    stack_inv (retail d) l.
Proof.
  intros Hn Hmod. pose proof size_max_val as SM.
  pose proof BS_pos as HC0. pose proof BS_small as HC1.
  destruct (GetBlocksCount_spec n) as (Hk & _ & Hsplit); [lia|].
  specialize (Hsplit Hmod).
  pose proof (Z.mod_pos_bound n Deque.BS HC0) as Hs.
  unfold Deque.make_sized, CircularBuffer.make_filled.
  set (k := CircularBuffer.GetBlocksCount n) in *.
  set (s := n mod Deque.BS) in *.
  change deque_settings.kBufferInitMaxSize with 16.
  set (M := Z.max k 16).
  destruct (Block_make_filled_ok Deque.BS HC0 HC1 Deque.BS 0)
    as (b_full & Ef & Hrf & Hhf & Htf & Hsf); [lia|].
  destruct (Block_make_filled_ok Deque.BS HC0 HC1 s 0)
    as (b_last & El & Hrl & Hhl & Htl & Hsl); [lia|].
  destruct (fill_blocks_spec k n 0 M b_full) with
    (m := Z.to_nat k) (i := 0) (cells := length (CircularBuffer.new_array M))
    (a := CircularBuffer.new_array M) as [Hok _];
    try lia; auto;
    try (unfold CircularBuffer.new_array; rewrite repeat_length; lia).
  destruct (Hok b_last El) as (a' & E & Hl' & Hslots). clear Hok.
  rewrite E. cbn [bind].
  set (full := repeat 0 (Z.to_nat Deque.BS)) in *.
  set (lastc := repeat 0 (Z.to_nat s)) in *.
  set (bs := repeat b_full (Z.to_nat (k - 1)) ++ [b_last]).
  set (cs := repeat full (Z.to_nat (k - 1)) ++ [lastc]).
  eexists. exists (concat cs). split; [reflexivity|].
  cbn [Deque.size_ Deque.data_proxy_ CircularBuffer.size_ CircularBuffer.tail_].
  split; [reflexivity|]. split; [reflexivity|]. split; [reflexivity|].
  assert (Hlen : Z.of_nat (length (concat cs)) = n).
  { unfold cs. rewrite concat_app, length_app, concat_repeat_length.
    cbn [concat]. rewrite app_nil_r. unfold full, lastc.
    rewrite !repeat_length. nia. }
  split; [exact Hlen|].
  split.
  { unfold cs. rewrite concat_app. apply Forall_app. split.
    - apply concat_repeat_all. apply repeat_all.
    - cbn [concat]. rewrite app_nil_r. apply repeat_all. }
  split.
  { intros Hsmall. assert (k = 1) by nia.
    assert (s = n) by (unfold s; apply Z.mod_small; lia).
    unfold cs, lastc. replace (Z.to_nat (k - 1)) with 0%nat by lia.
    cbn [repeat app concat]. congruence. }
  exists (repeat b_full (Z.to_nat (k - 1))), b_last,
    (repeat full (Z.to_nat (k - 1))), lastc.
  fold bs cs.
  unfold retail. cbn [Deque.size_ Deque.data_proxy_].
  split.
  { exists a'. ring_fields.
    assert (Hbl : Z.of_nat (length bs) = k).
    { unfold bs. rewrite length_app, repeat_length. cbn [length]. lia. }
    rewrite Hbl.
    split; [reflexivity|]. split; [exact Hl'|]. split; [lia|].
    split; [reflexivity|]. split; [lia|]. split; [lia|].
    split; [rewrite Z.add_0_l; symmetry; apply Z.mod_small; lia|].
    intros j Hj. rewrite Z.add_0_l, Z.mod_small by lia.
    rewrite Hslots. rewrite Z2Nat.id by lia.
    destruct (Z.leb_spec 0 j); [|lia]. cbn [andb].
    destruct (Z.ltb_spec j k).
    - f_equal. unfold bs.
      destruct (Z.eqb_spec j (k - 1)).
      + replace (Z.to_nat j) with (length (repeat b_full (Z.to_nat (k - 1))))
          by (rewrite repeat_length; lia).
        now rewrite nth_error_snoc_last.
      + rewrite nth_error_app1 by (rewrite repeat_length; lia).
        rewrite nth_error_repeat by lia. reflexivity.
    - unfold CircularBuffer.new_array. rewrite nth_error_repeat by lia.
      f_equal. symmetry. apply nth_error_None. lia. }
  split.
  { unfold bs, cs.
    destruct (Z.to_nat (k - 1)) as [|m] eqn:Ek.
    - cbn [repeat app]. apply layout_one; auto.
      left. unfold synced. rewrite Hhl, Htl, Hsl. rewrite wrap_small; lia.
    - cbn [repeat app]. apply layout_many; auto.
      + unfold front_ok. lia.
      + apply repeat_inner. unfold inner_ok, front_ok, back_ok.
        split; [exact Hrf|]. split; [lia|]. split; [exact Hhf|].
        rewrite Htf, Hsf. rewrite wrap_small; lia.
      + unfold back_ok. split; [exact Hhl|].
        rewrite Htl, Hsl. rewrite wrap_small; lia. }
  split; [reflexivity|]. split; [lia|].
  split; [cbn [CircularBuffer.max_size_]; unfold M; lia|].
  split.
  { unfold bs. apply Forall_app. split.
    - apply Forall_forall. intros b Hb. apply repeat_spec in Hb. congruence.
    - constructor; [exact Hhl | constructor]. }
  split.
  { apply Forall_forall. intros c Hc. apply repeat_spec in Hc. subst c.
    unfold full. rewrite repeat_length. lia. }
  split; [now rewrite !repeat_length|].
  intros _ Hnil. unfold lastc in Hnil.
  apply (f_equal (@length Z)) in Hnil. rewrite repeat_length in Hnil.
  simpl in Hnil. lia.
Qed.

(** For [n] from 1 to the block size less one, [Deque(n)] leaves a deque
    that satisfies the representation, holding [n] zeros. *)
Lemma make_sized_small (n : Z) :
  1 <= n < Deque.BS ->
  exists d, Deque.make_sized n = Ok d /\ stack_inv d (repeat 0 (Z.to_nat n)).
Proof.
  intros Hn. pose proof size_max_val as SM. pose proof BS_small as HC1.
  destruct (make_sized_rep n) as (d & l & E & Hsz & Hk & Htl & _ & _ & Hl & Hinv);
    [lia | rewrite Z.mod_small; lia |].
  exists d. split; [exact E|].
  rewrite (Hl ltac:(lia)), app_nil_r in Hinv.
  assert (Hone : CircularBuffer.GetBlocksCount n = 1).
  { destruct (GetBlocksCount_spec n) as (Hk1 & _ & Hsplit); [lia|].
    rewrite Z.mod_small in Hsplit by lia.
    pose proof BS_pos. specialize (Hsplit ltac:(lia)). nia. }
  assert (Hfix : retail d = d).
  { destruct d as [[s m h t b] c]. unfold retail.
    cbn [Deque.data_proxy_ Deque.size_ CircularBuffer.size_ CircularBuffer.max_size_
         CircularBuffer.head_ CircularBuffer.tail_ CircularBuffer.buffer_] in *.
    rewrite Hk, Hone, Htl. reflexivity. }
  now rewrite Hfix in Hinv.
Qed.

(** ** Clear *)

Lemma clear_loop_spec (size : Z) :
  forall (m : nat) (i : Z) (cells : nat) (a : list (option Block.t)),
    0 <= i -> i + Z.of_nat m = size ->
    i + Z.of_nat cells = Z.of_nat (length a) ->
    Z.of_nat (length a) < size_max -> size <= Z.of_nat (length a) ->
    exists a',
      CircularBuffer.clear_loop cells i size a = Ok a' /\
      length a' = length a.
Proof.
  pose proof size_max_val as SM.
  induction m as [|m IH]; intros i cells a Hi Hm Hc Hla Hfit.
  - exists a. destruct cells; cbn [CircularBuffer.clear_loop];
      (destruct (Z.ltb_spec i size); [lia|]); auto.
  - destruct cells as [|cells]; [lia|].
    cbn [CircularBuffer.clear_loop].
    destruct (Z.ltb_spec i size) as [_|]; [|lia].
    rewrite aset_ok by lia. cbn [bind].
    rewrite (wrap_small (i + 1)) by lia.
    destruct (IH (i + 1) cells (upd a (Z.to_nat i) None)) as (a' & E & Hl');
      try lia; try (rewrite upd_length; lia).
    exists a'. split; [exact E|]. now rewrite Hl', upd_length.
Qed.

(** [Clear] on a ring that was just cleared changes nothing. *)
Lemma Clear_again (r r1 : CircularBuffer.t) :
  CircularBuffer.Clear Deque.BS r = Ok r1 ->
  CircularBuffer.Clear Deque.BS r1 = Ok r1.
Proof.
  unfold CircularBuffer.Clear. intros H.
  apply bind_ok in H as (a & Ha & H).
  apply bind_ok in H as (a1 & Ha1 & H).
  apply bind_ok in H as (a2 & Ha2 & H).
  injection H as <-.
  unfold CircularBuffer.slots. cbn [CircularBuffer.buffer_ CircularBuffer.size_ bind].
  assert (E0 : CircularBuffer.clear_loop (length a2) 0 0 a2 = Ok a2)
    by (destruct (length a2); reflexivity).
  rewrite E0. cbn [bind].
  unfold aset in *.
  destruct (in_bounds a1 0) eqn:Eb; [|discriminate].
  injection Ha2 as <-.
  change (Z.to_nat 0) with 0%nat.
  assert (in_bounds (upd a1 0 (Some (Block.make Deque.BS))) 0 = true) as ->
    by (unfold in_bounds in *; now rewrite upd_length).
  now rewrite upd_upd.
Qed.

Lemma Clear_inv (d : Deque.t) (l : list Z) :
  deque_inv d l ->
  exists d1,
    Deque.Clear d = Ok d1 /\
    Deque.size_ d1 = 0 /\
    CircularBuffer.size_ (Deque.data_proxy_ d1) = 0 /\
    CircularBuffer.max_size_ (Deque.data_proxy_ d1) = deque_settings.kBufferInitMaxSize /\
    CircularBuffer.head_ (Deque.data_proxy_ d1) = 0 /\
    CircularBuffer.tail_ (Deque.data_proxy_ d1) = 0 /\
    CircularBuffer.block_at (Deque.data_proxy_ d1) 0 = Ok (Block.make Deque.BS) /\
    (exists a, CircularBuffer.buffer_ (Deque.data_proxy_ d1) = Some a /\
               Z.of_nat (length a) = CircularBuffer.max_size_ (Deque.data_proxy_ d)) /\
    Deque.Clear d1 = Ok d1.
Proof.
  intros (bs & cs & Hring & _ & _ & _ & HM2).
  pose proof Hring as (a & Hbuf & Hlen & HM & Hsz & Hn & Hh & Ht & Hslots).
  pose proof size_max_val as SM.
  destruct (clear_loop_spec (CircularBuffer.size_ (Deque.data_proxy_ d))
              (length bs) 0 (length a) a) as (a1 & E1 & Hl1); try lia.
  assert (EC : CircularBuffer.Clear Deque.BS (Deque.data_proxy_ d)
               = Ok {| CircularBuffer.size_ := 0;
                       CircularBuffer.max_size_ := deque_settings.kBufferInitMaxSize;
                       CircularBuffer.head_ := 0; CircularBuffer.tail_ := 0;
                       CircularBuffer.buffer_ :=
                         Some (upd a1 (Z.to_nat 0) (Some (Block.make Deque.BS))) |}).
  { unfold CircularBuffer.Clear, CircularBuffer.slots. rewrite Hbuf. cbn [bind].
    rewrite E1. cbn [bind]. rewrite aset_ok by lia. reflexivity. }
  eexists. unfold Deque.Clear at 1. rewrite EC. cbn [bind].
  split; [reflexivity|].
  cbn [Deque.size_ Deque.data_proxy_ CircularBuffer.size_ CircularBuffer.max_size_
       CircularBuffer.head_ CircularBuffer.tail_ CircularBuffer.buffer_].
  repeat (split; [reflexivity|]).
  split.
  { unfold CircularBuffer.block_at, CircularBuffer.slot, CircularBuffer.slots.
    cbn [CircularBuffer.buffer_ bind].
    rewrite (aget_ok _ 0 (Some (Block.make Deque.BS)));
      [reflexivity | lia | apply nth_error_upd_same; lia]. }
  split.
  { eexists. split; [reflexivity|]. rewrite upd_length. lia. }
  unfold Deque.Clear. cbn [Deque.data_proxy_].
  now rewrite (Clear_again _ _ EC).
Qed.

(** ** A moved-from deque *)

Lemma moved_from_faults (s v i : Z) :
  let d := {| Deque.data_proxy_ := CircularBuffer.moved_from; Deque.size_ := s |} in
  Deque.PushBack v d = UB NullDeref /\
  Deque.PushFront v d = UB NullDeref /\
  Deque.PopBack d = UB NullDeref /\
  Deque.PopFront d = UB NullDeref /\
  Deque.index i d = UB NullDeref /\
  Deque.Clear d = UB NullDeref.
Proof. repeat split. Qed.

(** ** Adding and deleting a data block *)

Lemma ring_Add_Delete (r : CircularBuffer.t) (bs : list Block.t) :
  ring_inv r bs -> CircularBuffer.IsFull r = false ->
  (r1 <- CircularBuffer.AddTailDataBlock Deque.BS r ;;
   CircularBuffer.DeleteDataBlockFromTail r1) = Ok r /\
  (r1 <- CircularBuffer.AddHeadDataBlock Deque.BS r ;;
   CircularBuffer.DeleteDataBlockFromHead r1) = Ok r.
Proof.
  intros Hring Hfull.
  rewrite (ring_IsFull _ _ Hring) in Hfull. apply Z.eqb_neq in Hfull.
  pose proof Hring as (a & Hbuf & Hlen & HM & Hsz & Hn & Hh & Ht & Hslots).
  pose proof size_max_val as SM.
  set (M := CircularBuffer.max_size_ r) in *.
  set (h := CircularBuffer.head_ r) in *.
  set (n := Z.of_nat (length bs)) in *.
  assert (Hfree : forall k, 0 <= k < M -> n <= (k - h) mod M ->
                            nth_error a (Z.to_nat k) = Some None).
  { intros k Hk Hge. rewrite (ring_slot_at r bs a k Hring Hbuf Hk).
    f_equal. apply nth_error_None. fold h M. lia. }
  split.
  - unfold CircularBuffer.AddTailDataBlock, CircularBuffer.DeleteDataBlockFromTail,
      CircularBuffer.slots.
    rewrite Hbuf. cbn [bind]. fold M.
    set (t' := if CircularBuffer.tail_ r =? wrap (M - 1) then 0
               else wrap (CircularBuffer.tail_ r + 1)).
    assert (Et : t' = (h + n) mod M).
    { unfold t'. rewrite Ht. fold h M n. rewrite (wrap_small (M - 1)) by lia.
      destruct (mod_cases (h + n - 1) M) as [[? E]|[[? E]|[? E]]]; try lia;
        destruct (mod_cases (h + n) M) as [[? E']|[[? E']|[? E']]]; try lia;
        rewrite E, E';
        (destruct (Z.eqb_spec (h + n - 1) (M - 1)); try lia);
        (destruct (Z.eqb_spec (h + n - 1 - M) (M - 1)); try lia);
        rewrite ?wrap_small by lia; lia. }
    assert (Ht' : 0 <= t' < M) by (rewrite Et; apply Z.mod_pos_bound; lia).
    rewrite aset_ok by lia.
    cbn [bind CircularBuffer.buffer_ CircularBuffer.tail_ CircularBuffer.head_
         CircularBuffer.size_ CircularBuffer.max_size_].
    rewrite aset_ok by (rewrite upd_length; lia). cbn [bind].
    fold h. destruct (Z.eqb_spec t' h) as [Eh|_].
    { exfalso. rewrite Et in Eh.
      destruct (mod_cases (h + n) M) as [[? E]|[[? E]|[? E]]]; lia. }
    rewrite upd_upd, upd_same.
    2:{ apply Hfree; [lia|]. rewrite Et.
        destruct (mod_cases (h + n) M) as [[? E]|[[? E]|[? E]]]; try lia; rewrite E;
          destruct (mod_cases (h + n - h) M) as [[? F]|[[? F]|[? F]]]; try lia;
          destruct (mod_cases (h + n - M - h) M) as [[? G]|[[? G]|[? G]]]; lia. }
    rewrite Hsz. fold n. rewrite (wrap_small (n + 1)) by lia.
    replace (wrap (n + 1 - 1)) with (CircularBuffer.size_ r)
      by (rewrite Hsz; fold n; rewrite wrap_small by lia; lia).
    replace (if t' =? 0 then wrap (M - 1) else wrap (t' - 1))
      with (CircularBuffer.tail_ r).
    2:{ rewrite Ht, Et. fold h M n.
        destruct (mod_cases (h + n - 1) M) as [[? E]|[[? E]|[? E]]]; try lia;
          destruct (mod_cases (h + n) M) as [[? E']|[[? E']|[? E']]]; try lia;
          rewrite E, E';
          (destruct (Z.eqb_spec (h + n) 0); try lia);
          (destruct (Z.eqb_spec (h + n - M) 0); try lia);
          rewrite ?wrap_small by lia; lia. }
    rewrite <- Hbuf. unfold M, h. destruct r. reflexivity.
  - unfold CircularBuffer.AddHeadDataBlock, CircularBuffer.DeleteDataBlockFromHead,
      CircularBuffer.slots.
    rewrite Hbuf. cbn [bind]. fold M h.
    set (h' := if h =? 0 then wrap (M - 1) else wrap (h - 1)).
    assert (Eh : h' = (h - 1) mod M).
    { unfold h'.
      destruct (mod_cases (h - 1) M) as [[? E]|[[? E]|[? E]]]; try lia; rewrite E;
        (destruct (Z.eqb_spec h 0); try lia); rewrite wrap_small by lia; lia. }
    assert (Hh' : 0 <= h' < M) by (rewrite Eh; apply Z.mod_pos_bound; lia).
    rewrite aset_ok by lia.
    cbn [bind CircularBuffer.buffer_ CircularBuffer.tail_ CircularBuffer.head_
         CircularBuffer.size_ CircularBuffer.max_size_].
    rewrite aset_ok by (rewrite upd_length; lia). cbn [bind].
    destruct (Z.eqb_spec h' (CircularBuffer.tail_ r)) as [Eq|_].
    { exfalso. rewrite Eh, Ht in Eq. fold h M n in Eq.
      destruct (mod_cases (h - 1) M) as [[? E]|[[? E]|[? E]]]; try lia;
        destruct (mod_cases (h + n - 1) M) as [[? E']|[[? E']|[? E']]]; lia. }
    rewrite upd_upd, upd_same.
    2:{ apply Hfree; [lia|]. rewrite Eh.
        destruct (mod_cases (h - 1) M) as [[? E]|[[? E]|[? E]]]; try lia; rewrite E;
          destruct (mod_cases (h - 1 - h) M) as [[? F]|[[? F]|[? F]]]; try lia;
          destruct (mod_cases (h - 1 + M - h) M) as [[? G]|[[? G]|[? G]]]; lia. }
    rewrite Hsz. fold n. rewrite (wrap_small (n + 1)) by lia.
    replace (wrap (n + 1 - 1)) with (CircularBuffer.size_ r)
      by (rewrite Hsz; fold n; rewrite wrap_small by lia; lia).
    replace (if h' =? wrap (M - 1) then 0 else wrap (h' + 1)) with h.
    2:{ rewrite Eh. rewrite (wrap_small (M - 1)) by lia.
        destruct (mod_cases (h - 1) M) as [[? E]|[[? E]|[? E]]]; try lia; rewrite E;
          (destruct (Z.eqb_spec (h - 1) (M - 1)); try lia);
          (destruct (Z.eqb_spec (h - 1 + M) (M - 1)); try lia);
          rewrite ?wrap_small by lia; lia. }
    rewrite <- Hbuf. unfold M, h. destruct r. reflexivity.
Qed.

(** ** Growing the ring *)

Lemma Expand_inv (d : Deque.t) (l : list Z) :
  deque_inv d l -> Z.of_nat (length l) < size_max ->
  CircularBuffer.IsFull (Deque.data_proxy_ d) = true ->
  exists r',
    CircularBuffer.ExpandBuffer (Deque.data_proxy_ d) = Ok r' /\
    CircularBuffer.max_size_ r' = 2 * CircularBuffer.max_size_ (Deque.data_proxy_ d) /\
    CircularBuffer.size_ r' = CircularBuffer.size_ (Deque.data_proxy_ d) /\
    CircularBuffer.head_ r' = 0 /\
    CircularBuffer.tail_ r' = CircularBuffer.size_ (Deque.data_proxy_ d) - 1 /\
    deque_inv {| Deque.data_proxy_ := r'; Deque.size_ := Deque.size_ d |} l.
Proof.
  intros (bs & cs & Hring & Hlay & Hl & Hsz & HM) Hbound Hfull.
  pose proof size_max_val as SM. pose proof BS_val as HBS.
  rewrite (ring_IsFull _ _ Hring) in Hfull. apply Z.eqb_eq in Hfull.
  pose proof (layout_count Deque.BS BS_pos bs cs Hlay) as Hcount.
  rewrite <- Hl in Hcount.
  destruct (ring_ExpandBuffer _ bs Hring) as (r' & E & Hring' & HM'); [lia|].
  exists r'. split; [exact E|]. split; [exact HM'|].
  pose proof Hring as (a & Hbuf & Hlen & HMs & Hrs & Hn & Hh & Ht & Hslots).
  pose proof Hring' as (a' & Hbuf' & Hlen' & HMs' & Hrs' & Hn' & Hh' & Ht' & Hslots').
  assert (Hhead : CircularBuffer.head_ r' = 0).
  { unfold CircularBuffer.ExpandBuffer in E.
    apply bind_ok in E as (old & _ & E).
    apply bind_ok in E as ([[cnt old'] new'] & _ & E).
    apply bind_ok in E as (x & _ & E).
    apply bind_ok in E as (new'' & _ & E).
    injection E as <-. reflexivity. }
  split; [congruence|]. split; [exact Hhead|].
  split.
  { rewrite Ht', Hhead, Hrs. rewrite Z.mod_small; lia. }
  exists bs, cs. cbn [Deque.data_proxy_ Deque.size_].
  repeat (split; [assumption|]). lia.
Qed.

(** ** Elements through references *)

Lemma Forall2_upd {A B : Type} (R : A -> B -> Prop) (l1 : list A) (l2 : list B)
      (p : nat) (x x' : A) (y y' : B) :
  Forall2 R l1 l2 -> nth_error l1 p = Some x -> nth_error l2 p = Some y ->
  (R x y -> R x' y') ->
  Forall2 R (upd l1 p x') (upd l2 p y').
Proof.
  intros H. revert p. induction H as [|a b l1 l2 Hab H IH]; intros p H1 H2 HR.
  - destruct p; discriminate.
  - destruct p as [|p]; simpl in *.
    + injection H1 as ->. injection H2 as ->. constructor; auto.
    + constructor; eauto.
Qed.

Lemma upd_app_l {A : Type} (l1 l2 : list A) (p : nat) (x : A) :
  (p < length l1)%nat -> upd (l1 ++ l2) p x = upd l1 p x ++ l2.
Proof.
  revert p. induction l1 as [|a l1 IH]; intros [|p] H; simpl in *; try lia; auto.
  rewrite IH by lia. reflexivity.
Qed.

Lemma upd_app_r {A : Type} (l1 l2 : list A) (k : nat) (x : A) :
  upd (l1 ++ l2) (length l1 + k) x = l1 ++ upd l2 k x.
Proof. induction l1 as [|a l1 IH]; simpl; congruence. Qed.

Lemma nth_upd_eq (l : list Z) (p : nat) (x : Z) :
  (p < length l)%nat -> nth p (upd l p x) 0 = x.
Proof.
  revert p. induction l as [|y l IH]; intros [|p] H; simpl in *; try lia; auto.
  apply IH. lia.
Qed.

Lemma nth_upd_neq (l : list Z) (p q : nat) (x : Z) :
  p <> q -> nth q (upd l p x) 0 = nth q l 0.
Proof.
  revert p q. induction l as [|y l IH]; intros [|p] [|q] H; simpl; auto;
    try congruence.
Qed.

Section RefFacts.
Variable C : Z.
Hypothesis C_pos : 0 < C.
Hypothesis C_small : C < 2 ^ 32.

Lemma Block_Get_ref (b : Block.t) (c : list Z) (i : Z) :
  block_rep C b c -> 0 <= i < Z.of_nat (length c) ->
  NonConst.Block_Get i b = Ok (Block.head_ b + i).
Proof.
  intros (Hlen & Hsz & Hh0 & Hfit & Hcells) Hi.
  pose proof size_max_val as SM.
  unfold NonConst.Block_Get. rewrite wrap_small by lia.
  rewrite in_bounds_true by lia. reflexivity.
Qed.

Lemma Block_store_rep (b : Block.t) (c : list Z) (i v : Z) :
  block_rep C b c -> 0 <= i < Z.of_nat (length c) ->
  exists b',
    NonConst.Block_store (Block.head_ b + i) v b = Ok b' /\
    block_rep C b' (upd c (Z.to_nat i) v) /\
    Block.head_ b' = Block.head_ b /\
    Block.tail_ b' = Block.tail_ b /\
    Block.size_ b' = Block.size_ b.
Proof.
  intros (Hlen & Hsz & Hh0 & Hfit & Hcells) Hi.
  unfold NonConst.Block_store. rewrite aset_ok by lia. cbn [bind].
  eexists. split; [reflexivity|].
  split; [|cbn; auto].
  unfold block_rep.
  cbn [Block.data_ Block.size_ Block.head_ Block.tail_].
  rewrite !upd_length.
  repeat (split; [assumption|]).
  intros k Hk.
  destruct (Nat.eq_dec k (Z.to_nat i)) as [->|Hne].
  - replace (Z.to_nat (Block.head_ b) + Z.to_nat i)%nat
      with (Z.to_nat (Block.head_ b + i)) by lia.
    rewrite !nth_error_upd_same by lia. reflexivity.
  - rewrite !nth_error_upd_other by lia. apply Hcells. exact Hk.
Qed.

(** Replacing a block by one with the same window keeps the layout. *)
Lemma layout_upd (bs : list Block.t) (cs : list (list Z)) (p : nat)
      (b b' : Block.t) (c c' : list Z) :
  layout C bs cs -> nth_error bs p = Some b -> nth_error cs p = Some c ->
  block_rep C b' c' ->
  Block.head_ b' = Block.head_ b -> Block.tail_ b' = Block.tail_ b ->
  Block.size_ b' = Block.size_ b ->
  layout C (upd bs p b') (upd cs p c').
Proof.
  intros H Hb Hc Hrep Eh Et Es.
  inversion H as [b0 c0 Hr0 Hs0 | h ch mids cms t ct Hh Hf Hm Ht Hbk]; subst.
  - destruct p as [|p]; [|destruct p; discriminate].
    simpl in *. injection Hb as ->. injection Hc as ->.
    apply layout_one; auto.
    unfold synced, pristine in *. rewrite Eh, Et, Es. exact Hs0.
  - pose proof (Forall2_length Hm) as Hlen.
    destruct p as [|p]; simpl in *.
    + injection Hb as ->. injection Hc as ->.
      apply layout_many; auto.
      unfold front_ok in *. rewrite Eh, Et, Es. exact Hf.
    + destruct (Nat.lt_ge_cases p (length mids)) as [Hlt|Hge].
      * rewrite nth_error_app1 in Hb, Hc by lia.
        rewrite !upd_app_l by lia.
        apply layout_many; auto.
        apply (Forall2_upd _ _ _ _ b b' c c' Hm Hb Hc).
        intros (_ & Hf' & Hb').
        split; [exact Hrep|].
        unfold front_ok, back_ok in *. rewrite Eh, Et, Es. auto.
      * assert (p = length mids).
        { assert (p < length (mids ++ [t]))%nat
            by (apply nth_error_Some; congruence).
          rewrite length_app in *. simpl in *. lia. }
        subst p. rewrite upd_snoc.
        rewrite Hlen at 1. rewrite upd_snoc.
        rewrite nth_error_app2 in Hb by lia.
        rewrite Nat.sub_diag in Hb. simpl in Hb. injection Hb as ->.
        apply layout_many; auto.
        unfold back_ok in *. rewrite Eh, Et, Es. exact Hbk.
Qed.

(** The block and the cell of the element at offset [i] after the head
    block, and the contents after a store to that cell. *)
Lemma stride_update (mids : list Block.t) (cms : list (list Z))
      (t : Block.t) (ct : list Z) (v : Z) :
  Forall2 (inner_ok C) mids cms -> block_rep C t ct ->
  forall i, 0 <= i < Z.of_nat (length (concat (cms ++ [ct]))) ->
    exists tb c,
      nth_error (mids ++ [t]) (Z.to_nat (i / C)) = Some tb /\
      nth_error (cms ++ [ct]) (Z.to_nat (i / C)) = Some c /\
      block_rep C tb c /\
      0 <= i mod C < Z.of_nat (length c) /\
      concat (upd (cms ++ [ct]) (Z.to_nat (i / C)) (upd c (Z.to_nat (i mod C)) v))
      = upd (concat (cms ++ [ct])) (Z.to_nat i) v.
Proof.
  intros Hm Ht.
  induction Hm as [|m cm mids cms (Hr & Hf & Hb) _ IH]; intros i Hi.
  - simpl in Hi. rewrite app_nil_r in Hi. simpl. rewrite !app_nil_r.
    pose proof Ht as (_ & _ & Hh0 & Hfit & _).
    rewrite Z.div_small, Z.mod_small by lia.
    exists t, ct.
    split; [reflexivity|]. split; [reflexivity|]. split; [exact Ht|].
    split; [lia|]. simpl. now rewrite app_nil_r.
  - pose proof Hr as (_ & Hsz & _).
    destruct Hf as [Hf _]. destruct Hb as [Hb _].
    assert (Hcm : Z.of_nat (length cm) = C) by lia.
    cbn [app concat] in *. rewrite length_app in Hi.
    destruct (Z_lt_dec i C) as [Hlt|Hge].
    + rewrite Z.div_small, Z.mod_small by lia.
      exists m, cm.
      split; [reflexivity|]. split; [reflexivity|]. split; [exact Hr|].
      split; [lia|].
      simpl. rewrite upd_app_l by lia. reflexivity.
    + destruct (IH (i - C)) as (tb & c & Hnth & Hnc & Hrep & Hmod & Hval); [lia|].
      assert (Hq : i / C = (i - C) / C + 1).
      { rewrite <- Z.div_add by lia. f_equal. lia. }
      assert (Hr' : i mod C = (i - C) mod C).
      { rewrite <- (Z.mod_add (i - C) 1 C) by lia. f_equal. lia. }
      assert (Hq0 : 0 <= (i - C) / C) by (apply Z.div_pos; lia).
      exists tb, c.
      rewrite Hq, Hr'.
      replace (Z.to_nat ((i - C) / C + 1)) with (S (Z.to_nat ((i - C) / C))) by lia.
      cbn [nth_error upd concat].
      split; [exact Hnth|]. split; [exact Hnc|]. split; [exact Hrep|].
      split; [exact Hmod|].
      rewrite Hval.
      replace (Z.to_nat i) with (length cm + Z.to_nat (i - C))%nat by lia.
      now rewrite upd_app_r.
Qed.
End RefFacts.

(** Reading through the reference that the [int &] overload returns gives
    what the [const] overload returns, on every state and for every index. *)
Lemma load_index (d : Deque.t) (i : Z) :
  (p <- NonConst.index i d ;; NonConst.load p d) = Deque.index i d.
Proof.
  unfold NonConst.index, NonConst.GetElementByIndex, NonConst.load,
    Deque.index, CircularBuffer.GetElementByIndex, NonConst.Block_Get, Block.Get.
  destruct (CircularBuffer.block_at (Deque.data_proxy_ d)
              (CircularBuffer.head_ (Deque.data_proxy_ d))) as [hb|f] eqn:Eh;
    cbn [bind]; [|reflexivity].
  destruct (_ <? _).
  - unfold aget at 2.
    destruct (in_bounds _ _) eqn:Eb; cbn [bind fst snd]; [|reflexivity].
    rewrite Eh. cbn [bind]. unfold aget. now rewrite Eb.
  - destruct (CircularBuffer.umod _ _) as [tbi|f]; cbn [bind]; [|reflexivity].
    destruct (CircularBuffer.block_at (Deque.data_proxy_ d) tbi) as [tb|f] eqn:Et;
      cbn [bind]; [|reflexivity].
    unfold aget at 2.
    destruct (in_bounds _ _) eqn:Eb; cbn [bind fst snd]; [|reflexivity].
    rewrite Et. cbn [bind]. unfold aget. now rewrite Eb.
Qed.

Lemma assign_inv (d : Deque.t) (l : list Z) (i v : Z) :
  deque_inv d l -> Z.of_nat (length l) < size_max ->
  0 <= i < Z.of_nat (length l) ->
  exists d',
    NonConst.assign i v d = Ok d' /\
    deque_inv d' (upd l (Z.to_nat i) v) /\
    CircularBuffer.max_size_ (Deque.data_proxy_ d')
    = CircularBuffer.max_size_ (Deque.data_proxy_ d).
Proof.
  intros (bs & cs & Hring & Hlay & Hl & Hsz & HM) Hbound Hi.
  pose proof size_max_val as SM.
  pose proof BS_pos as HC0. pose proof BS_small as HC1.
  destruct (layout_as_cons _ _ _ Hlay) as (h & bs1 & ch & cs1 & -> & ->).
  pose proof (ring_length _ _ Hring) as Hn.
  unfold NonConst.assign, NonConst.index, NonConst.GetElementByIndex.
  rewrite (ring_head_block _ _ _ Hring). cbn [bind].
  pose proof Hlay as Hlay0.
  apply layout_head_cases in Hlay.
  cbn [concat] in Hl.
  assert (Hhead : block_rep Deque.BS h ch).
  { destruct Hlay as [(_ & _ & H & _) | (? & ? & ? & ? & _ & _ & H & _)]; exact H. }
  pose proof Hhead as (_ & Hsize & _).
  unfold Block.Size. rewrite Hsize.
  destruct (Z.ltb_spec i (Z.of_nat (length ch))) as [Hlt|Hge].
  - rewrite (Block_Get_ref Deque.BS HC1 h ch i Hhead) by lia.
    cbn [bind]. unfold NonConst.store. cbn [fst snd].
    destruct (Block_store_rep Deque.BS HC0 h ch i v Hhead) as (h' & Est & Hrep' & Eh & Et & Es);
      [lia|].
    destruct (ring_at_ptr _ _ 0 h h' _ Hring eq_refl Est)
      as (r' & Eat & Hring' & HM' & _).
    rewrite (ring_head_pos _ _ Hring) in Eat. rewrite Eat. cbn [bind].
    eexists. split; [reflexivity|].
    split; [|exact HM'].
    exists (upd (h :: bs1) 0 h'), (upd (ch :: cs1) 0 (upd ch (Z.to_nat i) v)).
    cbn [Deque.data_proxy_ Deque.size_].
    split; [exact Hring'|].
    split; [apply (layout_upd Deque.BS HC1 _ _ 0 h h' ch _ Hlay0); auto|].
    split; [cbn [upd concat]; rewrite Hl; apply upd_app_l; lia|].
    rewrite upd_length. split; [exact Hsz | lia].
  - destruct Hlay as [(-> & -> & _) | (mids & cms & t & ct & -> & -> & _ & _ & Hm & Ht & _)].
    { rewrite Hl in Hi. simpl in Hi. rewrite app_nil_r in Hi. lia. }
    assert (Hll : Z.of_nat (length l)
                  = Z.of_nat (length ch) + Z.of_nat (length (concat (cms ++ [ct]))))
      by (rewrite Hl, length_app; lia).
    rewrite (wrap_small (i - Z.of_nat (length ch))) by lia.
    destruct (stride_update Deque.BS HC0 mids cms t ct v Hm Ht (i - Z.of_nat (length ch)))
      as (tb & c & Hnth & Hnc & Hrep & Hmod & Hval); [lia|].
    set (q := (i - Z.of_nat (length ch)) / Deque.BS) in *.
    set (k := (i - Z.of_nat (length ch)) mod Deque.BS) in *.
    assert (Hq0 : 0 <= q) by (apply Z.div_pos; lia).
    assert (Hq1 : (Z.to_nat q < length (mids ++ [t]))%nat)
      by (apply nth_error_Some; congruence).
    cbn [length] in Hn.
    rewrite length_app in Hq1, Hn. cbn [length] in Hq1, Hn.
    pose proof Hring as (a & Hbuf & Hlen & HMs & Hrs & _ & Hh & _).
    rewrite (wrap_small (CircularBuffer.head_ (Deque.data_proxy_ d) + q)) by lia.
    rewrite wrap_small by lia.
    unfold CircularBuffer.umod.
    destruct (Z.eqb_spec (CircularBuffer.max_size_ (Deque.data_proxy_ d)) 0); [lia|].
    cbn [bind].
    replace (CircularBuffer.head_ (Deque.data_proxy_ d) + q + 1)
      with (CircularBuffer.head_ (Deque.data_proxy_ d) + Z.of_nat (S (Z.to_nat q)))
      by lia.
    rewrite (ring_block_at _ _ (S (Z.to_nat q)) tb Hring) by exact Hnth.
    cbn [bind].
    rewrite (Block_Get_ref Deque.BS HC1 tb c k Hrep) by lia.
    cbn [bind]. unfold NonConst.store. cbn [fst snd].
    destruct (Block_store_rep Deque.BS HC0 tb c k v Hrep) as (tb' & Est & Hrep' & Eh & Et & Es);
      [lia|].
    destruct (ring_at_ptr _ _ (S (Z.to_nat q)) tb tb' _ Hring Hnth Est)
      as (r' & Eat & Hring' & HM' & _).
    rewrite Eat. cbn [bind].
    eexists. split; [reflexivity|].
    split; [|exact HM'].
    exists (upd (h :: mids ++ [t]) (S (Z.to_nat q)) tb'),
           (upd (ch :: cms ++ [ct]) (S (Z.to_nat q)) (upd c (Z.to_nat k) v)).
    cbn [Deque.data_proxy_ Deque.size_].
    split; [exact Hring'|].
    split; [apply (layout_upd Deque.BS HC1 _ _ (S (Z.to_nat q)) tb tb' c _ Hlay0); auto|].
    split.
    { cbn [upd concat]. rewrite Hval, Hl.
      replace (Z.to_nat i)
        with (length ch + Z.to_nat (i - Z.of_nat (length ch)))%nat by lia.
      now rewrite upd_app_r. }
    rewrite upd_length. split; [exact Hsz | lia].
Qed.

(** ** The list constructor *)

(** The ring operations behind [PushBack] read the block count in [IsFull]
    only, so they commute with a shift of the count. *)

Lemma AddTailDataBlock_over (k : Z) (r : CircularBuffer.t) :
  0 <= CircularBuffer.size_ r -> 0 <= k ->
  CircularBuffer.size_ r + k + 1 < size_max ->
  CircularBuffer.AddTailDataBlock Deque.BS (overcount k r)
  = (r' <- CircularBuffer.AddTailDataBlock Deque.BS r ;; Ok (overcount k r')).
Proof.
  intros Hs Hk Hb.
  unfold CircularBuffer.AddTailDataBlock, CircularBuffer.slots, overcount.
  cbn [CircularBuffer.size_ CircularBuffer.max_size_ CircularBuffer.head_
       CircularBuffer.tail_ CircularBuffer.buffer_].
  destruct (CircularBuffer.buffer_ r) as [a|]; cbn [bind]; [|reflexivity].
  destruct (aset a _ _) as [a'|f]; cbn [bind]; [|reflexivity].
  cbn [CircularBuffer.size_ CircularBuffer.max_size_ CircularBuffer.head_
       CircularBuffer.tail_ CircularBuffer.buffer_].
  pose proof size_max_val as SM.
  rewrite (wrap_small (CircularBuffer.size_ r + k + 1)) by lia.
  rewrite (wrap_small (CircularBuffer.size_ r + 1)) by lia.
  do 2 f_equal. lia.
Qed.

Lemma GetTailDataBlock_over (k : Z) (r : CircularBuffer.t) :
  CircularBuffer.GetTailDataBlock Deque.BS (overcount k r)
  = (' (r', p) <- CircularBuffer.GetTailDataBlock Deque.BS r ;; Ok (overcount k r', p)).
Proof.
  unfold CircularBuffer.GetTailDataBlock, CircularBuffer.slot,
    CircularBuffer.set_slot, CircularBuffer.slots, overcount.
  cbn [CircularBuffer.size_ CircularBuffer.max_size_ CircularBuffer.head_
       CircularBuffer.tail_ CircularBuffer.buffer_].
  destruct (CircularBuffer.buffer_ r) as [a|] eqn:Ea; cbn [bind]; [|reflexivity].
  destruct (aget a _) as [[b|]|f]; cbn [bind]; try reflexivity.
  - now rewrite Ea.
  - destruct (aset a _ _) as [a'|f]; cbn [bind]; reflexivity.
Qed.

Lemma at_ptr_over (k : Z) (r : CircularBuffer.t) (p : CircularBuffer.ptr)
      (f : Block.t -> res Block.t) :
  CircularBuffer.at_ptr (overcount k r) p f
  = (r' <- CircularBuffer.at_ptr r p f ;; Ok (overcount k r')).
Proof.
  unfold CircularBuffer.at_ptr, CircularBuffer.block_at, CircularBuffer.slot,
    CircularBuffer.set_slot, CircularBuffer.slots, overcount.
  destruct p as [i|]; [|reflexivity].
  cbn [CircularBuffer.size_ CircularBuffer.max_size_ CircularBuffer.head_
       CircularBuffer.tail_ CircularBuffer.buffer_].
  destruct (CircularBuffer.buffer_ r) as [a|]; cbn [bind]; [|reflexivity].
  destruct (aget a i) as [[b|]|e]; cbn [bind CircularBuffer.deref]; try reflexivity.
  destruct (f b) as [b'|e]; cbn [bind]; [|reflexivity].
  destruct (aset a i _) as [a'|e]; cbn [bind]; reflexivity.
Qed.

Lemma expand_loop_over (k : Z) (r : CircularBuffer.t) :
  forall (room : nat) (i cnt : Z) (old new : list (option Block.t)),
    CircularBuffer.expand_loop room i cnt (overcount k r) old new
    = CircularBuffer.expand_loop room i cnt r old new.
Proof.
  induction room as [|room IH]; intros i cnt old new; [reflexivity|].
  cbn [CircularBuffer.expand_loop].
  change (CircularBuffer.tail_ (overcount k r)) with (CircularBuffer.tail_ r).
  change (CircularBuffer.max_size_ (overcount k r)) with (CircularBuffer.max_size_ r).
  destruct (i =? CircularBuffer.tail_ r); [reflexivity|].
  destruct (aget old i) as [x|e]; cbn [bind]; [|reflexivity].
  destruct (aset new cnt x) as [new'|e]; cbn [bind]; [|reflexivity].
  destruct (aset old i None) as [old'|e]; cbn [bind]; [|reflexivity].
  destruct (CircularBuffer.umod _ _) as [i'|e]; cbn [bind]; [|reflexivity].
  apply IH.
Qed.

Lemma ExpandBuffer_over (k : Z) (r : CircularBuffer.t) :
  CircularBuffer.ExpandBuffer (overcount k r)
  = (r' <- CircularBuffer.ExpandBuffer r ;;
     Ok {| CircularBuffer.size_ := CircularBuffer.size_ r + k;
           CircularBuffer.max_size_ := CircularBuffer.max_size_ r';
           CircularBuffer.head_ := CircularBuffer.head_ r';
           CircularBuffer.tail_ := wrap (CircularBuffer.size_ r + k - 1);
           CircularBuffer.buffer_ := CircularBuffer.buffer_ r' |}).
Proof.
  unfold CircularBuffer.ExpandBuffer, CircularBuffer.slots.
  change (CircularBuffer.tail_ (overcount k r)) with (CircularBuffer.tail_ r).
  change (CircularBuffer.max_size_ (overcount k r)) with (CircularBuffer.max_size_ r).
  change (CircularBuffer.head_ (overcount k r)) with (CircularBuffer.head_ r).
  change (CircularBuffer.buffer_ (overcount k r)) with (CircularBuffer.buffer_ r).
  change (CircularBuffer.size_ (overcount k r)) with (CircularBuffer.size_ r + k).
  destruct (CircularBuffer.buffer_ r) as [a|]; cbn [bind]; [|reflexivity].
  rewrite expand_loop_over.
  destruct (CircularBuffer.expand_loop _ _ _ _ _ _) as [[[cnt old'] new']|e];
    cbn [bind]; [|reflexivity].
  destruct (aget old' _) as [x|e]; cbn [bind]; [|reflexivity].
  destruct (aset new' cnt x) as [new''|e]; cbn [bind]; reflexivity.
Qed.

(** [PushBack] on the overcounted deque does what it does on the deque
    itself, unless the overcounted ring is found full with a full tail
    block. *)
Lemma PushBack_over (k v : Z) (d : Deque.t) :
  let r := Deque.data_proxy_ d in
  CircularBuffer.IsFull r = false ->
  CircularBuffer.IsFull (overcount k r) = false \/
  CircularBuffer.IsTailDataBlockFull Deque.BS r = Ok false ->
  0 <= CircularBuffer.size_ r -> 0 <= k ->
  CircularBuffer.size_ r + k + 1 < size_max ->
  Deque.PushBack v (overcounted k d)
  = (d' <- Deque.PushBack v d ;; Ok (overcounted k d')).
Proof.
  intros r Hfull Hover Hs Hk Hb.
  unfold Deque.PushBack, overcounted.
  cbn [Deque.data_proxy_ Deque.size_]. fold r. rewrite Hfull.
  change (CircularBuffer.IsTailDataBlockFull Deque.BS (overcount k r))
    with (CircularBuffer.IsTailDataBlockFull Deque.BS r).
  assert (E1 : (if CircularBuffer.IsFull (overcount k r)
                then full <- CircularBuffer.IsTailDataBlockFull Deque.BS r ;;
                     (if full then CircularBuffer.ExpandBuffer (overcount k r)
                      else Ok (overcount k r))
                else Ok (overcount k r)) = Ok (overcount k r)).
  { destruct Hover as [-> | ->]; [reflexivity|].
    destruct (CircularBuffer.IsFull (overcount k r)); reflexivity. }
  rewrite E1. cbn [bind].
  change (CircularBuffer.IsTailDataBlockFull Deque.BS (overcount k r))
    with (CircularBuffer.IsTailDataBlockFull Deque.BS r).
  change (CircularBuffer.TailIsUsedHead Deque.BS (overcount k r))
    with (CircularBuffer.TailIsUsedHead Deque.BS r).
  destruct (full <- CircularBuffer.IsTailDataBlockFull Deque.BS r ;;
            (if full then Ok true else CircularBuffer.TailIsUsedHead Deque.BS r))
    as [add|e]; cbn [bind]; [|reflexivity].
  assert (E2 : (if add then CircularBuffer.AddTailDataBlock Deque.BS (overcount k r)
                else Ok (overcount k r))
               = (r2 <- (if add then CircularBuffer.AddTailDataBlock Deque.BS r else Ok r) ;;
                  Ok (overcount k r2))).
  { destruct add; [apply AddTailDataBlock_over; assumption | reflexivity]. }
  rewrite E2.
  destruct (if add then CircularBuffer.AddTailDataBlock Deque.BS r else Ok r)
    as [r2|e]; cbn [bind]; [|reflexivity].
  rewrite GetTailDataBlock_over.
  destruct (CircularBuffer.GetTailDataBlock Deque.BS r2) as [[r3 p]|e];
    cbn [bind]; [|reflexivity].
  rewrite at_ptr_over.
  destruct (CircularBuffer.at_ptr r3 p _) as [r4|e]; cbn [bind]; reflexivity.
Qed.

Lemma concat_full_length (C : Z) (cs : list (list Z)) :
  Forall (fun c => Z.of_nat (length c) = C) cs ->
  Z.of_nat (length (concat cs)) = C * Z.of_nat (length cs).
Proof.
  induction 1 as [|c cs Hc _ IH]; [simpl; lia|].
  cbn [concat length]. rewrite length_app. lia.
Qed.

(** The number of blocks of a deque that was only used at the back. *)
Lemma stack_blocks (d : Deque.t) (l : list Z) :
  stack_inv d l ->
  let r := Deque.data_proxy_ d in
  exists c,
    0 <= c <= Deque.BS /\
    Z.of_nat (length l) = Deque.BS * (CircularBuffer.size_ r - 1) + c /\
    1 <= CircularBuffer.size_ r <= CircularBuffer.max_size_ r /\
    (2 <= CircularBuffer.size_ r -> 1 <= c) /\
    CircularBuffer.IsTailDataBlockFull Deque.BS r = Ok (c =? Deque.BS).
Proof.
  intros (bs0 & t & cs0 & ct & Hring & Hlay & Hl & Hsz & HM & Hheads & Hfull & Hlens & Hne) r.
  destruct (layout_tail_block _ _ _ _ _ Hlay) as (Ht & _).
  pose proof Ht as (_ & _ & Hh0 & Hfit & _).
  pose proof Hring as (a & _ & _ & _ & Hs & Hn & _).
  rewrite length_app in Hs, Hn. cbn [length] in Hs, Hn.
  exists (Z.of_nat (length ct)). fold r in Hs, Hn.
  split; [lia|].
  split.
  { rewrite Hl, concat_app, length_app. cbn [concat length]. rewrite app_nil_r.
    rewrite Nat2Z.inj_add, (concat_full_length Deque.BS cs0 Hfull). nia. }
  split; [lia|].
  split.
  { intros H2. destruct bs0 as [|b0 bs0']; [cbn [length] in Hs; lia|].
    assert (ct <> []) by (apply Hne; discriminate).
    destruct ct; [congruence | cbn [length]; lia]. }
  subst r. unfold CircularBuffer.IsTailDataBlockFull.
  rewrite (ring_tail_block _ _ _ Hring). cbn [bind].
  now rewrite (IsFull_rep _ _ _ Ht).
Qed.

Lemma push_all_over (k M : Z) (l2 : list Z) :
  forall (d : Deque.t) (l1 : list Z),
    stack_inv d l1 ->
    CircularBuffer.max_size_ (Deque.data_proxy_ d) = M ->
    0 <= k -> M + k + 1 < size_max ->
    Z.of_nat (length l1) + Z.of_nat (length l2) < size_max ->
    Z.of_nat (length l1) + Z.of_nat (length l2) <= Deque.BS * (M - k) ->
    1 <= k \/ Z.of_nat (length l1) + Z.of_nat (length l2) <= Deque.BS * (M - 1) ->
    exists d',
      Deque.push_all l2 d = Ok d' /\
      stack_inv d' (l1 ++ l2) /\
      CircularBuffer.max_size_ (Deque.data_proxy_ d') = M /\
      Deque.push_all l2 (overcounted k d) = Ok (overcounted k d').
Proof.
  pose proof size_max_val as SM. pose proof BS_val as HBS.
  induction l2 as [|v l2 IH]; intros d l1 Hinv HM Hk HMk Hbound Hlen Hroom.
  - exists d. rewrite app_nil_r. auto.
  - cbn [length] in Hlen, Hroom, Hbound. cbn [Deque.push_all].
    destruct (stack_blocks d l1 Hinv) as (c & Hc & Hcount & Hb & Hc1 & Etail).
    set (r := Deque.data_proxy_ d) in *.
    assert (Hlt : CircularBuffer.size_ r < M) by nia.
    destruct (stack_PushBack d l1 v Hinv) as (d1 & E1 & Hinv1 & Hkeep); [lia|].
    specialize (Hkeep ltac:(fold r; lia)). fold r in Hkeep.
    rewrite (PushBack_over k v d); fold r; try lia.
    + rewrite E1. cbn [bind].
      destruct (IH d1 (l1 ++ [v])) as (d' & E' & Hinv' & HM' & Eo'); auto;
        try (rewrite length_app; cbn [length]; lia); try congruence.
      exists d'. rewrite <- app_assoc in Hinv'. auto.
    + unfold CircularBuffer.IsFull. apply Z.eqb_neq. lia.
    + destruct (Z.eq_dec (CircularBuffer.size_ r + k) M) as [Eq|Ne].
      * right. rewrite Etail. f_equal. apply Z.eqb_neq. nia.
      * left. unfold CircularBuffer.IsFull, overcount.
        cbn [CircularBuffer.size_ CircularBuffer.max_size_]. apply Z.eqb_neq.
        fold r. lia.
Qed.

Lemma fresh_stack_inv (M : Z) :
  2 <= M <= 2 ^ 59 ->
  stack_inv {| Deque.data_proxy_ := fresh_ring M; Deque.size_ := 0 |} [].
Proof.
  intros HM. pose proof size_max_val as SM.
  destruct (make_rep Deque.BS BS_pos) as [Hrep Hprist].
  exists [], (Block.make Deque.BS), [], [].
  cbn [Deque.data_proxy_ Deque.size_ app concat length].
  split.
  { exists (upd (CircularBuffer.new_array M) 0 (Some (Block.make Deque.BS))).
    cbn [fresh_ring CircularBuffer.size_ CircularBuffer.max_size_ CircularBuffer.head_
         CircularBuffer.tail_ CircularBuffer.buffer_ length].
    split; [reflexivity|].
    split; [rewrite upd_length; unfold CircularBuffer.new_array;
            rewrite repeat_length; lia|].
    split; [lia|]. split; [reflexivity|]. split; [lia|]. split; [lia|].
    split; [rewrite Z.mod_small; lia|].
    intros j Hj. rewrite Z.add_0_l, Z.mod_small by lia.
    destruct (Z.to_nat j) as [|j'] eqn:Ej.
    - rewrite nth_error_upd_same; [reflexivity|].
      unfold CircularBuffer.new_array. rewrite repeat_length. lia.
    - rewrite nth_error_upd_other by lia.
      unfold CircularBuffer.new_array. rewrite nth_error_repeat by lia.
      destruct j'; reflexivity. }
  split; [apply layout_one; auto|].
  split; [reflexivity|]. split; [reflexivity|].
  split; [cbn [fresh_ring CircularBuffer.max_size_]; lia|].
  split; [constructor; [reflexivity | constructor]|].
  split; [constructor|]. split; [reflexivity|].
  intros H. now contradiction H.
Qed.

Lemma make_sized_over (n : Z) :
  CircularBuffer.make_sized Deque.BS n
  = overcount (CircularBuffer.GetBlocksCount n - 1)
      (fresh_ring (Z.max (CircularBuffer.GetBlocksCount n)
                         deque_settings.kBufferInitMaxSize)).
Proof.
  unfold CircularBuffer.make_sized, overcount, fresh_ring.
  cbn [CircularBuffer.size_ CircularBuffer.max_size_ CircularBuffer.head_
       CircularBuffer.tail_ CircularBuffer.buffer_].
  f_equal. lia.
Qed.

Lemma read_from_over (k : Z) (d : Deque.t) (n : nat) :
  forall i, Deque.read_from n i (overcounted k d) = Deque.read_from n i d.
Proof.
  induction n as [|n IH]; intros i; [reflexivity|].
  cbn [Deque.read_from]. rewrite IH. reflexivity.
Qed.

Lemma contents_over (k : Z) (d : Deque.t) :
  Deque.contents (overcounted k d) = Deque.contents d.
Proof. unfold Deque.contents. apply read_from_over. Qed.

Lemma push_all_app (l1 l2 : list Z) :
  forall d, Deque.push_all (l1 ++ l2) d
            = (d' <- Deque.push_all l1 d ;; Deque.push_all l2 d').
Proof.
  induction l1 as [|v l1 IH]; intros d; [reflexivity|].
  cbn [app Deque.push_all].
  destruct (Deque.PushBack v d) as [d1|e]; cbn [bind]; [apply IH | reflexivity].
Qed.

Lemma ExpandBuffer_head (r r' : CircularBuffer.t) :
  CircularBuffer.ExpandBuffer r = Ok r' -> CircularBuffer.head_ r' = 0.
Proof.
  unfold CircularBuffer.ExpandBuffer. intros E.
  apply bind_ok in E as (old & _ & E).
  apply bind_ok in E as ([[cnt old'] new'] & _ & E).
  apply bind_ok in E as (x & _ & E).
  apply bind_ok in E as (new'' & _ & E).
  injection E as <-. reflexivity.
Qed.

(** The blocks the list will need, counted before they exist. *)
Lemma blocks_needed (n : Z) :
  0 <= n < size_max ->
  let k0 := CircularBuffer.GetBlocksCount n in
  1 <= k0 <= 2 ^ 57 /\
  (n <= 1024 -> k0 <= 8) /\
  (1025 <= n -> 9 <= k0) /\
  n <= Deque.BS * k0.
Proof.
  intros Hn k0. pose proof BS_val as HBS.
  destruct (GetBlocksCount_spec n Hn) as (Hk & Hz & Hnz). fold k0 in Hk, Hz, Hnz.
  rewrite HBS in *.
  pose proof (Z.mod_pos_bound n 128 ltac:(lia)) as Hm.
  destruct (Z.eq_dec (n mod 128) 0) as [E|E].
  - destruct (Z.eq_dec n 0) as [->|Hne].
    + assert (k0 = 1) by reflexivity. lia.
    + specialize (Hz E ltac:(lia)). lia.
  - specialize (Hnz E). lia.
Qed.

(** A list of at most 1024 elements: the constructor returns, and the deque
    reads back the list. *)
Lemma make_list_small (l : list Z) :
  Z.of_nat (length l) <= 1024 ->
  exists d,
    Deque.make_list l = Ok d /\
    Deque.Size d = Z.of_nat (length l) /\
    Deque.contents d = Ok l.
Proof.
  intros Hn. pose proof size_max_val as SM. pose proof BS_val as HBS.
  set (n := Z.of_nat (length l)) in *.
  destruct (blocks_needed n) as (Hk & Hsmall & _ & _); [lia|].
  specialize (Hsmall Hn).
  set (k0 := CircularBuffer.GetBlocksCount n) in *.
  unfold Deque.make_list. fold n. rewrite make_sized_over. fold k0.
  replace (Z.max k0 deque_settings.kBufferInitMaxSize) with 16
    by (change deque_settings.kBufferInitMaxSize with 16; lia).
  destruct (push_all_over (k0 - 1) 16 l
              {| Deque.data_proxy_ := fresh_ring 16; Deque.size_ := 0 |} [])
    as (d' & E & Hinv & HM & Eo); try (cbn [length]; fold n; lia).
  { apply fresh_stack_inv. lia. }
  { reflexivity. }
  change {| Deque.data_proxy_ := overcount (k0 - 1) (fresh_ring 16); Deque.size_ := 0 |}
    with (overcounted (k0 - 1) {| Deque.data_proxy_ := fresh_ring 16; Deque.size_ := 0 |}).
  rewrite Eo. eexists. split; [reflexivity|].
  cbn [app] in Hinv. apply stack_inv_deque_inv in Hinv.
  split.
  - destruct Hinv as (_ & _ & _ & _ & _ & Hsz & _). exact Hsz.
  - rewrite contents_over. apply contents_inv; [exact Hinv | fold n; lia].
Qed.

(** [PushBack] on an overcounted deque whose ring is found full with a full
    tail block: the ring is grown, its tail index is set from the block
    count, and the slot it then names is empty. *)
Lemma PushBack_over_fault (k v : Z) (d : Deque.t) (l : list Z) :
  stack_inv d l -> 1 <= k ->
  CircularBuffer.size_ (Deque.data_proxy_ d) + k
  = CircularBuffer.max_size_ (Deque.data_proxy_ d) ->
  Z.of_nat (length l) = Deque.BS * CircularBuffer.size_ (Deque.data_proxy_ d) ->
  2 * CircularBuffer.max_size_ (Deque.data_proxy_ d) < size_max ->
  Deque.PushBack v (overcounted k d) = UB NullDeref.
Proof.
  intros Hinv Hk Hfull Hlen HM2.
  pose proof size_max_val as SM. pose proof BS_val as HBS.
  destruct (stack_blocks d l Hinv) as (c & Hc & Hcount & Hb & Hc1 & Etail).
  pose proof Hinv as (bs0 & t & cs0 & ct & Hring & _).
  set (r := Deque.data_proxy_ d) in *.
  assert (c = Deque.BS) by lia. subst c.
  rewrite Z.eqb_refl in Etail.
  destruct (ring_ExpandBuffer r _ Hring HM2) as (r1 & E1 & Hr1 & HM1).
  pose proof (ExpandBuffer_head _ _ E1) as Hh1.
  pose proof Hr1 as (a1 & Hbuf1 & Hlen1 & _ & _ & Hn1 & _).
  pose proof Hring as (a & _ & _ & _ & Hs & _).
  unfold Deque.PushBack, overcounted.
  cbn [Deque.data_proxy_ Deque.size_]. fold r.
  assert (Ef : CircularBuffer.IsFull (overcount k r) = true).
  { unfold CircularBuffer.IsFull, overcount.
    cbn [CircularBuffer.size_ CircularBuffer.max_size_]. apply Z.eqb_eq. exact Hfull. }
  rewrite Ef.
  change (CircularBuffer.IsTailDataBlockFull Deque.BS (overcount k r))
    with (CircularBuffer.IsTailDataBlockFull Deque.BS r).
  rewrite Etail. cbn [bind].
  rewrite ExpandBuffer_over, E1. cbn [bind].
  unfold CircularBuffer.IsTailDataBlockFull at 1.
  unfold CircularBuffer.block_at, CircularBuffer.slot, CircularBuffer.slots.
  cbn [CircularBuffer.buffer_ CircularBuffer.tail_].
  rewrite Hbuf1. cbn [bind].
  rewrite wrap_small by lia.
  rewrite (aget_ok a1 _ None); [reflexivity | lia |].
  rewrite (ring_slot_at r1 _ a1 _ Hr1 Hbuf1) by lia.
  f_equal. apply nth_error_None.
  rewrite Hh1, Z.sub_0_r, Z.mod_small by lia.
  fold r in Hs. lia.
Qed.

(** A list of more than 1024 elements: the constructor faults. *)
Lemma make_list_large (l : list Z) :
  1025 <= Z.of_nat (length l) < size_max ->
  Deque.make_list l = UB NullDeref.
Proof.
  intros Hn. pose proof size_max_val as SM. pose proof BS_val as HBS.
  set (n := Z.of_nat (length l)) in *.
  destruct (blocks_needed n) as (Hk & _ & Hlarge & Hfit); [lia|].
  specialize (Hlarge ltac:(lia)).
  set (k0 := CircularBuffer.GetBlocksCount n) in *.
  unfold Deque.make_list. fold n. rewrite make_sized_over. fold k0.
  change deque_settings.kBufferInitMaxSize with 16.
  set (M := Z.max k0 16).
  set (j := Z.to_nat (Deque.BS * (M - (k0 - 1)))).
  assert (Hj : Z.of_nat j = Deque.BS * (M - (k0 - 1))) by (unfold j, M; lia).
  assert (Hjn : Z.of_nat j < n) by (unfold M in Hj; lia).
  rewrite <- (firstn_skipn j l).
  assert (Hfl : length (firstn j l) = j) by (apply firstn_length_le; lia).
  destruct (skipn j l) as [|v rest] eqn:Esk.
  { exfalso. assert (length (skipn j l) = 0%nat) by now rewrite Esk.
    rewrite length_skipn in *. lia. }
  rewrite push_all_app.
  destruct (push_all_over (k0 - 1) M (firstn j l)
              {| Deque.data_proxy_ := fresh_ring M; Deque.size_ := 0 |} [])
    as (d' & E & Hinv & HM & Eo); try (cbn [length]; rewrite ?Hfl; unfold M; lia).
  { apply fresh_stack_inv. unfold M. lia. }
  { reflexivity. }
  change {| Deque.data_proxy_ := overcount (k0 - 1) (fresh_ring M); Deque.size_ := 0 |}
    with (overcounted (k0 - 1) {| Deque.data_proxy_ := fresh_ring M; Deque.size_ := 0 |}).
  rewrite Eo. cbn [bind Deque.push_all].
  cbn [app] in Hinv.
  destruct (stack_blocks d' _ Hinv) as (c & Hc & Hcount & Hb & Hc1 & _).
  rewrite Hfl, Hj, HM in *.
  rewrite (PushBack_over_fault (k0 - 1) v d' _ Hinv); [reflexivity | lia | | |].
  - rewrite HM. lia.
  - rewrite Hfl, Hj. lia.
  - rewrite HM. unfold M. lia.
Qed.

(** ** [PushFront] and [PopFront] *)

(** Where [PushFront] returns, the value is the first element of the head
    block. *)
Lemma PushFront_head (d d' : Deque.t) (l : list Z) (v : Z) :
  deque_inv d l -> Z.of_nat (length l) + 1 < size_max ->
  Deque.PushFront v d = Ok d' ->
  exists hb bs' c' cs',
    ring_inv (Deque.data_proxy_ d') (hb :: bs') /\
    layout Deque.BS (hb :: bs') ((v :: c') :: cs') /\
    v :: l = concat ((v :: c') :: cs') /\
    Deque.size_ d' = Z.of_nat (length (v :: l)).
Proof.
  intros (bs & cs & Hring & Hlay & Hl & Hsz & HM) Hbound Hrun.
  pose proof size_max_val as SM.
  pose proof BS_pos as HC0. pose proof BS_small as HC1.
  destruct (layout_as_cons _ _ _ Hlay) as (h & bs1 & ch & cs1 & -> & ->).
  destruct (layout_head_block _ HC0 HC1 _ _ _ _ Hlay) as (Hh & Hshape & Hfront & Hnil).
  assert (Hcount : Z.of_nat (length (concat (ch :: cs1))) < size_max)
    by (rewrite <- Hl; lia).
  unfold Deque.PushFront in Hrun.
  destruct (grow_step d _ _ (CircularBuffer.IsHeadDataBlockFull Deque.BS (Deque.data_proxy_ d)) h
                      Hring Hlay Hcount HM) as (r1 & E1 & Hr1 & HM1 & Hroom).
  { unfold CircularBuffer.IsHeadDataBlockFull.
    now rewrite (ring_head_block _ _ _ Hring). }
  rewrite E1 in Hrun. cbn [bind] in Hrun. clear E1.
  rewrite (IsFull_rep _ _ _ Hh) in Hroom.
  pose proof Hh as (_ & Hsize & Hh0 & Hfit & _).
  assert (Hsz' : wrap (Deque.size_ d + 1) = Z.of_nat (length (v :: l))).
  { rewrite Hsz. simpl length. rewrite wrap_small; lia. }
  (* whether a block is added before the head block *)
  assert (Hadd : exists add,
             (empty <- CircularBuffer.IsEmpty r1 ;;
              if negb empty then CircularBuffer.IsHeadStartNotShifted r1 else Ok false)
             = Ok add /\
             (add = true -> Block.head_ h = 0 /\ synced h) /\
             (add = false -> (0 < Block.head_ h /\ synced h) \/ (bs1 = [] /\ ch = []))).
  { unfold CircularBuffer.IsHeadStartNotShifted.
    rewrite (ring_head_block _ _ _ Hr1).
    assert (Hcase : 0 < Block.head_ h \/ Block.head_ h = 0) by lia.
    destruct bs1 as [|b1 bs1'].
    - destruct (ring_IsEmpty_one r1 h Hr1) as [[_ Ee]|[_ Ee]]; rewrite Ee in *;
        cbn [bind] in *; [|discriminate].
      rewrite (IsEmpty_rep _ _ _ Hh).
      destruct (Z.eqb_spec (Z.of_nat (length ch)) 0) as [Ez|Ez]; cbn [negb bind].
      + exists false. split; auto. split; [discriminate|].
        intros _. right. split; auto. destruct ch; [auto | simpl in Ez; lia].
      + assert (Hs : synced h).
        { destruct Hshape as [|Hp]; auto.
          apply (pristine_size _ _ _ Hh) in Hp. subst ch. simpl in Ez. lia. }
        unfold Block.IsHeadShifted. rewrite negb_involutive.
        eexists. split; [reflexivity|].
        destruct (Z.eqb_spec (Block.head_ h) 0); split; auto; try discriminate.
        intros _. left. split; auto. lia.
    - rewrite (ring_IsEmpty_many r1 _ Hr1) by (simpl; lia). cbn [negb bind].
      assert (Hs : synced h).
      { apply front_ok_synced with (C := Deque.BS); auto. apply Hfront. discriminate. }
      unfold Block.IsHeadShifted. rewrite negb_involutive.
      eexists. split; [reflexivity|].
      destruct (Z.eqb_spec (Block.head_ h) 0); split; auto; try discriminate.
      intros _. left. split; auto. lia. }
  destruct Hadd as (add & Eadd & Hyes & Hno). rewrite Eadd in Hrun. cbn [bind] in Hrun.
  clear Eadd.
  destruct add.
  - (* a block is added before the head block *)
    destruct Hyes as [Hzero Hsync]; auto.
    assert (Hlt : Z.of_nat (length (h :: bs1)) < CircularBuffer.max_size_ r1).
    { destruct (Z.eqb_spec (Z.of_nat (length ch)) Deque.BS) as [E|E]; [auto|].
      destruct bs1 as [|b1 bs1'].
      - simpl. lia.
      - destruct Hfront as [Hf0 _]; [discriminate|]. lia. }
    destruct (ring_AddHeadDataBlock Deque.BS r1 _ Hr1 Hlt) as (r2 & E2 & Hr2 & HM2).
    rewrite E2 in Hrun. cbn [bind] in Hrun.
    rewrite (ring_GetHeadDataBlock r2 _ Hr2) in Hrun. cbn [bind] in Hrun.
    destruct (make_rep Deque.BS HC0) as [Hfresh Hprist].
    destruct (Block_PushFront_pristine Deque.BS HC0 HC1 (Block.make Deque.BS) v Hfresh Hprist)
      as (b' & Eb & Hb' & Hsync' & Hfront').
    destruct (ring_at_head r2 _ _ b' _ Hr2 Eb) as (r4 & E4 & Hr4 & HM4 & _).
    rewrite E4 in Hrun. cbn [bind] in Hrun.
    injection Hrun as <-.
    exists b', (h :: bs1), [], (ch :: cs1).
    cbn [Deque.data_proxy_ Deque.size_].
    split; [exact Hr4|]. split.
    { apply layout_add_head; auto. }
    split; [now rewrite Hl|].
    exact Hsz'.
  - (* the value goes to the head block *)
    cbn [bind] in Hrun.
    rewrite (ring_GetHeadDataBlock r1 _ Hr1) in Hrun. cbn [bind] in Hrun.
    assert (Hdone : forall b' ch',
               Block.PushFront Deque.BS v h = Ok b' ->
               block_rep Deque.BS b' (v :: ch') -> synced b' ->
               concat ((v :: ch') :: cs1) = v :: l ->
               layout Deque.BS (b' :: bs1) ((v :: ch') :: cs1) ->
               exists hb bs' c' cs',
                 ring_inv (Deque.data_proxy_ d') (hb :: bs') /\
                 layout Deque.BS (hb :: bs') ((v :: c') :: cs') /\
                 v :: l = concat ((v :: c') :: cs') /\
                 Deque.size_ d' = Z.of_nat (length (v :: l))).
    { intros b' ch' Eb Hb' Hsync' Hcat Hlay'.
      destruct (ring_at_head r1 _ _ b' _ Hr1 Eb) as (r4 & E4 & Hr4 & HM4 & _).
      rewrite E4 in Hrun. cbn [bind] in Hrun.
      injection Hrun as <-.
      exists b', bs1, ch', cs1.
      cbn [Deque.data_proxy_ Deque.size_].
      split; [exact Hr4|]. split; [exact Hlay'|].
      split; [now rewrite Hcat|].
      exact Hsz'. }
    destruct Hno as [[Hpos Hsync] | [-> ->]]; auto.
    + destruct (Block_PushFront_shifted Deque.BS HC0 HC1 h ch v Hh Hsync Hpos)
        as (b' & Eb & Hb' & Hsync' & Htail' & Hhead').
      apply (Hdone b' ch); auto.
      * now rewrite Hl.
      * apply (layout_set_head Deque.BS h b' bs1 ch); auto.
        destruct Hb' as (_ & Hs' & _). simpl length in Hs'. lia.
    + rewrite Hnil in * by reflexivity.
      destruct Hshape as [Hsync | Hprist].
      * assert (Hcase : 0 < Block.head_ h \/ Block.head_ h = 0) by lia.
        destruct Hcase as [Hpos | Hzero].
        -- destruct (Block_PushFront_shifted Deque.BS HC0 HC1 h [] v Hh Hsync Hpos)
             as (b' & Eb & Hb' & Hsync' & Htail' & Hhead').
           apply (Hdone b' []); auto.
           ++ now rewrite Hl.
           ++ apply layout_one; auto.
        -- rewrite (ring_at_head_fault _ _ _ _ OutOfBounds Hr1) in Hrun.
           ++ discriminate.
           ++ apply (Block_PushFront_fault Deque.BS); auto.
      * destruct (Block_PushFront_pristine Deque.BS HC0 HC1 h v Hh Hprist)
          as (b' & Eb & Hb' & Hsync' & Hfront').
        apply (Hdone b' []); auto.
        -- now rewrite Hl.
        -- apply layout_one; auto.
Qed.

(** [PopFront] returns when the head block holds an element. *)
Lemma PopFront_fwd (d : Deque.t) (h : Block.t) (bs1 : list Block.t)
      (x0 : Z) (ch0 : list Z) (cs1 : list (list Z)) :
  ring_inv (Deque.data_proxy_ d) (h :: bs1) ->
  layout Deque.BS (h :: bs1) ((x0 :: ch0) :: cs1) ->
  Deque.size_ d = Z.of_nat (length (concat ((x0 :: ch0) :: cs1))) ->
  exists d', Deque.PopFront d = Ok d'.
Proof.
  intros Hring Hlay Hsz.
  pose proof size_max_val as SM.
  pose proof BS_pos as HC0. pose proof BS_small as HC1.
  destruct (layout_head_block _ HC0 HC1 _ _ _ _ Hlay) as (Hh & Hshape & Hfront & Hnil).
  unfold Deque.PopFront.
  rewrite (ring_GetHeadDataBlock _ _ Hring). cbn [bind].
  assert (Hsync : synced h).
  { destruct Hshape as [|Hp]; auto.
    apply (pristine_size _ _ _ Hh) in Hp. discriminate. }
  destruct (Block_PopFront_rep Deque.BS HC1 h ch0 x0 Hh Hsync)
    as (b' & Eb & Hb' & Hsync' & Htail' & Hhead').
  destruct (ring_at_head _ _ _ b' _ Hring Eb) as (r2 & E2 & Hr2 & HM2 & Hhd2).
  rewrite E2. cbn [bind].
  unfold CircularBuffer.read_ptr.
  rewrite <- Hhd2.
  rewrite (ring_head_block _ _ _ Hr2). cbn [bind].
  rewrite (IsEmpty_rep _ _ _ Hb').
  destruct ((Z.of_nat (length ch0) =? 0) && (Deque.size_ d >? 1)) eqn:Edel.
  - apply andb_prop in Edel. destruct Edel as [Ez Eg].
    apply Z.eqb_eq in Ez. rewrite Z.gtb_ltb in Eg. apply Z.ltb_lt in Eg.
    assert (ch0 = []) by (destruct ch0; [auto | simpl in Ez; lia]). subst ch0.
    assert (Hbs1 : bs1 <> []).
    { intros ->. rewrite Hnil in Hsz by reflexivity. simpl in Hsz. lia. }
    destruct (ring_DeleteDataBlockFromHead r2 _ Hr2) as (r3 & E3 & Hr3 & HM3).
    { simpl. destruct bs1; [congruence | simpl; lia]. }
    rewrite E3. cbn [bind]. eauto.
  - cbn [bind]. eauto.
Qed.

(** * Further theorems *)

Lemma reached_inv (ops : list op) (d : Deque.t) :
  within_contract ops 0 = true ->
  Z.of_nat (length ops) < size_max ->
  run ops Deque.make = Ok d ->
  deque_inv d (ref_run ops []) /\
  Z.of_nat (length (ref_run ops [])) <= Z.of_nat (length ops) /\
  Deque.Size d = Z.of_nat (length (ref_run ops [])).
Proof.
  intros Hc Hb Hrun.
  assert (Hinv : deque_inv d (ref_run ops []))
    by (apply (run_inv ops Deque.make d []); auto using make_inv).
  pose proof (ref_run_length ops []) as Hlen. cbn [length] in Hlen.
  split; [exact Hinv|]. split; [lia|].
  destruct Hinv as (bs & cs & _ & _ & _ & Hsz & _). exact Hsz.
Qed.

(** X1.  [PushBack] never faults on a state reached from the empty deque by
    a run within the contract: it returns, the size grows by one, and the
    deque reads back the reference list with the value appended.  (The same
    does not hold of [PushFront], which faults after [PushBack], [PopBack].) *)
Theorem reached_PushBack_returns (ops : list op) (d : Deque.t) (v : Z) :
  within_contract ops 0 = true ->
  Z.of_nat (length ops) + 1 < size_max ->
  run ops Deque.make = Ok d ->
  exists d',
    Deque.PushBack v d = Ok d' /\
    Deque.Size d' = Deque.Size d + 1 /\
    Deque.contents d' = Ok (ref_run ops [] ++ [v]).
Proof.
  intros Hc Hb Hrun.
  destruct (reached_inv ops d Hc ltac:(lia) Hrun) as (Hinv & Hlen & Hsz).
  destruct (PushBack_returns d _ v Hinv) as (d' & E & Hinv'); [lia|].
  exists d'. split; [exact E|].
  split.
  - destruct Hinv' as (bs & cs & _ & _ & _ & Hsz' & _).
    unfold Deque.Size in *. rewrite Hsz', Hsz, length_app. cbn [length]. lia.
  - apply contents_inv; [exact Hinv'|]. rewrite length_app. cbn [length]. lia.
Qed.

Lemma reached_PushBack_returns_witness :
  within_contract sample_ops 0 = true /\
  Z.of_nat (length sample_ops) + 1 < size_max /\
  run sample_ops Deque.make = Ok sample_state /\
  exists d',
    Deque.PushBack 9 sample_state = Ok d' /\
    Deque.Size d' = Deque.Size sample_state + 1 /\
    Deque.contents d' = Ok (ref_run sample_ops [] ++ [9]).
Proof.
  assert (H1 : within_contract sample_ops 0 = true) by (vm_compute; reflexivity).
  assert (H2 : Z.of_nat (length sample_ops) + 1 < size_max) by (vm_compute; reflexivity).
  assert (H3 : run sample_ops Deque.make = Ok sample_state) by (vm_compute; reflexivity).
  split; [exact H1|]. split; [exact H2|]. split; [exact H3|].
  apply (reached_PushBack_returns sample_ops sample_state 9 H1 H2 H3).
Defined.

(** X2.  A run that uses the back of the deque only ([PushBack] and
    [PopBack], no pop on an empty deque) never faults: it returns from the
    empty deque, and the deque then has the size and the elements of the
    reference list. *)
Theorem back_only_run_returns (ops : list op) :
  back_only ops = true ->
  within_contract ops 0 = true ->
  Z.of_nat (length ops) < size_max ->
  exists d,
    run ops Deque.make = Ok d /\
    Deque.Size d = Z.of_nat (length (ref_run ops [])) /\
    Deque.contents d = Ok (ref_run ops []).
Proof.
  intros Hback Hc Hb.
  destruct (back_only_run ops Deque.make [] make_stack_inv Hback Hc)
    as (d & E & Hinv); [cbn [length]; lia|].
  apply stack_inv_deque_inv in Hinv.
  pose proof (ref_run_length ops []) as Hlen. cbn [length] in Hlen.
  exists d. split; [exact E|].
  split.
  - destruct Hinv as (bs & cs & _ & _ & _ & Hsz & _). exact Hsz.
  - apply contents_inv; [exact Hinv | lia].
Qed.

Lemma back_only_run_returns_witness :
  back_only stack_ops = true /\
  within_contract stack_ops 0 = true /\
  Z.of_nat (length stack_ops) < size_max /\
  exists d,
    run stack_ops Deque.make = Ok d /\
    Deque.Size d = Z.of_nat (length (ref_run stack_ops [])) /\
    Deque.contents d = Ok (ref_run stack_ops []).
Proof.
  assert (H1 : back_only stack_ops = true) by (vm_compute; reflexivity).
  assert (H2 : within_contract stack_ops 0 = true) by (vm_compute; reflexivity).
  assert (H3 : Z.of_nat (length stack_ops) < size_max) by (vm_compute; reflexivity).
  split; [exact H1|]. split; [exact H2|]. split; [exact H3|].
  apply (back_only_run_returns stack_ops H1 H2 H3).
Defined.

(** X3.  On a state reached by a run within the contract, [PushBack]
    followed by [PopBack] returns and gives back the size and the elements
    the deque had. *)
Theorem PushBack_then_PopBack (ops : list op) (d : Deque.t) (v : Z) :
  within_contract ops 0 = true ->
  Z.of_nat (length ops) + 1 < size_max ->
  run ops Deque.make = Ok d ->
  exists d1 d2,
    Deque.PushBack v d = Ok d1 /\
    Deque.PopBack d1 = Ok d2 /\
    Deque.Size d2 = Deque.Size d /\
    Deque.contents d2 = Ok (ref_run ops []) /\
    Deque.contents d2 = Deque.contents d.
Proof.
  intros Hc Hb Hrun.
  destruct (reached_inv ops d Hc ltac:(lia) Hrun) as (Hinv & Hlen & Hsz).
  set (l := ref_run ops []) in *.
  pose proof Hinv as (bs & cs & Hring & Hlay & Hl & Hs & HM).
  destruct (layout_as_snoc _ _ _ Hlay) as (bs0 & t & cs0 & ct & -> & ->).
  destruct (PushBack_fwd d bs0 t cs0 ct v Hring Hlay)
    as (d1 & t' & E1 & Hsz1 & HM1 & _ & Hcase); try lia; try (rewrite <- Hl; lia).
  assert (Hinv1 : deque_inv d1 (l ++ [v])) by (apply (PushBack_inv d d1 l v); auto; lia).
  assert (Hlen1 : Z.of_nat (length (l ++ [v])) = Z.of_nat (length l) + 1)
    by (rewrite length_app; cbn [length]; lia).
  assert (E2 : exists d2, Deque.PopBack d1 = Ok d2).
  { destruct Hcase as [(_ & Hr1 & Hlay1 & _) | (_ & Hr1 & Hlay1 & _)].
    - destruct (PopBack_fwd d1 bs0 t' cs0 ct v Hr1 Hlay1) as (d2 & E2 & _);
        [rewrite concat_snoc_app, <- Hl; lia | lia | eauto].
    - change [[v]] with [[] ++ [v]] in Hlay1.
      destruct (PopBack_fwd d1 (bs0 ++ [t]) t' (cs0 ++ [ct]) [] v Hr1 Hlay1)
        as (d2 & E2 & _); [|lia | eauto].
      cbn [app]. rewrite concat_snoc_new, <- Hl. lia. }
  destruct E2 as (d2 & E2).
  assert (Hinv2 : deque_inv d2 l).
  { rewrite <- (removelast_last l v).
    apply (PopBack_inv d1 d2 (l ++ [v])); auto; [|lia].
    destruct l; discriminate. }
  exists d1, d2. split; [exact E1|]. split; [exact E2|].
  split.
  - destruct Hinv2 as (? & ? & _ & _ & _ & Hs2 & _). unfold Deque.Size in *. lia.
  - rewrite (contents_inv d2 l Hinv2), (contents_inv d l Hinv) by lia. auto.
Qed.

Lemma PushBack_then_PopBack_witness :
  within_contract sample_ops 0 = true /\
  Z.of_nat (length sample_ops) + 1 < size_max /\
  run sample_ops Deque.make = Ok sample_state /\
  exists d1 d2,
    Deque.PushBack 9 sample_state = Ok d1 /\
    Deque.PopBack d1 = Ok d2 /\
    Deque.Size d2 = Deque.Size sample_state /\
    Deque.contents d2 = Ok (ref_run sample_ops []) /\
    Deque.contents d2 = Deque.contents sample_state.
Proof.
  assert (H1 : within_contract sample_ops 0 = true) by (vm_compute; reflexivity).
  assert (H2 : Z.of_nat (length sample_ops) + 1 < size_max) by (vm_compute; reflexivity).
  assert (H3 : run sample_ops Deque.make = Ok sample_state) by (vm_compute; reflexivity).
  split; [exact H1|]. split; [exact H2|]. split; [exact H3|].
  apply (PushBack_then_PopBack sample_ops sample_state 9 H1 H2 H3).
Defined.

(** X4.  [Deque(n)] faults for every [n] that is a multiple of the block
    size, 0 included: the last block is built with [n % BlockSize] = 0
    elements, and the loop of [Block(0, filler)] runs past the array. *)
Theorem sized_constructor_faults_on_multiples (n : Z) :
  0 <= n < size_max -> n mod Deque.BS = 0 ->
  Deque.make_sized n = UB OutOfBounds.
Proof. exact (make_sized_fault n). Qed.

Lemma sized_constructor_faults_on_multiples_witness :
  0 <= 256 < size_max /\ 256 mod Deque.BS = 0 /\
  Deque.make_sized 256 = UB OutOfBounds.
Proof.
  assert (H1 : 0 <= 256 < size_max) by (vm_compute; split; [discriminate | reflexivity]).
  assert (H2 : 256 mod Deque.BS = 0) by (vm_compute; reflexivity).
  split; [exact H1|]. split; [exact H2|].
  apply (sized_constructor_faults_on_multiples 256 H1 H2).
Defined.

(** X5.  [Deque(n)] for an [n] below [2^64] that is no multiple of the block
    size returns; [Size()] is [n], every index below [n] reads 0, the ring
    counts the blocks that hold the [n] elements, and the ring's tail index
    is left at 0 whatever the number of blocks. *)
Theorem sized_constructor_reads_zero (n : Z) :
  0 < n < size_max -> n mod Deque.BS <> 0 ->
  exists d,
    Deque.make_sized n = Ok d /\
    Deque.Size d = n /\
    CircularBuffer.size_ (Deque.data_proxy_ d) = CircularBuffer.GetBlocksCount n /\
    CircularBuffer.tail_ (Deque.data_proxy_ d) = 0 /\
    forall i, 0 <= i < n -> Deque.index i d = Ok 0.
Proof.
  intros Hn Hmod.
  destruct (make_sized_rep n Hn Hmod)
    as (d & l & E & Hsz & Hk & Htl & Hlen & Hzero & _ & Hinv).
  exists d. split; [exact E|]. split; [exact Hsz|].
  split; [exact Hk|]. split; [exact Htl|].
  intros i Hi. apply stack_inv_deque_inv in Hinv.
  rewrite <- index_retail.
  rewrite (index_inv (retail d) l i Hinv) by lia.
  f_equal. symmetry.
  apply (proj1 (Forall_nth (eq 0) l) Hzero). lia.
Qed.

Lemma sized_constructor_reads_zero_witness :
  0 < 130 < size_max /\ 130 mod Deque.BS <> 0 /\
  exists d,
    Deque.make_sized 130 = Ok d /\
    Deque.Size d = 130 /\
    CircularBuffer.size_ (Deque.data_proxy_ d) = CircularBuffer.GetBlocksCount 130 /\
    CircularBuffer.tail_ (Deque.data_proxy_ d) = 0 /\
    forall i, 0 <= i < 130 -> Deque.index i d = Ok 0.
Proof.
  assert (H1 : 0 < 130 < size_max) by (vm_compute; split; reflexivity).
  assert (H2 : 130 mod Deque.BS <> 0) by (vm_compute; discriminate).
  split; [exact H1|]. split; [exact H2|].
  apply (sized_constructor_reads_zero 130 H1 H2).
Defined.

(** X6.  [Deque(n)] for [1 <= n < BlockSize] is a deque of [n] zeros in
    every respect: a run within the contract that returns from it leaves
    the size and the elements of the reference list started from [n]
    zeros. *)
Theorem sized_constructor_below_block_size (n : Z) (ops : list op) (d d' : Deque.t) :
  1 <= n < Deque.BS ->
  Deque.make_sized n = Ok d ->
  within_contract ops (Z.to_nat n) = true ->
  Z.of_nat (length ops) < size_max - Deque.BS ->
  run ops d = Ok d' ->
  Deque.Size d' = Z.of_nat (length (ref_run ops (repeat 0 (Z.to_nat n)))) /\
  Deque.contents d' = Ok (ref_run ops (repeat 0 (Z.to_nat n))).
Proof.
  intros Hn E Hc Hb Hrun.
  destruct (make_sized_small n Hn) as (d0 & E0 & Hinv0).
  rewrite E in E0. injection E0 as <-.
  apply stack_inv_deque_inv in Hinv0.
  pose proof (ref_run_length ops (repeat 0 (Z.to_nat n))) as Hlen.
  rewrite repeat_length in Hlen.
  assert (Hinv : deque_inv d' (ref_run ops (repeat 0 (Z.to_nat n)))).
  { apply (run_inv ops d d'); auto; rewrite repeat_length; [exact Hc | lia]. }
  split.
  - destruct Hinv as (bs & cs & _ & _ & _ & Hsz & _). exact Hsz.
  - apply contents_inv; [exact Hinv | lia].
Qed.

Lemma sized_constructor_below_block_size_witness :
  1 <= 5 < Deque.BS /\
  Deque.make_sized 5 = Ok (sized_state 5) /\
  within_contract [OpPushFront 1; OpPushBack 2; OpPopFront] (Z.to_nat 5) = true /\
  Z.of_nat (length [OpPushFront 1; OpPushBack 2; OpPopFront]) < size_max - Deque.BS /\
  run [OpPushFront 1; OpPushBack 2; OpPopFront] (sized_state 5)
  = Ok (state_after [OpPushFront 1; OpPushBack 2; OpPopFront] (sized_state 5)) /\
  (Deque.Size (state_after [OpPushFront 1; OpPushBack 2; OpPopFront] (sized_state 5))
   = Z.of_nat (length (ref_run [OpPushFront 1; OpPushBack 2; OpPopFront]
                               (repeat 0 (Z.to_nat 5)))) /\
   Deque.contents (state_after [OpPushFront 1; OpPushBack 2; OpPopFront] (sized_state 5))
   = Ok (ref_run [OpPushFront 1; OpPushBack 2; OpPopFront] (repeat 0 (Z.to_nat 5)))).
Proof.
  assert (H1 : 1 <= 5 < Deque.BS) by (vm_compute; split; [discriminate | reflexivity]).
  assert (H2 : Deque.make_sized 5 = Ok (sized_state 5)) by (vm_compute; reflexivity).
  assert (H3 : within_contract [OpPushFront 1; OpPushBack 2; OpPopFront] (Z.to_nat 5)
               = true) by (vm_compute; reflexivity).
  assert (H4 : Z.of_nat (length [OpPushFront 1; OpPushBack 2; OpPopFront])
               < size_max - Deque.BS) by (vm_compute; reflexivity).
  assert (H5 : run [OpPushFront 1; OpPushBack 2; OpPopFront] (sized_state 5)
               = Ok (state_after [OpPushFront 1; OpPushBack 2; OpPopFront] (sized_state 5)))
    by (vm_compute; reflexivity).
  split; [exact H1|]. split; [exact H2|]. split; [exact H3|].
  split; [exact H4|]. split; [exact H5|].
  apply (sized_constructor_below_block_size 5 _ _ _ H1 H2 H3 H4 H5).
Defined.

(** X7.  [Block(size, filler)] returns exactly when [1 <= size <=
    BlockSize]: the window is then the first [size] cells, each of which
    reads [filler].  For size 0 and for a size above [BlockSize] the loop
    stores past the array. *)
Theorem Block_sized_constructor (C s filler : Z) :
  0 < C < 2 ^ 32 -> 0 <= s < size_max ->
  (1 <= s <= C ->
   exists b,
     Block.make_filled C s filler = Ok b /\
     window b = (0, s - 1, s) /\
     forall i, 0 <= i < s -> Block.Get i b = Ok filler) /\
  (s = 0 \/ C < s -> Block.make_filled C s filler = UB OutOfBounds).
Proof.
  intros [HC0 HC1] Hs. split.
  - intros Hin.
    destruct (Block_make_filled_ok C HC0 HC1 s filler Hin)
      as (b & E & Hrep & Hh & Ht & Hsz).
    exists b. split; [exact E|].
    split; [unfold window; now rewrite Hh, Ht, Hsz|].
    intros i Hi.
    rewrite (Block_Get_rep C HC1 b _ i Hrep) by (rewrite repeat_length; lia).
    f_equal. apply nth_repeat_lt. lia.
  - intros Hbad. apply (Block_make_filled_fault C HC0 HC1 s filler Hs Hbad).
Qed.

Lemma Block_sized_constructor_witness :
  0 < Deque.BS < 2 ^ 32 /\ 0 <= 5 < size_max /\
  ((1 <= 5 <= Deque.BS ->
    exists b,
      Block.make_filled Deque.BS 5 7 = Ok b /\
      window b = (0, 5 - 1, 5) /\
      forall i, 0 <= i < 5 -> Block.Get i b = Ok 7) /\
   (5 = 0 \/ Deque.BS < 5 -> Block.make_filled Deque.BS 5 7 = UB OutOfBounds)).
Proof.
  assert (H1 : 0 < Deque.BS < 2 ^ 32) by (vm_compute; split; reflexivity).
  assert (H2 : 0 <= 5 < size_max) by (vm_compute; split; [discriminate | reflexivity]).
  split; [exact H1|]. split; [exact H2|].
  apply (Block_sized_constructor Deque.BS 5 7 H1 H2).
Defined.

(** X8.  [Block::Init(size)] on a block, the same way: it returns exactly
    when [1 <= size <= BlockSize], and the block then holds [size] zeros
    from offset 0 on. *)
Theorem Block_Init_window (C s : Z) (b : Block.t) :
  0 < C < 2 ^ 32 -> Z.of_nat (length (Block.data_ b)) = C -> 0 <= s < size_max ->
  (1 <= s <= C ->
   exists b',
     Block_Init s b = Ok b' /\
     window b' = (0, s - 1, s) /\
     forall i, 0 <= i < s -> Block.Get i b' = Ok 0) /\
  (s = 0 \/ C < s -> Block_Init s b = UB OutOfBounds).
Proof.
  intros [HC0 HC1] Hlen Hs. pose proof size_max_val as SM.
  unfold Block_Init. split.
  - intros Hin. rewrite (wrap_small (s - 1)) by lia.
    destruct (fill_spec C HC0 HC1 (s - 1) 0 ltac:(lia)
                (length (Block.data_ b)) 0 (Block.data_ b))
      as [Hok _]; try lia.
    destruct Hok as (data' & E & Hl' & Hcells); [lia|].
    rewrite E. cbn [bind]. eexists. split; [reflexivity|].
    split; [reflexivity|].
    intros i Hi. unfold Block.Get. cbn [Block.head_ Block.data_].
    rewrite wrap_small by lia.
    apply aget_ok; [lia|].
    rewrite Hcells.
    destruct (Z.leb_spec 0 (Z.of_nat (Z.to_nat (0 + i)))); [|lia].
    destruct (Z.leb_spec (Z.of_nat (Z.to_nat (0 + i))) (s - 1)); [|lia].
    destruct (Z.ltb_spec (Z.of_nat (Z.to_nat (0 + i))) C); [reflexivity | lia].
  - intros Hbad.
    assert (Ht : 0 <= wrap (s - 1) < size_max /\ C <= wrap (s - 1)).
    { destruct Hbad as [->|Hgt].
      - rewrite (wrap_below (0 - 1)) by lia. lia.
      - rewrite wrap_small by lia. lia. }
    destruct (fill_spec C HC0 HC1 (wrap (s - 1)) 0 ltac:(lia)
                (length (Block.data_ b)) 0 (Block.data_ b))
      as [_ Hub]; try lia.
    rewrite Hub by lia. reflexivity.
Qed.

Lemma Block_Init_window_witness :
  0 < Deque.BS < 2 ^ 32 /\
  Z.of_nat (length (Block.data_ (Block.make Deque.BS))) = Deque.BS /\
  0 <= 5 < size_max /\
  ((1 <= 5 <= Deque.BS ->
    exists b',
      Block_Init 5 (Block.make Deque.BS) = Ok b' /\
      window b' = (0, 5 - 1, 5) /\
      forall i, 0 <= i < 5 -> Block.Get i b' = Ok 0) /\
   (5 = 0 \/ Deque.BS < 5 -> Block_Init 5 (Block.make Deque.BS) = UB OutOfBounds)).
Proof.
  assert (H1 : 0 < Deque.BS < 2 ^ 32) by (vm_compute; split; reflexivity).
  assert (H2 : Z.of_nat (length (Block.data_ (Block.make Deque.BS))) = Deque.BS)
    by (vm_compute; reflexivity).
  assert (H3 : 0 <= 5 < size_max) by (vm_compute; split; [discriminate | reflexivity]).
  split; [exact H1|]. split; [exact H2|]. split; [exact H3|].
  apply (Block_Init_window Deque.BS 5 (Block.make Deque.BS) H1 H2 H3).
Defined.

(** X9.  The block count the sized constructors start from is the number
    of blocks that [n] elements need: the least [k >= 1] with
    [n <= BlockSize * k]. *)
Theorem GetBlocksCount_is_ceiling (n : Z) :
  0 <= n < size_max ->
  1 <= CircularBuffer.GetBlocksCount n /\
  n <= Deque.BS * CircularBuffer.GetBlocksCount n /\
  (1 < CircularBuffer.GetBlocksCount n ->
   Deque.BS * (CircularBuffer.GetBlocksCount n - 1) < n).
Proof.
  intros Hn. pose proof BS_val as HBS.
  destruct (GetBlocksCount_spec n Hn) as (Hk & Hz & Hnz).
  set (k0 := CircularBuffer.GetBlocksCount n) in *.
  rewrite HBS in *.
  pose proof (Z.mod_pos_bound n 128 ltac:(lia)) as Hm.
  destruct (Z.eq_dec (n mod 128) 0) as [E|E].
  - destruct (Z.eq_dec n 0) as [->|Hne].
    + assert (k0 = 1) by reflexivity. lia.
    + specialize (Hz E ltac:(lia)). lia.
  - specialize (Hnz E). lia.
Qed.

Lemma GetBlocksCount_is_ceiling_witness :
  0 <= 300 < size_max /\
  1 <= CircularBuffer.GetBlocksCount 300 /\
  300 <= Deque.BS * CircularBuffer.GetBlocksCount 300 /\
  (1 < CircularBuffer.GetBlocksCount 300 ->
   Deque.BS * (CircularBuffer.GetBlocksCount 300 - 1) < 300).
Proof.
  assert (H1 : 0 <= 300 < size_max) by (vm_compute; split; [discriminate | reflexivity]).
  split; [exact H1|].
  apply (GetBlocksCount_is_ceiling 300 H1).
Defined.

(** X10.  Copying a state reached by a run within the contract whose ring
    starts at slot 0, or whose ring is full: the copy constructor returns a
    deque equal to the original, field by field and block by block, and so
    does copy assignment, whatever the destination held. *)
Theorem copy_of_unrotated_ring (ops : list op) (d this : Deque.t) :
  within_contract ops 0 = true ->
  Z.of_nat (length ops) < size_max ->
  run ops Deque.make = Ok d ->
  CircularBuffer.head_ (Deque.data_proxy_ d) = 0 \/
  CircularBuffer.size_ (Deque.data_proxy_ d)
  = CircularBuffer.max_size_ (Deque.data_proxy_ d) ->
  Deque.copy_construct d = Ok d /\
  Deque.copy_assign this d = Ok d.
Proof.
  intros Hc Hb Hrun Hcase.
  destruct (reached_inv ops d Hc Hb Hrun) as (Hinv & _).
  destruct (copy_construct_inv d _ Hinv) as [Hok _].
  specialize (Hok Hcase).
  split; [exact Hok|].
  unfold Deque.copy_assign. rewrite Hok. cbn [bind].
  destruct d as [[s m h t b] n]. reflexivity.
Qed.

Lemma copy_of_unrotated_ring_witness :
  within_contract stack_ops 0 = true /\
  Z.of_nat (length stack_ops) < size_max /\
  run stack_ops Deque.make = Ok (state_after stack_ops Deque.make) /\
  (CircularBuffer.head_ (Deque.data_proxy_ (state_after stack_ops Deque.make)) = 0 \/
   CircularBuffer.size_ (Deque.data_proxy_ (state_after stack_ops Deque.make))
   = CircularBuffer.max_size_ (Deque.data_proxy_ (state_after stack_ops Deque.make))) /\
  (Deque.copy_construct (state_after stack_ops Deque.make)
   = Ok (state_after stack_ops Deque.make) /\
   Deque.copy_assign sample_state (state_after stack_ops Deque.make)
   = Ok (state_after stack_ops Deque.make)).
Proof.
  assert (H1 : within_contract stack_ops 0 = true) by (vm_compute; reflexivity).
  assert (H2 : Z.of_nat (length stack_ops) < size_max) by (vm_compute; reflexivity).
  assert (H3 : run stack_ops Deque.make = Ok (state_after stack_ops Deque.make))
    by (vm_compute; reflexivity).
  assert (H4 : CircularBuffer.head_ (Deque.data_proxy_ (state_after stack_ops Deque.make)) = 0 \/
               CircularBuffer.size_ (Deque.data_proxy_ (state_after stack_ops Deque.make))
               = CircularBuffer.max_size_
                   (Deque.data_proxy_ (state_after stack_ops Deque.make)))
    by (left; vm_compute; reflexivity).
  split; [exact H1|]. split; [exact H2|]. split; [exact H3|]. split; [exact H4|].
  apply (copy_of_unrotated_ring stack_ops _ sample_state H1 H2 H3 H4).
Defined.

(** X11.  Copying a state reached by a run within the contract whose ring
    starts at another slot than 0 and is not full: the copy loop comes to a
    slot below [size_] that owns no block, and both the copy constructor and
    copy assignment dereference its empty pointer. *)
Theorem copy_of_rotated_ring_faults (ops : list op) (d this : Deque.t) :
  within_contract ops 0 = true ->
  Z.of_nat (length ops) < size_max ->
  run ops Deque.make = Ok d ->
  CircularBuffer.head_ (Deque.data_proxy_ d) <> 0 ->
  CircularBuffer.size_ (Deque.data_proxy_ d)
  < CircularBuffer.max_size_ (Deque.data_proxy_ d) ->
  Deque.copy_construct d = UB NullDeref /\
  Deque.copy_assign this d = UB NullDeref.
Proof.
  intros Hc Hb Hrun Hh Hroom.
  destruct (reached_inv ops d Hc Hb Hrun) as (Hinv & _).
  destruct (copy_construct_inv d _ Hinv) as [_ Hub].
  specialize (Hub Hh Hroom).
  split; [exact Hub|].
  unfold Deque.copy_assign. now rewrite Hub.
Qed.

Lemma copy_of_rotated_ring_faults_witness :
  within_contract sample_ops 0 = true /\
  Z.of_nat (length sample_ops) < size_max /\
  run sample_ops Deque.make = Ok sample_state /\
  CircularBuffer.head_ (Deque.data_proxy_ sample_state) <> 0 /\
  CircularBuffer.size_ (Deque.data_proxy_ sample_state)
  < CircularBuffer.max_size_ (Deque.data_proxy_ sample_state) /\
  (Deque.copy_construct sample_state = UB NullDeref /\
   Deque.copy_assign Deque.make sample_state = UB NullDeref).
Proof.
  assert (H1 : within_contract sample_ops 0 = true) by (vm_compute; reflexivity).
  assert (H2 : Z.of_nat (length sample_ops) < size_max) by (vm_compute; reflexivity).
  assert (H3 : run sample_ops Deque.make = Ok sample_state) by (vm_compute; reflexivity).
  assert (H4 : CircularBuffer.head_ (Deque.data_proxy_ sample_state) <> 0)
    by (vm_compute; discriminate).
  assert (H5 : CircularBuffer.size_ (Deque.data_proxy_ sample_state)
               < CircularBuffer.max_size_ (Deque.data_proxy_ sample_state))
    by (vm_compute; reflexivity).
  split; [exact H1|]. split; [exact H2|]. split; [exact H3|].
  split; [exact H4|]. split; [exact H5|].
  apply (copy_of_rotated_ring_faults sample_ops sample_state Deque.make H1 H2 H3 H4 H5).
Defined.

(** X12.  [Clear] returns on every state reached by a run within the
    contract.  Afterwards [Size()] is 0, the ring's indices are 0, slot 0
    holds a new block, the capacity field is back at 16 while the array
    keeps the length it had, and a second [Clear] changes nothing. *)
Theorem Clear_of_reached_state (ops : list op) (d : Deque.t) :
  within_contract ops 0 = true ->
  Z.of_nat (length ops) < size_max ->
  run ops Deque.make = Ok d ->
  exists d1,
    Deque.Clear d = Ok d1 /\
    Deque.Size d1 = 0 /\
    CircularBuffer.size_ (Deque.data_proxy_ d1) = 0 /\
    CircularBuffer.max_size_ (Deque.data_proxy_ d1) = deque_settings.kBufferInitMaxSize /\
    CircularBuffer.head_ (Deque.data_proxy_ d1) = 0 /\
    CircularBuffer.tail_ (Deque.data_proxy_ d1) = 0 /\
    CircularBuffer.block_at (Deque.data_proxy_ d1) 0 = Ok (Block.make Deque.BS) /\
    (exists a, CircularBuffer.buffer_ (Deque.data_proxy_ d1) = Some a /\
               Z.of_nat (length a) = CircularBuffer.max_size_ (Deque.data_proxy_ d)) /\
    Deque.Clear d1 = Ok d1.
Proof.
  intros Hc Hb Hrun.
  destruct (reached_inv ops d Hc Hb Hrun) as (Hinv & _).
  exact (Clear_inv d _ Hinv).
Qed.

Lemma Clear_of_reached_state_witness :
  within_contract sample_ops 0 = true /\
  Z.of_nat (length sample_ops) < size_max /\
  run sample_ops Deque.make = Ok sample_state /\
  exists d1,
    Deque.Clear sample_state = Ok d1 /\
    Deque.Size d1 = 0 /\
    CircularBuffer.size_ (Deque.data_proxy_ d1) = 0 /\
    CircularBuffer.max_size_ (Deque.data_proxy_ d1) = deque_settings.kBufferInitMaxSize /\
    CircularBuffer.head_ (Deque.data_proxy_ d1) = 0 /\
    CircularBuffer.tail_ (Deque.data_proxy_ d1) = 0 /\
    CircularBuffer.block_at (Deque.data_proxy_ d1) 0 = Ok (Block.make Deque.BS) /\
    (exists a, CircularBuffer.buffer_ (Deque.data_proxy_ d1) = Some a /\
               Z.of_nat (length a)
               = CircularBuffer.max_size_ (Deque.data_proxy_ sample_state)) /\
    Deque.Clear d1 = Ok d1.
Proof.
  assert (H1 : within_contract sample_ops 0 = true) by (vm_compute; reflexivity).
  assert (H2 : Z.of_nat (length sample_ops) < size_max) by (vm_compute; reflexivity).
  assert (H3 : run sample_ops Deque.make = Ok sample_state) by (vm_compute; reflexivity).
  split; [exact H1|]. split; [exact H2|]. split; [exact H3|].
  apply (Clear_of_reached_state sample_ops sample_state H1 H2 H3).
Defined.

(** X13.  The deque a move leaves behind accepts no operation: every push,
    pop, indexed read and [Clear] on it dereferences the array pointer that
    the move has reset, whatever the deque held and whatever the
    arguments. *)
Theorem moved_from_deque_faults (d : Deque.t) (v i : Z) :
  let d' := snd (Deque.move_construct d) in
  Deque.PushBack v d' = UB NullDeref /\
  Deque.PushFront v d' = UB NullDeref /\
  Deque.PopBack d' = UB NullDeref /\
  Deque.PopFront d' = UB NullDeref /\
  Deque.index i d' = UB NullDeref /\
  Deque.Clear d' = UB NullDeref.
Proof. exact (moved_from_faults (Deque.size_ d) v i). Qed.

(** X14.  [ExpandBuffer] on a state reached by a run within the contract
    whose ring is full returns: the capacity doubles, the blocks are laid
    out from slot 0 on, the ring is no longer full, and every valid index
    reads the element it read before. *)
Theorem ExpandBuffer_keeps_elements (ops : list op) (d : Deque.t) :
  within_contract ops 0 = true ->
  Z.of_nat (length ops) < size_max ->
  run ops Deque.make = Ok d ->
  CircularBuffer.IsFull (Deque.data_proxy_ d) = true ->
  exists r',
    CircularBuffer.ExpandBuffer (Deque.data_proxy_ d) = Ok r' /\
    CircularBuffer.max_size_ r' = 2 * CircularBuffer.max_size_ (Deque.data_proxy_ d) /\
    CircularBuffer.size_ r' = CircularBuffer.size_ (Deque.data_proxy_ d) /\
    CircularBuffer.head_ r' = 0 /\
    CircularBuffer.tail_ r' = CircularBuffer.size_ (Deque.data_proxy_ d) - 1 /\
    CircularBuffer.IsFull r' = false /\
    forall i, 0 <= i < Deque.Size d ->
              CircularBuffer.GetElementByIndex Deque.BS i r' = Deque.index i d.
Proof.
  intros Hc Hb Hrun Hfull.
  destruct (reached_inv ops d Hc Hb Hrun) as (Hinv & Hlen & Hsz).
  destruct (Expand_inv d _ Hinv ltac:(lia) Hfull)
    as (r' & E & HM' & Hs' & Hh' & Ht' & Hinv').
  exists r'. split; [exact E|]. split; [exact HM'|]. split; [exact Hs'|].
  split; [exact Hh'|]. split; [exact Ht'|].
  split.
  { unfold CircularBuffer.IsFull in *. apply Z.eqb_eq in Hfull. apply Z.eqb_neq.
    destruct Hinv as (? & ? & _ & _ & _ & _ & HM). lia. }
  intros i Hi.
  rewrite (index_inv d _ i Hinv) by lia.
  apply (index_inv _ _ i Hinv'); lia.
Qed.

Lemma ExpandBuffer_keeps_elements_witness :
  within_contract full_ops 0 = true /\
  Z.of_nat (length full_ops) < size_max /\
  run full_ops Deque.make = Ok (state_after full_ops Deque.make) /\
  CircularBuffer.IsFull (Deque.data_proxy_ (state_after full_ops Deque.make)) = true /\
  exists r',
    CircularBuffer.ExpandBuffer (Deque.data_proxy_ (state_after full_ops Deque.make))
    = Ok r' /\
    CircularBuffer.max_size_ r'
    = 2 * CircularBuffer.max_size_ (Deque.data_proxy_ (state_after full_ops Deque.make)) /\
    CircularBuffer.size_ r'
    = CircularBuffer.size_ (Deque.data_proxy_ (state_after full_ops Deque.make)) /\
    CircularBuffer.head_ r' = 0 /\
    CircularBuffer.tail_ r'
    = CircularBuffer.size_ (Deque.data_proxy_ (state_after full_ops Deque.make)) - 1 /\
    CircularBuffer.IsFull r' = false /\
    forall i, 0 <= i < Deque.Size (state_after full_ops Deque.make) ->
              CircularBuffer.GetElementByIndex Deque.BS i r'
              = Deque.index i (state_after full_ops Deque.make).
Proof.
  assert (H1 : within_contract full_ops 0 = true) by (vm_compute; reflexivity).
  assert (H2 : Z.of_nat (length full_ops) < size_max) by (vm_compute; reflexivity).
  assert (H3 : run full_ops Deque.make = Ok (state_after full_ops Deque.make))
    by (vm_compute; reflexivity).
  assert (H4 : CircularBuffer.IsFull (Deque.data_proxy_ (state_after full_ops Deque.make))
               = true) by (vm_compute; reflexivity).
  split; [exact H1|]. split; [exact H2|]. split; [exact H3|]. split; [exact H4|].
  apply (ExpandBuffer_keeps_elements full_ops _ H1 H2 H3 H4).
Defined.

(** X15.  On a state reached by a run within the contract whose ring is not
    full, adding a block at the tail and deleting the tail block gives back
    the ring as it was, slot by slot, and so does adding a block at the head
    and deleting the head block. *)
Theorem add_then_delete_block (ops : list op) (d : Deque.t) :
  within_contract ops 0 = true ->
  Z.of_nat (length ops) < size_max ->
  run ops Deque.make = Ok d ->
  CircularBuffer.IsFull (Deque.data_proxy_ d) = false ->
  (r1 <- CircularBuffer.AddTailDataBlock Deque.BS (Deque.data_proxy_ d) ;;
   CircularBuffer.DeleteDataBlockFromTail r1) = Ok (Deque.data_proxy_ d) /\
  (r1 <- CircularBuffer.AddHeadDataBlock Deque.BS (Deque.data_proxy_ d) ;;
   CircularBuffer.DeleteDataBlockFromHead r1) = Ok (Deque.data_proxy_ d).
Proof.
  intros Hc Hb Hrun Hfull.
  destruct (reached_inv ops d Hc Hb Hrun) as ((bs & cs & Hring & _) & _).
  exact (ring_Add_Delete _ bs Hring Hfull).
Qed.

Lemma add_then_delete_block_witness :
  within_contract sample_ops 0 = true /\
  Z.of_nat (length sample_ops) < size_max /\
  run sample_ops Deque.make = Ok sample_state /\
  CircularBuffer.IsFull (Deque.data_proxy_ sample_state) = false /\
  ((r1 <- CircularBuffer.AddTailDataBlock Deque.BS (Deque.data_proxy_ sample_state) ;;
    CircularBuffer.DeleteDataBlockFromTail r1) = Ok (Deque.data_proxy_ sample_state) /\
   (r1 <- CircularBuffer.AddHeadDataBlock Deque.BS (Deque.data_proxy_ sample_state) ;;
    CircularBuffer.DeleteDataBlockFromHead r1) = Ok (Deque.data_proxy_ sample_state)).
Proof.
  assert (H1 : within_contract sample_ops 0 = true) by (vm_compute; reflexivity).
  assert (H2 : Z.of_nat (length sample_ops) < size_max) by (vm_compute; reflexivity).
  assert (H3 : run sample_ops Deque.make = Ok sample_state) by (vm_compute; reflexivity).
  assert (H4 : CircularBuffer.IsFull (Deque.data_proxy_ sample_state) = false)
    by (vm_compute; reflexivity).
  split; [exact H1|]. split; [exact H2|]. split; [exact H3|]. split; [exact H4|].
  apply (add_then_delete_block sample_ops sample_state H1 H2 H3 H4).
Defined.

(** X16.  The two overloads of [operator[]] agree on every deque and every
    index: reading through the reference that the [int &] overload returns
    gives what the [const] overload returns, and the one faults where the
    other does, with the same fault. *)
Theorem index_overloads_agree (d : Deque.t) (i : Z) :
  (p <- NonConst.index i d ;; NonConst.load p d) = Deque.index i d.
Proof. exact (load_index d i). Qed.

(** X17.  An assignment [d[i] = v] at a valid index of a state reached by a
    run within the contract returns; afterwards the size is unchanged, index
    [i] reads [v], every other valid index reads what it read before, and
    the deque reads back the reference list with position [i] replaced. *)
Theorem assign_through_index (ops : list op) (d : Deque.t) (i v : Z) :
  within_contract ops 0 = true ->
  Z.of_nat (length ops) < size_max ->
  run ops Deque.make = Ok d ->
  0 <= i < Deque.Size d ->
  exists d',
    NonConst.assign i v d = Ok d' /\
    Deque.Size d' = Deque.Size d /\
    Deque.index i d' = Ok v /\
    (forall j, 0 <= j < Deque.Size d -> j <> i -> Deque.index j d' = Deque.index j d) /\
    Deque.contents d' = Ok (upd (ref_run ops []) (Z.to_nat i) v).
Proof.
  intros Hc Hb Hrun Hi.
  destruct (reached_inv ops d Hc Hb Hrun) as (Hinv & Hlen & Hsz).
  set (l := ref_run ops []) in *.
  destruct (assign_inv d l i v Hinv) as (d' & E & Hinv' & _); try lia.
  assert (Hl' : length (upd l (Z.to_nat i) v) = length l) by apply upd_length.
  exists d'. split; [exact E|].
  split.
  { destruct Hinv' as (? & ? & _ & _ & _ & Hs' & _).
    unfold Deque.Size in *. rewrite Hs', Hl'. lia. }
  split.
  { rewrite (index_inv d' _ i Hinv') by (rewrite Hl'; lia).
    f_equal. apply nth_upd_eq. lia. }
  split.
  { intros j Hj Hne.
    rewrite (index_inv d' _ j Hinv') by (rewrite Hl'; lia).
    rewrite (index_inv d l j Hinv) by lia.
    f_equal. apply nth_upd_neq. lia. }
  apply contents_inv; [exact Hinv' | rewrite Hl'; lia].
Qed.

Lemma assign_through_index_witness :
  within_contract sample_ops 0 = true /\
  Z.of_nat (length sample_ops) < size_max /\
  run sample_ops Deque.make = Ok sample_state /\
  0 <= 250 < Deque.Size sample_state /\
  exists d',
    NonConst.assign 250 77 sample_state = Ok d' /\
    Deque.Size d' = Deque.Size sample_state /\
    Deque.index 250 d' = Ok 77 /\
    (forall j, 0 <= j < Deque.Size sample_state -> j <> 250 ->
               Deque.index j d' = Deque.index j sample_state) /\
    Deque.contents d' = Ok (upd (ref_run sample_ops []) (Z.to_nat 250) 77).
Proof.
  assert (H1 : within_contract sample_ops 0 = true) by (vm_compute; reflexivity).
  assert (H2 : Z.of_nat (length sample_ops) < size_max) by (vm_compute; reflexivity).
  assert (H3 : run sample_ops Deque.make = Ok sample_state) by (vm_compute; reflexivity).
  assert (H4 : 0 <= 250 < Deque.Size sample_state)
    by (vm_compute; split; [discriminate | reflexivity]).
  split; [exact H1|]. split; [exact H2|]. split; [exact H3|]. split; [exact H4|].
  apply (assign_through_index sample_ops sample_state 250 77 H1 H2 H3 H4).
Defined.

(** X18.  The list constructor on a list of at most 1024 elements returns,
    and the deque has the size and the elements of the list. *)
Theorem list_constructor_up_to_1024 (l : list Z) :
  Z.of_nat (length l) <= 1024 ->
  exists d,
    Deque.make_list l = Ok d /\
    Deque.Size d = Z.of_nat (length l) /\
    Deque.contents d = Ok l.
Proof. exact (make_list_small l). Qed.

Lemma list_constructor_up_to_1024_witness :
  Z.of_nat (length (iota 300)) <= 1024 /\
  exists d,
    Deque.make_list (iota 300) = Ok d /\
    Deque.Size d = Z.of_nat (length (iota 300)) /\
    Deque.contents d = Ok (iota 300).
Proof.
  assert (H1 : Z.of_nat (length (iota 300)) <= 1024) by (vm_compute; discriminate).
  split; [exact H1|].
  apply (list_constructor_up_to_1024 (iota 300) H1).
Defined.

(** X19.  The list constructor on a list of more than 1024 elements faults,
    whatever the elements: the ring's block count, set ahead of the blocks,
    reaches the capacity while the tail block is full, [ExpandBuffer] sets
    the tail index from the count, and the slot it names is empty. *)
Theorem list_constructor_above_1024_faults (l : list Z) :
  1025 <= Z.of_nat (length l) < size_max ->
  Deque.make_list l = UB NullDeref.
Proof. exact (make_list_large l). Qed.

Lemma list_constructor_above_1024_faults_witness :
  1025 <= Z.of_nat (length (repeat 3 2500)) < size_max /\
  Deque.make_list (repeat 3 2500) = UB NullDeref.
Proof.
  assert (H1 : 1025 <= Z.of_nat (length (repeat 3 2500)) < size_max)
    by (vm_compute; split; [discriminate | reflexivity]).
  split; [exact H1|].
  apply (list_constructor_above_1024_faults (repeat 3 2500) H1).
Defined.

(** X20.  On a state reached by a run within the contract, where
    [PushFront] returns, the [PopFront] after it returns too and gives back
    the size and the elements the deque had. *)
Theorem PushFront_then_PopFront (ops : list op) (d d1 : Deque.t) (v : Z) :
  within_contract ops 0 = true ->
  Z.of_nat (length ops) + 1 < size_max ->
  run ops Deque.make = Ok d ->
  Deque.PushFront v d = Ok d1 ->
  exists d2,
    Deque.PopFront d1 = Ok d2 /\
    Deque.Size d2 = Deque.Size d /\
    Deque.contents d2 = Ok (ref_run ops []) /\
    Deque.contents d2 = Deque.contents d.
Proof.
  intros Hc Hb Hrun Hpush.
  destruct (reached_inv ops d Hc ltac:(lia) Hrun) as (Hinv & Hlen & Hsz).
  set (l := ref_run ops []) in *.
  assert (Hinv1 : deque_inv d1 (v :: l)) by (apply (PushFront_inv d d1 l v); auto; lia).
  destruct (PushFront_head d d1 l v Hinv ltac:(lia) Hpush)
    as (hb & bs' & c' & cs' & Hr1 & Hlay1 & Hcat & Hsz1).
  destruct (PopFront_fwd d1 hb bs' v c' cs' Hr1 Hlay1) as (d2 & E2);
    [rewrite <- Hcat; exact Hsz1|].
  assert (Hinv2 : deque_inv d2 l).
  { change l with (tl (v :: l)).
    apply (PopFront_inv d1 d2 (v :: l)); auto; [discriminate | cbn [length]; lia]. }
  exists d2. split; [exact E2|].
  split.
  - destruct Hinv2 as (? & ? & _ & _ & _ & Hs2 & _). unfold Deque.Size in *. lia.
  - rewrite (contents_inv d2 l Hinv2), (contents_inv d l Hinv) by lia. auto.
Qed.

Lemma PushFront_then_PopFront_witness :
  within_contract sample_ops 0 = true /\
  Z.of_nat (length sample_ops) + 1 < size_max /\
  run sample_ops Deque.make = Ok sample_state /\
  Deque.PushFront 9 sample_state = Ok (state_after [OpPushFront 9] sample_state) /\
  exists d2,
    Deque.PopFront (state_after [OpPushFront 9] sample_state) = Ok d2 /\
    Deque.Size d2 = Deque.Size sample_state /\
    Deque.contents d2 = Ok (ref_run sample_ops []) /\
    Deque.contents d2 = Deque.contents sample_state.
Proof.
  assert (H1 : within_contract sample_ops 0 = true) by (vm_compute; reflexivity).
  assert (H2 : Z.of_nat (length sample_ops) + 1 < size_max) by (vm_compute; reflexivity).
  assert (H3 : run sample_ops Deque.make = Ok sample_state) by (vm_compute; reflexivity).
  assert (H4 : Deque.PushFront 9 sample_state
               = Ok (state_after [OpPushFront 9] sample_state))
    by (vm_compute; reflexivity).
  split; [exact H1|]. split; [exact H2|]. split; [exact H3|]. split; [exact H4|].
  apply (PushFront_then_PopFront sample_ops sample_state _ 9 H1 H2 H3 H4).
Defined.
